(** * Scene-animation logic: spin, orbit and effect processors

  A shallow embedding of the TypeScript modules [CORE/math], [CORE/utils],
  [CORE/ticker], [Basic], [SpinL], [Orbit] and [Effect] and of the
  animation check of the engine, the properties of their specification,
  and further properties of the modules.

  Numbers.  A JavaScript number is modelled by [num]: a real number, one
  of the two infinities, or NaN.  Rounding and the sign of zero are
  abstracted: finite arithmetic is the arithmetic of [R].  Functions
  whose arguments and results are finite on every path they are used on
  are written over [R] directly; [num] appears where the code tests for
  non-finite values or where a NaN arises (a missing property).

  Exceptions.  A function that throws on some input returns an [option],
  and [None] is the exception: the read of a missing position in [Basic],
  the conversion of a value that [Number] rejects in [clampRpm60], and
  the creation of a sprite in [Effect], where [Sprite] is imported as a
  type only. *)

From Stdlib Require Import Reals Lra Lia ZArith.
From stdpp Require Import base decidable option list strings gmap sorting.

Open Scope R_scope.

(** ** JavaScript numbers *)

Module JS.

Inductive num : Type :=
| Fin (r : R)
| PInf
| NInf
| NaN.

#[global] Instance Rle_decision (a b : R) : Decision (a <= b) := Rle_dec a b.
#[global] Instance Rlt_decision (a b : R) : Decision (a < b) := Rlt_dec a b.
#[global] Instance Rge_decision (a b : R) : Decision (a >= b) := Rge_dec a b.
#[global] Instance Rgt_decision (a b : R) : Decision (a > b) := Rgt_dec a b.
#[global] Instance Req_decision : EqDecision R := Req_dec_T.

(** [isFinite(n)] *)
Definition isFinite (n : num) : bool :=
  match n with Fin _ => true | _ => false end.

(** [n <= 0]; every comparison with NaN is false. *)
Definition le0 (n : num) : bool :=
  match n with
  | Fin r => bool_decide (r <= 0)
  | NInf => true
  | PInf | NaN => false
  end.

Definition neg (a : num) : num :=
  match a with
  | Fin r => Fin (- r)
  | PInf => NInf
  | NInf => PInf
  | NaN => NaN
  end.

(** [a + b] *)
Definition add (a b : num) : num :=
  match a, b with
  | NaN, _ | _, NaN => NaN
  | Fin x, Fin y => Fin (x + y)
  | PInf, NInf | NInf, PInf => NaN
  | PInf, _ | _, PInf => PInf
  | NInf, _ | _, NInf => NInf
  end.

(** [a - b] *)
Definition sub (a b : num) : num := add a (neg b).

(** The sign of an infinity multiplied by a finite factor. *)
Definition scale_inf (positive : bool) (r : R) : num :=
  if decide (r = 0) then NaN
  else if bool_decide (0 < r) then (if positive then PInf else NInf)
       else (if positive then NInf else PInf).

(** [a * b] *)
Definition mul (a b : num) : num :=
  match a, b with
  | NaN, _ | _, NaN => NaN
  | Fin x, Fin y => Fin (x * y)
  | PInf, Fin y | Fin y, PInf => scale_inf true y
  | NInf, Fin y | Fin y, NInf => scale_inf false y
  | PInf, PInf | NInf, NInf => PInf
  | PInf, NInf | NInf, PInf => NInf
  end.

(** [Math.cos], [Math.sin]: NaN outside the finite numbers. *)
Definition cos (a : num) : num :=
  match a with Fin r => Fin (Rtrigo_def.cos r) | _ => NaN end.
Definition sin (a : num) : num :=
  match a with Fin r => Fin (Rtrigo_def.sin r) | _ => NaN end.

(** [Math.atan2(y, x)] on finite arguments. *)
Definition Ratan2 (y x : R) : R :=
  if decide (0 < x) then atan (y / x)
  else if decide (x < 0) then
         (if decide (0 <= y) then atan (y / x) + PI else atan (y / x) - PI)
  else if decide (0 < y) then PI / 2
  else if decide (y < 0) then - (PI / 2)
  else 0.

(** [Math.atan2(y, x)] *)
Definition atan2 (y x : num) : num :=
  match y, x with
  | NaN, _ | _, NaN => NaN
  | Fin a, Fin b => Fin (Ratan2 a b)
  | Fin _, PInf => Fin 0
  | Fin a, NInf => if decide (0 <= a) then Fin PI else Fin (- PI)
  | PInf, Fin _ => Fin (PI / 2)
  | NInf, Fin _ => Fin (- (PI / 2))
  | PInf, PInf => Fin (PI / 4)
  | PInf, NInf => Fin (3 * PI / 4)
  | NInf, PInf => Fin (- (PI / 4))
  | NInf, NInf => Fin (- (3 * PI / 4))
  end.

(** [Math.hypot(x, y)] on finite arguments. *)
Definition hypot (x y : R) : R := sqrt (x * x + y * y).

(** Truncation towards zero, and the remainder [a % b] of finite
    numbers with [b] nonzero: the result has the sign of the dividend. *)
Definition Rtrunc (r : R) : Z :=
  if decide (0 <= r) then Int_part r else (- Int_part (- r))%Z.

Definition fmod (a b : R) : R := a - b * IZR (Rtrunc (a / b)).

(** The time elapsed over a sequence of frame deltas. *)
Definition total (deltas : list R) : R := foldr Rplus 0 deltas.

(** A value of static type [unknown] that converts to a number, as far
    as the conversion can observe it: a number; [null] or [undefined],
    which [v == null] does not tell apart; or a value of another type
    for which [Number(v)] returns, given by the number it returns. *)
Inductive unknown : Type :=
| UNum (n : num)
| UNullish
| UOther (asNumber : num).

(** A value of any type.  [Number(v)] does not return for every value:
    it throws a [TypeError] for a Symbol, and for an object it throws
    what the conversion of the object to a primitive throws.  [Throws]
    is such a value; the others are the values of [unknown]. *)
Inductive anyValue : Type :=
| Converts (v : unknown)
| Throws.

End JS.

Import JS.

(** ** CORE/math *)

Module CoreMath.

Definition toRad (deg : R) : R := (deg * PI) / 180.

Definition toDeg (rad : R) : R := (rad * 180) / PI.

Definition clamp (n min max : R) : R := Rmax min (Rmin max n).

Definition clamp01 (n : R) : R := clamp n 0 1.

Definition normDeg (deg : R) : R :=
  let d := fmod deg 360 in
  if decide (d < 0) then d + 360 else d.

(** [typeof v === 'number' ? v : v == null ? 0 : Number(v)] *)
Definition numberOf (v : unknown) : num :=
  match v with
  | UNum n => n
  | UNullish => Fin 0
  | UOther n => n
  end.

(** The result is a finite number on every path: the guard returns [0]
    for every [n] that is not finite. *)
Definition clampRpm60 (v : unknown) : R :=
  let n := numberOf v in
  if negb (isFinite n) || le0 n then 0
  else match n with
       | Fin r => Rmin 60 (Rmax 0 r)
       | _ => 0
       end.

(** [clampRpm60] at a value of any type.  The conversion of its first
    line, [typeof v === 'number' ? v : v == null ? 0 : Number(v)], is
    the one step that can throw, and nothing catches the exception: the
    result [None] is that exception.  The callers in the processors pass
    numbers and the optional fields of a configuration; on the values
    that convert, the function is [clampRpm60] above. *)
Definition numberOfAny (v : anyValue) : option num :=
  match v with
  | Converts (UNum n) => Some n
  | Converts UNullish => Some (Fin 0)
  | Converts (UOther n) => Some n
  | Throws => None
  end.

Definition clampRpm60Any (v : anyValue) : option R :=
  match numberOfAny v with
  | None => None
  | Some n =>
      Some (if negb (isFinite n) || le0 n then 0
            else match n with
                 | Fin r => Rmin 60 (Rmax 0 r)
                 | _ => 0
                 end)
  end.

Definition lerp (a b t : R) : R := a + (b - a) * t.

Definition distance (x1 y1 x2 y2 : R) : R :=
  let dx := x2 - x1 in
  let dy := y2 - y1 in
  sqrt (dx * dx + dy * dy).

End CoreMath.

(** ** CORE/utils *)

Module Utils.

Record Vec2 : Type := mkVec2 { x : R; y : R }.

Definition percentToStageCoords (xPct yPct stageWidth stageHeight : R) : Vec2 :=
  {| x := (xPct / 100) * stageWidth;
     y := (yPct / 100) * stageHeight |}.

(** [rotateVec] of [CORE/math]. *)
Definition rotateVec (v : Vec2) (angle : R) : Vec2 :=
  let c := Rtrigo_def.cos angle in
  let s := Rtrigo_def.sin angle in
  {| x := x v * c - y v * s;
     y := x v * s + y v * c |}.

(** [isNumeric]: [typeof value === 'number' && isFinite(value)], for a
    value given as in [clampRpm60]. *)
Definition isNumeric (value : unknown) : bool :=
  match value with
  | UNum n => isFinite n
  | _ => false
  end.

(** [/\d/]: the ten ASCII digits. *)
Definition is_digit (c : Ascii.ascii) : bool :=
  (48 <=? Ascii.N_of_ascii c)%N && (Ascii.N_of_ascii c <=? 57)%N.

(** The digits a string starts with. *)
Fixpoint leading_digits (s : string) : list Ascii.ascii :=
  match s with
  | EmptyString => []
  | String c rest => if is_digit c then c :: leading_digits rest else []
  end.

(** [layerId.match(/\d+/)]: the first run of digits, as far as it
    goes. *)
Fixpoint first_digits (s : string) : option (list Ascii.ascii) :=
  match s with
  | EmptyString => None
  | String c rest => if is_digit c then Some (c :: leading_digits rest) else first_digits rest
  end.

(** [parseInt(digits, 10)] of a run of digits, as the exact number. *)
Definition parseInt10 (digits : list Ascii.ascii) : N :=
  foldl (fun n c => 10 * n + (Ascii.N_of_ascii c - 48))%N 0%N digits.

Definition extractZIndex (layerId : string) : N :=
  match first_digits layerId with
  | Some digits => parseInt10 digits
  | None => 0%N
  end.

End Utils.

(** ** The drawables

  Sprites are objects of the rendering library, shared by reference
  between the layers and the items of every processor.  A reference is
  an address, and the heap maps addresses to the settable state of the
  sprite. *)

Module Pixi.

Definition ref : Type := nat.

Record Sprite : Type := mkSprite {
  x : num;
  y : num;
  rotation : num;
  alpha : num;
  scaleX : num;
  scaleY : num;
  tint : R;
  blendMode : nat
}.

Definition set_x (v : num) (s : Sprite) : Sprite :=
  mkSprite v (y s) (rotation s) (alpha s) (scaleX s) (scaleY s) (tint s) (blendMode s).
Definition set_y (v : num) (s : Sprite) : Sprite :=
  mkSprite (x s) v (rotation s) (alpha s) (scaleX s) (scaleY s) (tint s) (blendMode s).
Definition set_rotation (v : num) (s : Sprite) : Sprite :=
  mkSprite (x s) (y s) v (alpha s) (scaleX s) (scaleY s) (tint s) (blendMode s).
Definition set_alpha (v : num) (s : Sprite) : Sprite :=
  mkSprite (x s) (y s) (rotation s) v (scaleX s) (scaleY s) (tint s) (blendMode s).
Definition set_scale (vx vy : num) (s : Sprite) : Sprite :=
  mkSprite (x s) (y s) (rotation s) (alpha s) vx vy (tint s) (blendMode s).
Definition set_tint (v : R) (s : Sprite) : Sprite :=
  mkSprite (x s) (y s) (rotation s) (alpha s) (scaleX s) (scaleY s) v (blendMode s).
Definition set_blendMode (v : nat) (s : Sprite) : Sprite :=
  mkSprite (x s) (y s) (rotation s) (alpha s) (scaleX s) (scaleY s) (tint s) v.

(** [new Sprite(texture)] *)
Definition fresh : Sprite :=
  mkSprite (Fin 0) (Fin 0) (Fin 0) (Fin 1) (Fin 1) (Fin 1) 16777215 0.

Definition heap : Type := ref -> Sprite.

(** An assignment to a property of the sprite at [r]. *)
Definition write (r : ref) (f : Sprite -> Sprite) (h : heap) : heap :=
  fun r' => if decide (r' = r) then f (h r) else h r'.

#[global] Arguments write : simpl never.

(** The scene: the sprites, the next free address, and the children of
    the container in drawing order. *)
Record Stage : Type := mkStage {
  sprites : heap;
  next : ref;
  children : list ref
}.

End Pixi.

(** ** CORE/types *)

Module Types.

Inductive Direction : Type := cw | ccw.

Inductive OrientPolicy : Type := none | auto | override.

Inductive Easing : Type := linear | sineInOut.
Inductive PulseProperty : Type := scale | alpha.
Inductive TiltMode : Type := pointer | device | time.
Inductive TiltAxis : Type := both | axisX | axisY.

(** A pair of percentages; the code reads both components through
    [?? default]. *)
Record Percent : Type := mkPercent { xPct : option R; yPct : option R }.

(** An entry of [effects]; every field is optional.  [CfgOther] is an
    entry that is not an object or whose [type] is none of the seven. *)
Inductive EffectConfig : Type :=
| CfgFade (from to durationMs : option R) (loop : option bool) (easing : option Easing)
| CfgPulse (property : option PulseProperty) (amp periodMs phaseDeg : option R)
| CfgTilt (mode : option TiltMode) (axis : option TiltAxis) (maxDeg periodMs : option R)
| CfgGlow (color alpha scale pulseMs : option R)
| CfgBloom (strength threshold : option R)
| CfgDistort (ampPx speed : option R)
| CfgShockwave (periodMs maxScale : option R) (fade : option bool)
| CfgOther.

Record LayerConfig : Type := mkLayerConfig {
  id : string;
  position : option Percent;
  scalePct : option R;
  angleDeg : option R;
  spinRPM : unknown;
  spinDir : option Direction;
  orbitRPM : unknown;
  orbitDir : option Direction;
  orbitCenter : option Percent;
  orbitPhaseDeg : option num;
  orbitOrientPolicy : option OrientPolicy;
  orbitOrientDeg : option num;
  effects : list EffectConfig
}.

Record BuiltLayer : Type := mkBuiltLayer {
  layer_id : string;
  layer_sprite : Pixi.ref;
  layer_cfg : LayerConfig
}.

Definition STAGE_WIDTH : R := 1024.
Definition STAGE_HEIGHT : R := 1024.

(** The stored direction [1 | -1]. *)
Inductive Sign : Type := Plus | Minus.

Definition sgn (s : Sign) : R :=
  match s with Plus => 1 | Minus => -1 end.

Definition sign_of (d : Direction) : Sign :=
  match d with ccw => Minus | cw => Plus end.

End Types.

Import Types.

(** ** SpinL *)

Module SpinL.
Import CoreMath.

Record SpinItem : Type := mkSpinItem {
  sprite : Pixi.ref;
  layerId : string;
  baseRotation : num;
  radPerSecond : R;
  direction : Sign;
  rpm : R;
  active : bool
}.

Record SpinConfig : Type := mkSpinConfig {
  cfg_rpm : R;
  cfg_direction : Direction;
  cfg_enabled : bool
}.

Definition rpmToRadPerSecond (rpm : R) : R := (rpm * PI) / 30.

Definition createSpinConfig (cfg : LayerConfig) : SpinConfig :=
  let rpm := clampRpm60 (spinRPM cfg) in
  let direction := match spinDir cfg with Some ccw => ccw | _ => cw end in
  {| cfg_rpm := rpm; cfg_direction := direction; cfg_enabled := bool_decide (rpm > 0) |}.

Definition createSpinItem (h : Pixi.heap) (layer : BuiltLayer) : option SpinItem :=
  let spinConfig := createSpinConfig (layer_cfg layer) in
  if negb (cfg_enabled spinConfig) then None
  else
    let direction := sign_of (cfg_direction spinConfig) in
    let radPerSecond := rpmToRadPerSecond (cfg_rpm spinConfig) in
    Some {| sprite := layer_sprite layer;
            layerId := layer_id layer;
            baseRotation := Pixi.rotation (h (layer_sprite layer));
            radPerSecond := radPerSecond;
            direction := direction;
            rpm := cfg_rpm spinConfig;
            active := true |}.

(** [item.baseRotation + (item.direction * item.radPerSecond * elapsedTime)] *)
Definition totalRotation (item : SpinItem) (elapsedTime : R) : num :=
  JS.add (baseRotation item) (Fin (sgn (direction item) * radPerSecond item * elapsedTime)).

Definition updateSpinItem (item : SpinItem) (elapsedTime : R) (h : Pixi.heap) : Pixi.heap :=
  if negb (active item) then h
  else Pixi.write (sprite item) (Pixi.set_rotation (totalRotation item elapsedTime)) h.

(** The loop of [buildSpinSystem]: the items pushed and the map filled,
    layer after layer. *)
Fixpoint buildSpinLoop (h : Pixi.heap) (layers : list BuiltLayer)
    (items : list SpinItem) (rpmBySprite : gmap Pixi.ref R)
    : list SpinItem * gmap Pixi.ref R :=
  match layers with
  | [] => (items, rpmBySprite)
  | layer :: rest =>
      let spinConfig := createSpinConfig (layer_cfg layer) in
      let rpmBySprite := <[ layer_sprite layer := cfg_rpm spinConfig ]> rpmBySprite in
      let items := match createSpinItem h layer with
                   | Some spinItem => items ++ [spinItem]
                   | None => items
                   end in
      buildSpinLoop h rest items rpmBySprite
  end.

Definition buildSpinSystem (h : Pixi.heap) (layers : list BuiltLayer)
    : list SpinItem * gmap Pixi.ref R :=
  buildSpinLoop h layers [] ∅.

Fixpoint tickSpinSystem (items : list SpinItem) (elapsedTime : R) (h : Pixi.heap) : Pixi.heap :=
  match items with
  | [] => h
  | item :: rest => tickSpinSystem rest elapsedTime (updateSpinItem item elapsedTime h)
  end.

(** The processor: its private fields. *)
Record SpinLProcessor : Type := mkProcessor {
  items : list SpinItem;
  rpmBySprite : gmap Pixi.ref R;
  elapsedTime : R
}.

Definition init (h : Pixi.heap) (layers : list BuiltLayer) : SpinLProcessor :=
  let system := buildSpinSystem h layers in
  {| items := system.1; rpmBySprite := system.2; elapsedTime := 0 |}.

Definition tick (deltaTime : R) (p : SpinLProcessor) (h : Pixi.heap)
    : SpinLProcessor * Pixi.heap :=
  match items p with
  | [] => (p, h)
  | _ =>
      let elapsed := elapsedTime p + deltaTime in
      ({| items := items p; rpmBySprite := rpmBySprite p; elapsedTime := elapsed |},
       tickSpinSystem (items p) elapsed h)
  end.

(** The frames delivered by the ticker, one [tick] per delta. *)
Fixpoint run (deltas : list R) (p : SpinLProcessor) (h : Pixi.heap)
    : SpinLProcessor * Pixi.heap :=
  match deltas with
  | [] => (p, h)
  | deltaTime :: rest =>
      let '(p', h') := tick deltaTime p h in
      run rest p' h'
  end.

Definition getRPM (p : SpinLProcessor) (sprite : Pixi.ref) : R :=
  default 0 (rpmBySprite p !! sprite).

(** [this.items.find(i => i.layerId === layerId)] followed by
    assignments to the item found: the first match is updated in place. *)
Definition with_item (layerId0 : string) (f : SpinItem -> SpinItem)
    (p : SpinLProcessor) : SpinLProcessor :=
  match list_find (fun i => layerId i = layerId0) (items p) with
  | Some (k, _) =>
      {| items := alter f k (items p);
         rpmBySprite := rpmBySprite p;
         elapsedTime := elapsedTime p |}
  | None => p
  end.

Definition updateRPM (layerId0 : string) (rpm0 : num) (p : SpinLProcessor) : SpinLProcessor :=
  with_item layerId0
    (fun item =>
       let rpm1 := clampRpm60 (UNum rpm0) in
       {| sprite := sprite item; layerId := layerId item;
          baseRotation := baseRotation item;
          radPerSecond := rpmToRadPerSecond rpm1;
          direction := direction item;
          rpm := rpm1;
          active := bool_decide (rpm1 > 0) |}) p.

Definition toggleSpin (layerId0 : string) (p : SpinLProcessor) : SpinLProcessor :=
  with_item layerId0
    (fun item =>
       {| sprite := sprite item; layerId := layerId item;
          baseRotation := baseRotation item;
          radPerSecond := radPerSecond item;
          direction := direction item;
          rpm := rpm item;
          active := negb (active item) |}) p.

Definition setDirection (layerId0 : string) (d : Direction) (p : SpinLProcessor) : SpinLProcessor :=
  with_item layerId0
    (fun item =>
       {| sprite := sprite item; layerId := layerId item;
          baseRotation := baseRotation item;
          radPerSecond := radPerSecond item;
          direction := sign_of d;
          rpm := rpm item;
          active := active item |}) p.

Definition getActiveItems (p : SpinLProcessor) : list SpinItem :=
  filter (fun item => active item = true) (items p).

Fixpoint resetLoop (items : list SpinItem) (h : Pixi.heap) : Pixi.heap :=
  match items with
  | [] => h
  | item :: rest => resetLoop rest (Pixi.write (sprite item) (Pixi.set_rotation (baseRotation item)) h)
  end.

Definition reset (p : SpinLProcessor) (h : Pixi.heap) : SpinLProcessor * Pixi.heap :=
  ({| items := items p; rpmBySprite := rpmBySprite p; elapsedTime := 0 |},
   resetLoop (items p) h).

Definition dispose (p : SpinLProcessor) : SpinLProcessor :=
  {| items := []; rpmBySprite := ∅; elapsedTime := 0 |}.

(** [SpinLUtils] *)
Definition rpmToDegreesPerSecond (rpm : R) : R := rpm * 6.

Definition getRotationCount (elapsedTime rpm : R) : R := (elapsedTime * rpm) / 60.

Definition normalizeRotation (rotation : R) : R :=
  let twoPi := PI * 2 in
  fmod (fmod rotation twoPi + twoPi) twoPi.

Definition rpmEqual (a b epsilon : R) : bool := bool_decide (Rabs (a - b) < epsilon).

(** [createRPMTransition(fromRPM, toRPM, duration).getValueAt(time)], for
    a duration other than 0. *)
Definition getValueAt (fromRPM toRPM duration time : R) : R :=
  let t := Rmin 1 (Rmax 0 (time / duration)) in
  fromRPM + (toRPM - fromRPM) * t.

End SpinL.

(** ** Orbit *)

Module Orbit.
Import CoreMath Utils.

(** An object holding numeric properties.  [centerPixels] is declared
    with the properties [cx] and [cy]; the objects the module stores in
    it are the [{ x, y }] results of [percentToStageCoords].  The model
    keeps the property names apart: reading a property the object does
    not have yields [undefined], which arithmetic converts to NaN. *)
Definition prop (o : gmap string R) (k : string) : num :=
  match o !! k with
  | Some r => Fin r
  | None => NaN
  end.

(** The object [{ x: v.x, y: v.y }]. *)
Definition object_of (v : Vec2) : gmap string R :=
  <[ "x"%string := Utils.x v ]> (<[ "y"%string := Utils.y v ]> ∅).

Record OrbitItem : Type := mkOrbitItem {
  sprite : Pixi.ref;
  layerId : string;
  cfg : LayerConfig;
  direction : Sign;
  radPerSecond : R;
  centerPercent : Vec2;
  centerPixels : gmap string R;
  radius : R;
  basePhase : num;
  orientPolicy : OrientPolicy;
  orientRadians : R;
  spinRpm : R;
  active : bool
}.

Record OrbitConfig : Type := mkOrbitConfig {
  cfg_rpm : R;
  cfg_direction : Direction;
  cfg_centerPercent : Vec2;
  cfg_phaseDegrees : option num;
  cfg_orientPolicy : OrientPolicy;
  cfg_orientDegrees : option num;
  cfg_enabled : bool
}.

(** An entry of [candidates]. *)
Record Candidate : Type := mkCandidate { t : R; cand_x : R; cand_y : R }.

Definition epsilon : R := 1 / 1000000.

(** [candidates.sort((a, b) => a.t - b.t)]: a stable sort by [t].  An
    entry is inserted among those pushed after it, before the first one
    whose [t] is not smaller. *)
Fixpoint insert_by_t (c : Candidate) (l : list Candidate) : list Candidate :=
  match l with
  | [] => [c]
  | d :: l' => if decide (t c <= t d) then c :: d :: l' else d :: insert_by_t c l'
  end.

Fixpoint sort_by_t (l : list Candidate) : list Candidate :=
  match l with
  | [] => []
  | c :: l' => insert_by_t c (sort_by_t l')
  end.

(** The candidates pushed for the left and right edges, in order. *)
Definition vertical_candidates (centerX centerY dx dy width height : R) : list Candidate :=
  if decide (Rabs dx > epsilon) then
    let t1 := (0 - centerX) / dx in
    let y1 := centerY + t1 * dy in
    let t2 := (width - centerX) / dx in
    let y2 := centerY + t2 * dy in
    (if bool_decide (t1 > 0) && bool_decide (y1 >= -1) && bool_decide (y1 <= height + 1)
     then [ {| t := t1; cand_x := 0; cand_y := y1 |} ] else [])
    ++
    (if bool_decide (t2 > 0) && bool_decide (y2 >= -1) && bool_decide (y2 <= height + 1)
     then [ {| t := t2; cand_x := width; cand_y := y2 |} ] else [])
  else [].

(** The candidates pushed for the top and bottom edges, in order. *)
Definition horizontal_candidates (centerX centerY dx dy width height : R) : list Candidate :=
  if decide (Rabs dy > epsilon) then
    let t3 := (0 - centerY) / dy in
    let x3 := centerX + t3 * dx in
    let t4 := (height - centerY) / dy in
    let x4 := centerX + t4 * dx in
    (if bool_decide (t3 > 0) && bool_decide (x3 >= -1) && bool_decide (x3 <= width + 1)
     then [ {| t := t3; cand_x := x3; cand_y := 0 |} ] else [])
    ++
    (if bool_decide (t4 > 0) && bool_decide (x4 >= -1) && bool_decide (x4 <= width + 1)
     then [ {| t := t4; cand_x := x4; cand_y := height |} ] else [])
  else [].

(** [candidates] once the four edges have been checked. *)
Definition candidates_of (centerX centerY pointX pointY width height : R) : list Candidate :=
  let dx := pointX - centerX in
  let dy := pointY - centerY in
  vertical_candidates centerX centerY dx dy width height
  ++ horizontal_candidates centerX centerY dx dy width height.

Definition projectToRectBorder (centerX centerY pointX pointY width height : R) : Vec2 :=
  if bool_decide (pointX >= 0) && bool_decide (pointX <= width)
     && bool_decide (pointY >= 0) && bool_decide (pointY <= height)
  then {| x := pointX; y := pointY |}
  else
    let dx := pointX - centerX in
    let dy := pointY - centerY in
    if bool_decide (dx = 0) && bool_decide (dy = 0) then {| x := centerX; y := centerY |}
    else
      let candidates := candidates_of centerX centerY pointX pointY width height in
      match sort_by_t candidates with
      | [] => {| x := clamp pointX 0 width; y := clamp pointY 0 height |}
      | first :: _ => {| x := cand_x first; y := cand_y first |}
      end.

(** The head of a list of candidates is one of smallest parameter. *)
Definition head_least (l : list Candidate) : Prop :=
  match l with
  | [] => True
  | first :: _ => forall d, d ∈ l -> t first <= t d
  end.

Definition createOrbitConfig (cfg : LayerConfig) : OrbitConfig :=
  let rpm := clampRpm60 (orbitRPM cfg) in
  let direction := match orbitDir cfg with Some ccw => ccw | _ => cw end in
  let center := default {| xPct := Some 50; yPct := Some 50 |} (orbitCenter cfg) in
  let centerPercent :=
    {| x := clamp (default 50 (xPct center)) 0 100;
       y := clamp (default 50 (yPct center)) 0 100 |} in
  {| cfg_rpm := rpm;
     cfg_direction := direction;
     cfg_centerPercent := centerPercent;
     cfg_phaseDegrees := orbitPhaseDeg cfg;
     cfg_orientPolicy := default none (orbitOrientPolicy cfg);
     cfg_orientDegrees := orbitOrientDeg cfg;
     cfg_enabled := bool_decide (rpm > 0) |}.

(** [cfg.position?.xPct ?? 0] and [cfg.position?.yPct ?? 0] *)
Definition position_xPct (cfg : LayerConfig) : R :=
  default 0 (position cfg ≫= xPct).
Definition position_yPct (cfg : LayerConfig) : R :=
  default 0 (position cfg ≫= yPct).

(** [typeof d === 'number' && isFinite(d) ? d : otherwise] *)
Definition finite_or (d : option num) (otherwise : R) : R :=
  match d with
  | Some (Fin r) => r
  | _ => otherwise
  end.

Definition createOrbitItem (layer : BuiltLayer) (spinRpmBySprite : gmap Pixi.ref R)
    : option OrbitItem :=
  let orbitConfig := createOrbitConfig (layer_cfg layer) in
  if negb (cfg_enabled orbitConfig) then None
  else
    let direction := sign_of (cfg_direction orbitConfig) in
    let w := STAGE_WIDTH in
    let h := STAGE_HEIGHT in
    let centerCoords :=
      percentToStageCoords (x (cfg_centerPercent orbitConfig)) (y (cfg_centerPercent orbitConfig)) w h in
    let spriteCoords :=
      percentToStageCoords (position_xPct (layer_cfg layer)) (position_yPct (layer_cfg layer)) w h in
    let startPoint :=
      projectToRectBorder (x centerCoords) (y centerCoords) (x spriteCoords) (y spriteCoords) w h in
    let radius := hypot (x startPoint - x centerCoords) (y startPoint - y centerCoords) in
    if bool_decide (radius <= 0) then None
    else
      let basePhase :=
        match cfg_phaseDegrees orbitConfig with
        | Some (Fin phaseDegrees) => toRad (normDeg phaseDegrees)
        | _ => Ratan2 (y startPoint - y centerCoords) (x startPoint - x centerCoords)
        end in
      let orientDegrees := finite_or (cfg_orientDegrees orbitConfig) 0 in
      let orientRadians := toRad (normDeg orientDegrees) in
      let radPerSecond := (cfg_rpm orbitConfig * PI) / 30 in
      let spinRpm := default 0 (spinRpmBySprite !! layer_sprite layer) in
      Some {| sprite := layer_sprite layer;
              layerId := layer_id layer;
              cfg := layer_cfg layer;
              direction := direction;
              radPerSecond := radPerSecond;
              centerPercent := cfg_centerPercent orbitConfig;
              centerPixels := object_of centerCoords;
              radius := radius;
              basePhase := Fin basePhase;
              orientPolicy := cfg_orientPolicy orbitConfig;
              orientRadians := orientRadians;
              spinRpm := spinRpm;
              active := true |}.

(** [item.orientPolicy === 'override' ||
     (item.orientPolicy === 'auto' && item.spinRpm <= 0)] *)
Definition orients (item : OrbitItem) : bool :=
  match orientPolicy item with
  | override => true
  | auto => bool_decide (spinRpm item <= 0)
  | none => false
  end.

(** The angle of the per-frame formula. *)
Definition angle_at (item : OrbitItem) (elapsedTime : R) : num :=
  JS.add (basePhase item) (Fin (sgn (direction item) * radPerSecond item * elapsedTime)).

Definition updateOrbitItem (item : OrbitItem) (elapsedTime : R) (h : Pixi.heap) : Pixi.heap :=
  if negb (active item) || bool_decide (radius item <= 0) then h
  else
    let angle := angle_at item elapsedTime in
    let h := Pixi.write (sprite item)
               (Pixi.set_x (JS.add (prop (centerPixels item) "cx")
                                   (JS.mul (Fin (radius item)) (JS.cos angle)))) h in
    let h := Pixi.write (sprite item)
               (Pixi.set_y (JS.add (prop (centerPixels item) "cy")
                                   (JS.mul (Fin (radius item)) (JS.sin angle)))) h in
    if orients item
    then Pixi.write (sprite item) (Pixi.set_rotation (JS.add angle (Fin (orientRadians item)))) h
    else h.

Definition set_geometry (item : OrbitItem) (center : gmap string R) (r : R) (phase : num)
    : OrbitItem :=
  {| sprite := sprite item; layerId := layerId item; cfg := cfg item;
     direction := direction item; radPerSecond := radPerSecond item;
     centerPercent := centerPercent item;
     centerPixels := center;
     radius := r;
     basePhase := phase;
     orientPolicy := orientPolicy item; orientRadians := orientRadians item;
     spinRpm := spinRpm item; active := active item |}.

(** [oldAngle] of [recomputeOrbitItem]: the angle of the sprite as
    read through [centerPixels.cx] and [centerPixels.cy]. *)
Definition currentAngle (item : OrbitItem) (h : Pixi.heap) : num :=
  JS.atan2 (JS.sub (Pixi.y (h (sprite item))) (prop (centerPixels item) "cy"))
           (JS.sub (Pixi.x (h (sprite item))) (prop (centerPixels item) "cx")).

Definition recomputeOrbitItem (item : OrbitItem) (elapsedTime : R) (h : Pixi.heap)
    : OrbitItem * Pixi.heap :=
  let w := STAGE_WIDTH in
  let hh := STAGE_HEIGHT in
  let centerCoords := percentToStageCoords (x (centerPercent item)) (y (centerPercent item)) w hh in
  let oldAngle := currentAngle item h in
  let spriteCoords :=
    percentToStageCoords (position_xPct (cfg item)) (position_yPct (cfg item)) w hh in
  let startPoint :=
    projectToRectBorder (x centerCoords) (y centerCoords) (x spriteCoords) (y spriteCoords) w hh in
  let newRadius := hypot (x startPoint - x centerCoords) (y startPoint - y centerCoords) in
  if bool_decide (newRadius > 0) then
    let phase :=
      JS.sub oldAngle (Fin (sgn (direction item) * radPerSecond item * elapsedTime)) in
    let h := Pixi.write (sprite item)
               (Pixi.set_x (JS.add (Fin (x centerCoords))
                                   (JS.mul (Fin newRadius) (JS.cos oldAngle)))) h in
    let h := Pixi.write (sprite item)
               (Pixi.set_y (JS.add (Fin (y centerCoords))
                                   (JS.mul (Fin newRadius) (JS.sin oldAngle)))) h in
    (set_geometry item (object_of centerCoords) newRadius phase, h)
  else
    (set_geometry item (object_of centerCoords) newRadius (basePhase item), h).

Fixpoint buildOrbitLoop (layers : list BuiltLayer) (spinRpmBySprite : gmap Pixi.ref R)
    (items : list OrbitItem) : list OrbitItem :=
  match layers with
  | [] => items
  | layer :: rest =>
      let items := match createOrbitItem layer spinRpmBySprite with
                   | Some orbitItem => items ++ [orbitItem]
                   | None => items
                   end in
      buildOrbitLoop rest spinRpmBySprite items
  end.

Definition buildOrbitSystem (layers : list BuiltLayer) (spinRpmBySprite : gmap Pixi.ref R)
    : list OrbitItem :=
  buildOrbitLoop layers spinRpmBySprite [].

(** The loop [for (const item of items) recomputeOrbitItem(item, t)]. *)
Fixpoint recomputeAll (items : list OrbitItem) (elapsedTime : R) (h : Pixi.heap)
    : list OrbitItem * Pixi.heap :=
  match items with
  | [] => ([], h)
  | item :: rest =>
      let '(item', h') := recomputeOrbitItem item elapsedTime h in
      let '(rest', h'') := recomputeAll rest elapsedTime h' in
      (item' :: rest', h'')
  end.

(** The loop [for (const item of items) updateOrbitItem(item, t)]. *)
Fixpoint updateAll (items : list OrbitItem) (elapsedTime : R) (h : Pixi.heap) : Pixi.heap :=
  match items with
  | [] => h
  | item :: rest => updateAll rest elapsedTime (updateOrbitItem item elapsedTime h)
  end.

Record OrbitProcessor : Type := mkProcessor {
  items : list OrbitItem;
  elapsedTime : R
}.

Definition init (layers : list BuiltLayer) : OrbitProcessor :=
  let spinRpmBySprite : gmap Pixi.ref R := ∅ in
  {| items := buildOrbitSystem layers spinRpmBySprite; elapsedTime := 0 |}.

Definition onResize (p : OrbitProcessor) (h : Pixi.heap) : OrbitProcessor * Pixi.heap :=
  let '(items', h') := recomputeAll (items p) (elapsedTime p) h in
  ({| items := items'; elapsedTime := elapsedTime p |}, h').

Definition tick (deltaTime : R) (p : OrbitProcessor) (h : Pixi.heap)
    : OrbitProcessor * Pixi.heap :=
  match items p with
  | [] => (p, h)
  | _ =>
      let elapsed := elapsedTime p + deltaTime in
      ({| items := items p; elapsedTime := elapsed |}, updateAll (items p) elapsed h)
  end.

(** The frames delivered by the ticker, one [tick] per delta. *)
Fixpoint run (deltas : list R) (p : OrbitProcessor) (h : Pixi.heap)
    : OrbitProcessor * Pixi.heap :=
  match deltas with
  | [] => (p, h)
  | deltaTime :: rest =>
      let '(p', h') := tick deltaTime p h in
      run rest p' h'
  end.

Definition dispose (p : OrbitProcessor) : OrbitProcessor :=
  {| items := []; elapsedTime := 0 |}.

Definition getOrbitItem (p : OrbitProcessor) (layerId0 : string) : option (nat * OrbitItem) :=
  list_find (fun item => layerId item = layerId0) (items p).

Definition updateRPM (layerId0 : string) (rpm : num) (p : OrbitProcessor) : OrbitProcessor :=
  match getOrbitItem p layerId0 with
  | Some (k, item) =>
      let clampedRpm := clampRpm60 (UNum rpm) in
      let item' :=
        {| sprite := sprite item; layerId := layerId item; cfg := cfg item;
           direction := direction item;
           radPerSecond := (clampedRpm * PI) / 30;
           centerPercent := centerPercent item; centerPixels := centerPixels item;
           radius := radius item; basePhase := basePhase item;
           orientPolicy := orientPolicy item; orientRadians := orientRadians item;
           spinRpm := spinRpm item;
           active := bool_decide (clampedRpm > 0) |} in
      {| items := <[ k := item' ]> (items p); elapsedTime := elapsedTime p |}
  | None => p
  end.

Definition setDirection (layerId0 : string) (d : Direction) (p : OrbitProcessor) : OrbitProcessor :=
  match getOrbitItem p layerId0 with
  | Some (k, item) =>
      let item' :=
        {| sprite := sprite item; layerId := layerId item; cfg := cfg item;
           direction := sign_of d;
           radPerSecond := radPerSecond item;
           centerPercent := centerPercent item; centerPixels := centerPixels item;
           radius := radius item; basePhase := basePhase item;
           orientPolicy := orientPolicy item; orientRadians := orientRadians item;
           spinRpm := spinRpm item; active := active item |} in
      {| items := <[ k := item' ]> (items p); elapsedTime := elapsedTime p |}
  | None => p
  end.

Definition updateCenter (layerId0 : string) (center : Vec2) (p : OrbitProcessor) (h : Pixi.heap)
    : OrbitProcessor * Pixi.heap :=
  match getOrbitItem p layerId0 with
  | Some (k, item) =>
      let item1 :=
        {| sprite := sprite item; layerId := layerId item; cfg := cfg item;
           direction := direction item; radPerSecond := radPerSecond item;
           centerPercent := {| x := clamp (x center) 0 100; y := clamp (y center) 0 100 |};
           centerPixels := centerPixels item;
           radius := radius item; basePhase := basePhase item;
           orientPolicy := orientPolicy item; orientRadians := orientRadians item;
           spinRpm := spinRpm item; active := active item |} in
      let '(item2, h') := recomputeOrbitItem item1 (elapsedTime p) h in
      ({| items := <[ k := item2 ]> (items p); elapsedTime := elapsedTime p |}, h')
  | None => (p, h)
  end.

Definition getActiveItems (p : OrbitProcessor) : list OrbitItem :=
  filter (fun item => active item = true) (items p).

(** [OrbitUtils] *)
Definition calculatePeriod (rpm : R) : R :=
  if decide (rpm > 0) then 60 / rpm else 0.

Definition calculateSpeed (radius rpm : R) : R := radius * (rpm * PI) / 30.

Definition getOrbitPosition (centerX centerY radius angle : R) : Vec2 :=
  {| x := centerX + radius * Rtrigo_def.cos angle;
     y := centerY + radius * Rtrigo_def.sin angle |}.

Definition getAngleBetweenPoints (x1 y1 x2 y2 : R) : R := Ratan2 (y2 - y1) (x2 - x1).

Definition normalizeRadius (centerX centerY radius : R) : R :=
  let maxX := Rmax centerX (STAGE_WIDTH - centerX) in
  let maxY := Rmax centerY (STAGE_HEIGHT - centerY) in
  let maxRadius := hypot maxX maxY in
  Rmin radius maxRadius.

(** The constants [centerCoords], [spriteCoords] and [startPoint] of
    [createOrbitItem], as functions of the layer. *)
Definition centerCoords (layer : BuiltLayer) : Vec2 :=
  let orbitConfig := createOrbitConfig (layer_cfg layer) in
  percentToStageCoords (x (cfg_centerPercent orbitConfig)) (y (cfg_centerPercent orbitConfig))
    STAGE_WIDTH STAGE_HEIGHT.

Definition spriteCoords (layer : BuiltLayer) : Vec2 :=
  percentToStageCoords (position_xPct (layer_cfg layer)) (position_yPct (layer_cfg layer))
    STAGE_WIDTH STAGE_HEIGHT.

Definition startPoint (layer : BuiltLayer) : Vec2 :=
  projectToRectBorder (x (centerCoords layer)) (y (centerCoords layer))
    (x (spriteCoords layer)) (y (spriteCoords layer)) STAGE_WIDTH STAGE_HEIGHT.

End Orbit.

(** ** The border projection of the specification

    The reference algorithm of the specification, worded as a relation
    between the arguments and the projected point: the intersections of
    the ray from the center through the point with the four edges, those
    of positive parameter whose other coordinate is within the bounds of
    the edge (with a tolerance of 1), the one of smallest parameter, and
    the clamped point when there is none.

    [crosses d] says when the ray meets the pair of edges that the
    direction component [d] points at.  The specification computes every
    intersection ([d <> 0]); the second reading is that of the code, which
    skips a pair of edges unless [|d| > epsilon]. *)

Module BorderSpec.
Import Utils.

Section Projection.
Variable crosses : R -> Prop.
Variables centerX centerY pointX pointY width height : R.

Definition hit (t : R) (q : Vec2) : Prop :=
  let dx := pointX - centerX in
  let dy := pointY - centerY in
  (crosses dx /\ t = (0 - centerX) / dx /\
   q = {| x := 0; y := centerY + t * dy |} /\ -1 <= y q <= height + 1) \/
  (crosses dx /\ t = (width - centerX) / dx /\
   q = {| x := width; y := centerY + t * dy |} /\ -1 <= y q <= height + 1) \/
  (crosses dy /\ t = (0 - centerY) / dy /\
   q = {| x := centerX + t * dx; y := 0 |} /\ -1 <= x q <= width + 1) \/
  (crosses dy /\ t = (height - centerY) / dy /\
   q = {| x := centerX + t * dx; y := height |} /\ -1 <= x q <= width + 1).

(** An intersection ahead of the center. *)
Definition valid (t : R) (q : Vec2) : Prop := hit t q /\ t > 0.

(** The valid intersection nearest to the center along the ray. *)
Definition nearest (q : Vec2) : Prop :=
  exists t, valid t q /\ forall t' q', valid t' q' -> t <= t'.

Definition inside : Prop :=
  0 <= pointX <= width /\ 0 <= pointY <= height.

Definition clamped : Vec2 :=
  {| x := CoreMath.clamp pointX 0 width; y := CoreMath.clamp pointY 0 height |}.

(** [q] is the projection of the point. *)
Definition projection (q : Vec2) : Prop :=
  (inside -> q = {| x := pointX; y := pointY |}) /\
  (~ inside -> nearest q \/ ((forall t q', ~ valid t q') /\ q = clamped)).

End Projection.

(** The reading of the specification, and the one with the threshold. *)
Definition spec_crosses (d : R) : Prop := d <> 0.
Definition code_crosses (d : R) : Prop := Rabs d > Orbit.epsilon.

End BorderSpec.

(** ** Effect *)

Module Effect.

Inductive EffectSpec : Type :=
| Fade (from to durationMs : R) (loop : bool) (easing : Easing)
| Pulse (property : PulseProperty) (amp periodMs phaseDeg : R)
| Tilt (mode : TiltMode) (axis : TiltAxis) (maxDeg : R) (periodMs : option R)
| Glow (color alpha scale : R) (pulseMs : option R)
| Bloom (strength : R) (threshold : option R)
| Distort (ampPx speed : R)
| Shockwave (periodMs maxScale : R) (fade : bool).

Record BasicEffectItem : Type := mkBasicItem {
  spriteIdx : nat;
  specs : list EffectSpec;
  baseAlpha : R;
  baseScale : R;
  prevTiltRad : option R
}.

Record AuraSprite : Type := mkAura {
  aura_sprite : Pixi.ref;
  aura_baseScale : R;
  aura_strength : R;
  aura_pulseMs : option R;
  aura_color : option R;
  aura_alpha : num
}.

Record DistortSettings : Type := mkDistort {
  ampPx : R;
  speed : R;
  baseX : num;
  baseY : num
}.

Record ShockSettings : Type := mkShock {
  period : R;
  maxScale : R;
  shock_fade : bool;
  shock_baseScale : R
}.

Record AdvancedEffectItem : Type := mkAdvancedItem {
  adv_spriteIdx : nat;
  auras : list AuraSprite;
  distort : option DistortSettings;
  shock : option ShockSettings
}.

(** [typeof v === 'number' && v > 0 ? v : d] *)
Definition positive_or (v : option R) (d : R) : R :=
  match v with
  | Some r => if bool_decide (r > 0) then r else d
  | None => d
  end.

(** [EffectNormalizers] *)
Definition normalize (e : EffectConfig) : option EffectSpec :=
  match e with
  | CfgFade from to durationMs loop easing =>
      Some (Fade (default 1 from) (default 1 to) (positive_or durationMs 1000)
                 (match loop with Some false => false | _ => true end)
                 (match easing with Some sineInOut => sineInOut | _ => linear end))
  | CfgPulse property amp periodMs phaseDeg =>
      Some (Pulse (match property with Some alpha => alpha | _ => scale end)
                  (default (match property with Some alpha => 1 / 10 | _ => 5 / 100 end) amp)
                  (positive_or periodMs 1000)
                  (default 0 phaseDeg))
  | CfgTilt mode axis maxDeg periodMs =>
      Some (Tilt (match mode with Some device => device | Some time => time | _ => pointer end)
                 (match axis with Some axisX => axisX | Some axisY => axisY | _ => both end)
                 (default 8 maxDeg)
                 (Some (positive_or periodMs 4000)))
  | CfgGlow color a s pulseMs =>
      Some (Glow (default 16776960 color) (default (4 / 10) a) (default (15 / 100) s) pulseMs)
  | CfgBloom strength threshold =>
      Some (Bloom (default (6 / 10) strength) (Some (default (5 / 10) threshold)))
  | CfgDistort a s =>
      Some (Distort (default 2 a) (default (5 / 10) s))
  | CfgShockwave periodMs m fade =>
      Some (Shockwave (default 1200 periodMs) (default (13 / 10) m)
                      (match fade with Some false => false | _ => true end))
  | CfgOther => None
  end.

Definition parseEffects (cfg : LayerConfig) : list EffectSpec :=
  omap normalize (effects cfg).

Definition is_basic (e : EffectSpec) : bool :=
  match e with Fade _ _ _ _ _ | Pulse _ _ _ _ | Tilt _ _ _ _ => true | _ => false end.

Definition is_advanced (e : EffectSpec) : bool :=
  match e with Glow _ _ _ _ | Bloom _ _ | Distort _ _ | Shockwave _ _ _ => true | _ => false end.

(** [(layer.cfg.scale?.pct ?? 100) / 100] *)
Definition layer_baseScale (layer : BuiltLayer) : R :=
  default 100 (scalePct (layer_cfg layer)) / 100.

(** The [forEach] of [buildBasicEffects], from index [idx] on. *)
Fixpoint buildBasicLoop (idx : nat) (layers : list BuiltLayer) : list BasicEffectItem :=
  match layers with
  | [] => []
  | layer :: rest =>
      let basicEffects := List.filter is_basic (parseEffects (layer_cfg layer)) in
      match basicEffects with
      | [] => buildBasicLoop (S idx) rest
      | _ =>
          {| spriteIdx := idx; specs := basicEffects; baseAlpha := 1;
             baseScale := layer_baseScale layer; prevTiltRad := None |}
          :: buildBasicLoop (S idx) rest
      end
  end.

Definition buildBasicItems (layers : list BuiltLayer) : list BasicEffectItem :=
  buildBasicLoop 0 layers.

Definition easeLinear (t : R) : R := t.
Definition easeSineInOut (t : R) : R := 5 / 10 - 5 / 10 * Rtrigo_def.cos (PI * 2 * t).

(** The ping-pong shaping shared by the fade branch and
    [calculateFadeProgress]. *)
Definition pingpong (phase : R) : R :=
  if decide (phase > 5 / 10) then 1 - (phase - 5 / 10) * 2 else phase * 2.

(** The running values of one item of the basic tick. *)
Record Acc : Type := mkAcc { acc_alpha : R; acc_scaleMul : R; acc_tiltRad : R }.

(** One iteration of [for (const effect of item.specs)]. *)
Definition applyEffect (elapsed pointerX pointerY : R) (a : Acc) (effect : EffectSpec) : Acc :=
  match effect with
  | Fade from to durationMs loop easing =>
      let T := durationMs / 1000 in
      if decide (T <= 0) then a
      else
        let phase := fmod elapsed T / T in
        let phase := if loop then pingpong phase else phase in
        let t := match easing with
                 | sineInOut => easeSineInOut phase
                 | linear => easeLinear phase
                 end in
        {| acc_alpha := from + (to - from) * t;
           acc_scaleMul := acc_scaleMul a; acc_tiltRad := acc_tiltRad a |}
  | Pulse property amp periodMs phaseDeg =>
      let T := periodMs / 1000 in
      if decide (T <= 0) then a
      else
        let omega := (2 * PI) / T in
        let phase := phaseDeg * PI / 180 in
        let s := 1 + amp * Rtrigo_def.sin (omega * elapsed + phase) in
        match property with
        | scale =>
            {| acc_alpha := acc_alpha a;
               acc_scaleMul := acc_scaleMul a * s; acc_tiltRad := acc_tiltRad a |}
        | alpha =>
            {| acc_alpha := acc_alpha a * Rmax 0 (Rmin 1 s);
               acc_scaleMul := acc_scaleMul a; acc_tiltRad := acc_tiltRad a |}
        end
  | Tilt mode axis maxDeg periodMs =>
      let axisCount := match axis with both => 2 | _ => 1 end in
      match mode with
      | time =>
          let T := default 4000 periodMs / 1000 in
          if decide (T > 0) then
            let s := Rtrigo_def.sin ((2 * PI / T) * elapsed) in
            let deg := maxDeg * s in
            {| acc_alpha := acc_alpha a; acc_scaleMul := acc_scaleMul a;
               acc_tiltRad := acc_tiltRad a + (deg * PI) / 180 |}
          else a
      | _ =>
          let dx := (pointerX - 5 / 10) * 2 in
          let dy := (pointerY - 5 / 10) * 2 in
          let v := match axis with
                   | axisX => dy
                   | axisY => - dx
                   | both => (dy + - dx) / axisCount
                   end in
          let deg := Rmax (- maxDeg) (Rmin maxDeg (v * maxDeg)) in
          {| acc_alpha := acc_alpha a; acc_scaleMul := acc_scaleMul a;
             acc_tiltRad := acc_tiltRad a + (deg * PI) / 180 |}
      end
  | _ => a
  end.

(** The loop [for (const effect of item.specs)] from the initial
    [alpha], [scaleMul] and [tiltRad]. *)
Definition foldEffects (elapsed pointerX pointerY : R) (item : BasicEffectItem) : Acc :=
  foldl (applyEffect elapsed pointerX pointerY)
        {| acc_alpha := baseAlpha item; acc_scaleMul := 1; acc_tiltRad := 0 |}
        (specs item).

Definition set_prevTiltRad (item : BasicEffectItem) (v : R) : BasicEffectItem :=
  {| spriteIdx := spriteIdx item; specs := specs item; baseAlpha := baseAlpha item;
     baseScale := baseScale item; prevTiltRad := Some v |}.

(** The body of the basic tick for one item whose layer exists. *)
Definition basicTickItem (elapsed pointerX pointerY : R) (item : BasicEffectItem)
    (r : Pixi.ref) (h : Pixi.heap) : BasicEffectItem * Pixi.heap :=
  let a := foldEffects elapsed pointerX pointerY item in
  let h := Pixi.write r (Pixi.set_alpha (Fin (Rmax 0 (Rmin 1 (acc_alpha a))))) h in
  let finalScale := baseScale item * acc_scaleMul a in
  let h := Pixi.write r (Pixi.set_scale (Fin finalScale) (Fin finalScale)) h in
  let prevTilt := default 0 (prevTiltRad item) in
  if decide (acc_tiltRad a = prevTilt) then (item, h)
  else
    (set_prevTiltRad item (acc_tiltRad a),
     Pixi.write r (fun s => Pixi.set_rotation
                              (JS.add (Pixi.rotation s) (Fin (acc_tiltRad a - prevTilt))) s) h).

(** [for (const item of items)] of the basic tick; an item whose layer
    is missing is skipped. *)
Fixpoint basicTick (elapsed pointerX pointerY : R) (items : list BasicEffectItem)
    (layersRef : list BuiltLayer) (h : Pixi.heap) : list BasicEffectItem * Pixi.heap :=
  match items with
  | [] => ([], h)
  | item :: rest =>
      let '(item', h') :=
        match layersRef !! spriteIdx item with
        | Some layer => basicTickItem elapsed pointerX pointerY item (layer_sprite layer) h
        | None => (item, h)
        end in
      let '(rest', h'') := basicTick elapsed pointerX pointerY rest layersRef h' in
      (item' :: rest', h'')
  end.

(** The basic tick of one item over successive frames, each with its
    elapsed time and the pointer position at that time. *)
Fixpoint basicFrames (frames : list (R * R * R)) (item : BasicEffectItem)
    (r : Pixi.ref) (h : Pixi.heap) : BasicEffectItem * Pixi.heap :=
  match frames with
  | [] => (item, h)
  | (elapsed, pointerX, pointerY) :: rest =>
      let '(item', h') := basicTickItem elapsed pointerX pointerY item r h in
      basicFrames rest item' r h'
  end.

(** [new Sprite(layer.sprite.texture)] in this module.  The module
    imports [Sprite] by [import type { Application, Sprite }] only, and
    an import of a type is erased when the module is compiled: no
    [Sprite] is bound when the expression is evaluated, and it throws a
    [ReferenceError].  The result [None] is that exception; nothing in
    the module catches it. *)
Definition newSprite (st : Pixi.Stage) : option (Pixi.ref * Pixi.Stage) := None.

(** The creation of an aura: the new sprite, given its initial state and
    inserted in the owner's parent at the owner's index when the owner
    has a parent. *)
Definition addAura (owner : Pixi.ref) (init : Pixi.Sprite) (st : Pixi.Stage)
    : option (Pixi.ref * Pixi.Stage) :=
  match newSprite st with
  | None => None
  | Some (r, st) =>
      let sprites' := fun r' => if decide (r' = r) then init else Pixi.sprites st r' in
      let children' :=
        match list_find (fun c => c = owner) (Pixi.children st) with
        | Some (index, _) => take index (Pixi.children st) ++ r :: drop index (Pixi.children st)
        | None => Pixi.children st
        end in
      Some (r, {| Pixi.sprites := sprites'; Pixi.next := Pixi.next st;
                  Pixi.children := children' |})
  end.

(** [effect.type === 'glow'] or [effect.type === 'bloom']: the two
    branches that create an aura. *)
Definition creates_aura (e : EffectSpec) : bool :=
  match e with Glow _ _ _ _ | Bloom _ _ => true | _ => false end.

(** One iteration of [for (const effect of advancedEffects)]; [None]
    when it throws. *)
Definition addAdvanced (layer : BuiltLayer) (baseScale0 : R)
    (acc : AdvancedEffectItem * Pixi.Stage) (effect : EffectSpec)
    : option (AdvancedEffectItem * Pixi.Stage) :=
  let '(item, st) := acc in
  match effect with
  | Glow color a s pulseMs =>
      let auraInit :=
        Pixi.set_blendMode 1 (Pixi.set_alpha (Fin a) (Pixi.set_tint color Pixi.fresh)) in
      match addAura (layer_sprite layer) auraInit st with
      | None => None
      | Some (r, st') =>
          Some ({| adv_spriteIdx := adv_spriteIdx item;
                   auras := auras item ++ [ {| aura_sprite := r;
                                               aura_baseScale := baseScale0 * (1 + s);
                                               aura_strength := 1;
                                               aura_pulseMs := pulseMs;
                                               aura_color := Some color;
                                               aura_alpha := Fin a |} ];
                   distort := distort item; shock := shock item |}, st')
      end
  | Bloom strength _ =>
      let a := Rmin 1 (3 / 10 + strength * (4 / 10)) in
      let auraInit := Pixi.set_blendMode 1 (Pixi.set_alpha (Fin a) Pixi.fresh) in
      match addAura (layer_sprite layer) auraInit st with
      | None => None
      | Some (r, st') =>
          Some ({| adv_spriteIdx := adv_spriteIdx item;
                   auras := auras item ++ [ {| aura_sprite := r;
                                               aura_baseScale :=
                                                 baseScale0 * (1 + 2 / 10 + strength * (2 / 10));
                                               aura_strength := strength;
                                               aura_pulseMs := None;
                                               aura_color := None;
                                               aura_alpha := Pixi.alpha (Pixi.sprites st' r) |} ];
                   distort := distort item; shock := shock item |}, st')
      end
  | Distort a s =>
      Some ({| adv_spriteIdx := adv_spriteIdx item; auras := auras item;
               distort := Some {| ampPx := a; speed := s;
                                  baseX := Pixi.x (Pixi.sprites st (layer_sprite layer));
                                  baseY := Pixi.y (Pixi.sprites st (layer_sprite layer)) |};
               shock := shock item |}, st)
  | Shockwave periodMs m fade =>
      Some ({| adv_spriteIdx := adv_spriteIdx item; auras := auras item;
               distort := distort item;
               shock := Some {| period := periodMs; maxScale := m; shock_fade := fade;
                                shock_baseScale := baseScale0 |} |}, st)
  | _ => Some acc
  end.

(** The loop [for (const effect of advancedEffects)]: it ends at the
    first iteration that throws. *)
Fixpoint addAllAdvanced (layer : BuiltLayer) (baseScale0 : R)
    (acc : AdvancedEffectItem * Pixi.Stage) (advancedEffects : list EffectSpec)
    : option (AdvancedEffectItem * Pixi.Stage) :=
  match advancedEffects with
  | [] => Some acc
  | effect :: rest =>
      match addAdvanced layer baseScale0 acc effect with
      | None => None
      | Some acc' => addAllAdvanced layer baseScale0 acc' rest
      end
  end.

(** The [for] loop of [buildAdvancedEffects], from index [i] on; [None]
    when it throws. *)
Fixpoint buildAdvancedLoop (i : nat) (layers : list BuiltLayer) (st : Pixi.Stage)
    : option (list AdvancedEffectItem * Pixi.Stage) :=
  match layers with
  | [] => Some ([], st)
  | layer :: rest =>
      let advancedEffects := List.filter is_advanced (parseEffects (layer_cfg layer)) in
      match advancedEffects with
      | [] => buildAdvancedLoop (S i) rest st
      | _ =>
          let item0 := {| adv_spriteIdx := i; auras := []; distort := None; shock := None |} in
          match addAllAdvanced layer (layer_baseScale layer) (item0, st) advancedEffects with
          | None => None
          | Some (item, st') =>
              match buildAdvancedLoop (S i) rest st' with
              | None => None
              | Some (items, st'') =>
                  match auras item, distort item, shock item with
                  | [], None, None => Some (items, st'')
                  | _, _, _ => Some (item :: items, st'')
                  end
              end
          end
      end
  end.

(** [buildAdvancedEffects]; [canUseAdvancedEffects] is the result of the
    host's capability probe. *)
Definition buildAdvancedItems (canUseAdvancedEffects : bool) (layers : list BuiltLayer)
    (st : Pixi.Stage) : option (list AdvancedEffectItem * Pixi.Stage) :=
  if negb canUseAdvancedEffects then Some ([], st)
  else buildAdvancedLoop 0 layers st.

(** [for (const aura of item.auras)] of the advanced tick. *)
Fixpoint updateAuras (elapsed : R) (owner : Pixi.ref) (l : list AuraSprite) (h : Pixi.heap)
    : Pixi.heap :=
  match l with
  | [] => h
  | aura :: rest =>
      let h := Pixi.write (aura_sprite aura) (Pixi.set_x (Pixi.x (h owner))) h in
      let h := Pixi.write (aura_sprite aura) (Pixi.set_y (Pixi.y (h owner))) h in
      let h := Pixi.write (aura_sprite aura) (Pixi.set_rotation (Pixi.rotation (h owner))) h in
      let s :=
        match aura_pulseMs aura with
        | Some pulseMs =>
            if decide (pulseMs = 0) then aura_baseScale aura
            else
              let T := pulseMs / 1000 in
              if decide (T > 0)
              then aura_baseScale aura * (1 + 5 / 100 * Rtrigo_def.sin ((2 * PI / T) * elapsed))
              else aura_baseScale aura
        | None => aura_baseScale aura
        end in
      updateAuras elapsed owner rest
        (Pixi.write (aura_sprite aura) (Pixi.set_scale (Fin s) (Fin s)) h)
  end.

(** The alpha of the shockwave branch. *)
Definition shockAlpha (elapsed T : R) : R :=
  let phase := fmod elapsed T / T in
  8 / 10 + 2 / 10 * Rtrigo_def.cos (PI * phase).

(** The body of the advanced tick for one item whose layer exists. *)
Definition advancedTickItem (elapsed : R) (item : AdvancedEffectItem) (r : Pixi.ref)
    (h : Pixi.heap) : Pixi.heap :=
  let h := updateAuras elapsed r (auras item) h in
  let h :=
    match distort item with
    | Some d =>
        let t := elapsed * speed d * 2 * PI in
        let h := Pixi.write r (fun s => Pixi.set_x
                   (JS.add (Pixi.x s) (Fin (ampPx d * Rtrigo_def.sin t))) s) h in
        Pixi.write r (fun s => Pixi.set_y
                   (JS.add (Pixi.y s) (Fin (ampPx d * Rtrigo_def.cos (t * (9 / 10))))) s) h
    | None => h
    end in
  match shock item with
  | Some sh =>
      let T := period sh / 1000 in
      if decide (T > 0) then
        let phase := fmod elapsed T / T in
        let mul := 1 + (maxScale sh - 1) * Rtrigo_def.sin (PI * phase) in
        let s := shock_baseScale sh * mul in
        let h := Pixi.write r (Pixi.set_scale (Fin s) (Fin s)) h in
        if shock_fade sh
        then Pixi.write r (Pixi.set_alpha (Fin (shockAlpha elapsed T))) h
        else h
      else h
  | None => h
  end.

Fixpoint advancedTick (elapsed : R) (items : list AdvancedEffectItem)
    (layersRef : list BuiltLayer) (h : Pixi.heap) : Pixi.heap :=
  match items with
  | [] => h
  | item :: rest =>
      let h' := match layersRef !! adv_spriteIdx item with
                | Some layer => advancedTickItem elapsed item (layer_sprite layer) h
                | None => h
                end in
      advancedTick elapsed rest layersRef h'
  end.

(** The processor: its items and its clock.  The pointer position is
    the state of the closure built by [buildBasicEffects], updated by the
    host's pointer events. *)
Record EffectProcessor : Type := mkProcessor {
  basicItems : list BasicEffectItem;
  advancedItems : list AdvancedEffectItem;
  elapsedTime : R
}.

(** [init]; [None] when [buildEffectSystem] throws, which is before any
    field of the processor is assigned. *)
Definition init (canUseAdvancedEffects : bool) (layers : list BuiltLayer) (st : Pixi.Stage)
    : option (EffectProcessor * Pixi.Stage) :=
  let basic := buildBasicItems layers in
  match buildAdvancedItems canUseAdvancedEffects layers st with
  | None => None
  | Some (advanced, st') =>
      Some ({| basicItems := basic; advancedItems := advanced; elapsedTime := 0 |}, st')
  end.

Definition tick (deltaTime pointerX pointerY : R) (layersRef : list BuiltLayer)
    (p : EffectProcessor) (h : Pixi.heap) : EffectProcessor * Pixi.heap :=
  match basicItems p, advancedItems p with
  | [], [] => (p, h)
  | _, _ =>
      let elapsed := elapsedTime p + deltaTime in
      let '(basic', h1) := basicTick elapsed pointerX pointerY (basicItems p) layersRef h in
      let h2 := advancedTick elapsed (advancedItems p) layersRef h1 in
      ({| basicItems := basic'; advancedItems := advancedItems p; elapsedTime := elapsed |}, h2)
  end.

(** [EffectUtils] *)
Definition calculatePulseIntensity (elapsed periodMs phaseDeg : R) : R :=
  let T := periodMs / 1000 in
  if decide (T <= 0) then 1
  else
    let omega := (2 * PI) / T in
    let phase := (phaseDeg * PI) / 180 in
    Rtrigo_def.sin (omega * elapsed + phase).

Definition calculateFadeProgress (elapsed durationMs : R) (loop : bool) : R :=
  let T := durationMs / 1000 in
  if decide (T <= 0) then 1
  else
    let phase := fmod elapsed T / T in
    if loop then pingpong phase else phase.

Definition applyEasing (t : R) (easing : Easing) : R :=
  match easing with
  | sineInOut => 5 / 10 - 5 / 10 * Rtrigo_def.cos (PI * 2 * t)
  | linear => t
  end.

End Effect.

(** ** CORE/utils: the order of the layers *)

Module LayerUtils.
Import Utils.

(** The comparator of [sortLayersByZIndex]; [localeCompare] is the
    comparison of the host. *)
Definition compareLayers (localeCompare : string -> string -> Z) (a b : LayerConfig) : Z :=
  let za := Z.of_N (extractZIndex (id a)) in
  let zb := Z.of_N (extractZIndex (id b)) in
  if decide (za <> zb) then (za - zb)%Z else localeCompare (id a) (id b).

(** [[...layers].sort(compare)].  The sort of the host is stable, and
    for a comparator that is a consistent order its result is the one
    of the insertion sort that puts each layer before the first layer it
    does not come after. *)
Fixpoint insertLayer (compare : LayerConfig -> LayerConfig -> Z) (a : LayerConfig)
    (sorted : list LayerConfig) : list LayerConfig :=
  match sorted with
  | [] => [a]
  | b :: rest =>
      if decide (compare a b <= 0)%Z then a :: b :: rest
      else b :: insertLayer compare a rest
  end.

Definition sortLayersByZIndex (localeCompare : string -> string -> Z)
    (layers : list LayerConfig) : list LayerConfig :=
  foldr (insertLayer (compareLayers localeCompare)) [] layers.

End LayerUtils.

(** ** Basic *)

Module Basic.
Import CoreMath Utils.

Record BasicTransform : Type := mkTransform {
  x : R;
  y : R;
  scaleX : R;
  scaleY : R;
  rotation : R;
  zIndex : R
}.

(** The sprites together with their [zIndex] property. *)
Record Scene : Type := mkScene {
  sprites : Pixi.heap;
  zIndexOf : Pixi.ref -> R
}.

Definition calculateZIndex (cfg : LayerConfig) : R :=
  IZR (Z.of_N (extractZIndex (id cfg))).

Definition set_zIndex (r : Pixi.ref) (z : R) (zs : Pixi.ref -> R) : Pixi.ref -> R :=
  fun r' => if decide (r' = r) then z else zs r'.

(** [applyBasicTransform]; [cfg.position.xPct] throws a [TypeError] for
    a layer without a position, which is the result [None]. *)
Definition applyBasicTransform (sprite : Pixi.ref) (cfg : LayerConfig) (sc : Scene)
    : option Scene :=
  match position cfg with
  | None => None
  | Some position =>
      let xPct := default 0 (xPct position) in
      let yPct := default 0 (yPct position) in
      let coords := percentToStageCoords xPct yPct STAGE_WIDTH STAGE_HEIGHT in
      let h := Pixi.write sprite (Pixi.set_x (Fin (Utils.x coords))) (sprites sc) in
      let h := Pixi.write sprite (Pixi.set_y (Fin (Utils.y coords))) h in
      let scalePct := default 100 (scalePct cfg) / 100 in
      let h := Pixi.write sprite (Pixi.set_scale (Fin scalePct) (Fin scalePct)) h in
      let h := Pixi.write sprite (Pixi.set_rotation (Fin (toRad (default 0 (angleDeg cfg))))) h in
      Some {| sprites := h; zIndexOf := set_zIndex sprite (calculateZIndex cfg) (zIndexOf sc) |}
  end.

Definition getBasicTransform (cfg : LayerConfig) : option BasicTransform :=
  match position cfg with
  | None => None
  | Some position =>
      let xPct := default 0 (xPct position) in
      let yPct := default 0 (yPct position) in
      let coords := percentToStageCoords xPct yPct STAGE_WIDTH STAGE_HEIGHT in
      let scalePct := default 100 (scalePct cfg) / 100 in
      Some {| x := Utils.x coords;
              y := Utils.y coords;
              scaleX := scalePct;
              scaleY := scalePct;
              rotation := toRad (default 0 (angleDeg cfg));
              zIndex := calculateZIndex cfg |}
  end.

Definition applyTransformToSprite (sprite : Pixi.ref) (transform : BasicTransform)
    (sc : Scene) : Scene :=
  let h := Pixi.write sprite (Pixi.set_x (Fin (x transform))) (sprites sc) in
  let h := Pixi.write sprite (Pixi.set_y (Fin (y transform))) h in
  let h := Pixi.write sprite (Pixi.set_scale (Fin (scaleX transform)) (Fin (scaleY transform))) h in
  let h := Pixi.write sprite (Pixi.set_rotation (Fin (rotation transform))) h in
  {| sprites := h; zIndexOf := set_zIndex sprite (zIndex transform) (zIndexOf sc) |}.

(** The processor: the map [transforms]. *)
Definition BasicProcessor : Type := gmap string BasicTransform.

(** The loop of [init] and of [onResize]; [None] when a layer throws. *)
Fixpoint applyAll (layers : list BuiltLayer) (transforms : BasicProcessor) (sc : Scene)
    : option (BasicProcessor * Scene) :=
  match layers with
  | [] => Some (transforms, sc)
  | layer :: rest =>
      match getBasicTransform (layer_cfg layer) with
      | None => None
      | Some transform =>
          applyAll rest (<[ layer_id layer := transform ]> transforms)
            (applyTransformToSprite (layer_sprite layer) transform sc)
      end
  end.

Definition init (layers : list BuiltLayer) (p : BasicProcessor) (sc : Scene)
    : option (BasicProcessor * Scene) :=
  applyAll layers p sc.

Definition onResize (layers : list BuiltLayer) (p : BasicProcessor) (sc : Scene)
    : option (BasicProcessor * Scene) :=
  applyAll layers p sc.

Definition dispose (p : BasicProcessor) : BasicProcessor := ∅.

Definition getTransform (p : BasicProcessor) (layerId : string) : option BasicTransform :=
  p !! layerId.

(** [updateTransform(layerId, transform)] for the fields given in
    [transform]: [{ ...current, ...transform }]. *)
Record PartialTransform : Type := mkPartial {
  px : option R;
  py : option R;
  pscaleX : option R;
  pscaleY : option R;
  protation : option R;
  pzIndex : option R
}.

Definition spread (current : BasicTransform) (transform : PartialTransform) : BasicTransform :=
  {| x := default (x current) (px transform);
     y := default (y current) (py transform);
     scaleX := default (scaleX current) (pscaleX transform);
     scaleY := default (scaleY current) (pscaleY transform);
     rotation := default (rotation current) (protation transform);
     zIndex := default (zIndex current) (pzIndex transform) |}.

Definition updateTransform (layerId : string) (transform : PartialTransform)
    (p : BasicProcessor) : BasicProcessor :=
  match p !! layerId with
  | Some current => <[ layerId := spread current transform ]> p
  | None => p
  end.

(** [Math.round] *)
Definition round (r : R) : R := IZR (Int_part (r + 1 / 2)).

(** [BasicUtils] *)
Definition lerpTransforms (from to : BasicTransform) (t : R) : BasicTransform :=
  let clampedT := clamp t 0 1 in
  {| x := x from + (x to - x from) * clampedT;
     y := y from + (y to - y from) * clampedT;
     scaleX := scaleX from + (scaleX to - scaleX from) * clampedT;
     scaleY := scaleY from + (scaleY to - scaleY from) * clampedT;
     rotation := rotation from + (rotation to - rotation from) * clampedT;
     zIndex := round (zIndex from + (zIndex to - zIndex from) * clampedT) |}.

Definition createIdentityTransform : BasicTransform :=
  {| x := 0; y := 0; scaleX := 1; scaleY := 1; rotation := 0; zIndex := 0 |}.

Definition transformsEqual (a b : BasicTransform) (epsilon : R) : bool :=
  bool_decide (Rabs (x a - x b) < epsilon)
  && bool_decide (Rabs (y a - y b) < epsilon)
  && bool_decide (Rabs (scaleX a - scaleX b) < epsilon)
  && bool_decide (Rabs (scaleY a - scaleY b) < epsilon)
  && bool_decide (Rabs (rotation a - rotation b) < epsilon)
  && bool_decide (zIndex a = zIndex b).

End Basic.

(** ** The engine *)

Module Engine.

(** [n > 0] on a number. *)
Definition positive (n : num) : bool :=
  match n with
  | Fin r => bool_decide (r > 0)
  | PInf => true
  | _ => false
  end.

(** [v > 0] on a value of any type: the comparison converts [v] as
    [Number(v)] does, and [null] and [undefined] to 0 and NaN. *)
Definition gt0 (v : unknown) : bool :=
  match v with
  | UNum n => positive n
  | UNullish => false
  | UOther n => positive n
  end.

Definition hasAnimatedLayers (layers : list BuiltLayer) : bool :=
  existsb (fun layer =>
             gt0 (spinRPM (layer_cfg layer))
             || gt0 (orbitRPM (layer_cfg layer))
             || bool_decide (0 < length (effects (layer_cfg layer)))%nat) layers.

End Engine.

(** ** CORE/ticker *)

Module Ticker.

(** A callback, by its identity: [callbacks] is a [Set], which keeps
    each function once, in the order of insertion. *)
Definition TickerCallback : Type := nat.

(** The variables of the closure of [createTicker].  [rafId] tells
    whether a frame is requested: the identifiers of the host are not 0,
    and [stop] stores 0. *)
Record State : Type := mkState {
  callbacks : list TickerCallback;
  isRunning : bool;
  rafId : bool;
  lastTime : R
}.

Definition createTicker : State :=
  {| callbacks := []; isRunning := false; rafId := false; lastTime := 0 |}.

Definition add (callback : TickerCallback) (s : State) : State :=
  {| callbacks := if decide (callback ∈ callbacks s) then callbacks s
                  else callbacks s ++ [callback];
     isRunning := isRunning s; rafId := rafId s; lastTime := lastTime s |}.

Definition remove (callback : TickerCallback) (s : State) : State :=
  {| callbacks := filter (fun c => c <> callback) (callbacks s);
     isRunning := isRunning s; rafId := rafId s; lastTime := lastTime s |}.

Definition start (s : State) : State :=
  if isRunning s then s
  else {| callbacks := callbacks s; isRunning := true; rafId := true; lastTime := 0 |}.

Definition stop (s : State) : State :=
  if negb (isRunning s) then s
  else {| callbacks := callbacks s; isRunning := false; rafId := false;
          lastTime := lastTime s |}.

Definition dispose (s : State) : State :=
  let s := stop s in
  {| callbacks := []; isRunning := isRunning s; rafId := rafId s; lastTime := lastTime s |}.

(** [tick(currentTime)]: the next frame is requested, and every callback
    is called with the delta; the result lists the calls in order. *)
Definition tick (currentTime : R) (s : State) : State * list (TickerCallback * R) :=
  let deltaTime := if decide (lastTime s = 0) then 0 else (currentTime - lastTime s) / 1000 in
  ({| callbacks := callbacks s; isRunning := isRunning s; rafId := true;
      lastTime := currentTime |},
   (fun callback => (callback, deltaTime)) <$> callbacks s).

(** A frame of the host at the time [currentTime]: the requested
    function runs, if one is requested. *)
Definition frame (currentTime : R) (s : State) : State * list (TickerCallback * R) :=
  if rafId s then tick currentTime s else (s, []).

Fixpoint frames (times : list R) (s : State) : State * list (TickerCallback * R) :=
  match times with
  | [] => (s, [])
  | currentTime :: rest =>
      let '(s', calls) := frame currentTime s in
      let '(s'', calls') := frames rest s' in
      (s'', calls ++ calls')
  end.

(** The deltas that a list of calls hands to one callback. *)
Definition deltasOf (callback : TickerCallback) (calls : list (TickerCallback * R)) : list R :=
  omap (fun call => if decide (call.1 = callback) then Some call.2 else None) calls.

End Ticker.

(** ** Sample scenes *)

Module Samples.

(** A layer placed at (70%, 50%) that spins at 30 RPM and orbits the
    middle of the stage at 10 RPM. *)
Definition planet_cfg : LayerConfig :=
  {| id := "planet1";
     position := Some {| xPct := Some 70; yPct := Some 50 |};
     scalePct := None; angleDeg := None;
     spinRPM := UNum (Fin 30); spinDir := Some cw;
     orbitRPM := UNum (Fin 10); orbitDir := None;
     orbitCenter := None; orbitPhaseDeg := None;
     orbitOrientPolicy := Some auto; orbitOrientDeg := None;
     effects := [] |}.

Definition planet : BuiltLayer :=
  {| layer_id := "planet1"; layer_sprite := 0%nat; layer_cfg := planet_cfg |}.

(** Every sprite as [new Sprite(texture)] leaves it. *)
Definition blank : Pixi.heap := fun _ => Pixi.fresh.

(** An orbit item with the [override] policy that [updateRPM(id, 0)] has
    switched off. *)
Definition stopped_item : Orbit.OrbitItem :=
  {| Orbit.sprite := 0%nat; Orbit.layerId := "planet1"; Orbit.cfg := planet_cfg;
     Orbit.direction := Plus; Orbit.radPerSecond := 0;
     Orbit.centerPercent := {| Utils.x := 50; Utils.y := 50 |};
     Orbit.centerPixels := Orbit.object_of {| Utils.x := 512; Utils.y := 512 |};
     Orbit.radius := 100; Orbit.basePhase := Fin 1;
     Orbit.orientPolicy := override; Orbit.orientRadians := 0;
     Orbit.spinRpm := 0; Orbit.active := false |}.

(** The same item while it runs at 10 RPM. *)
Definition running_item : Orbit.OrbitItem :=
  {| Orbit.sprite := 0%nat; Orbit.layerId := "planet1"; Orbit.cfg := planet_cfg;
     Orbit.direction := Plus; Orbit.radPerSecond := (10 * PI) / 30;
     Orbit.centerPercent := {| Utils.x := 50; Utils.y := 50 |};
     Orbit.centerPixels := Orbit.object_of {| Utils.x := 512; Utils.y := 512 |};
     Orbit.radius := 100; Orbit.basePhase := Fin 1;
     Orbit.orientPolicy := override; Orbit.orientRadians := 0;
     Orbit.spinRpm := 0; Orbit.active := true |}.

(** A layer with a glow of alpha 2, and one with a bloom of strength -10. *)
Definition halo_cfg : LayerConfig :=
  {| id := "halo1";
     position := Some {| xPct := Some 50; yPct := Some 50 |};
     scalePct := None; angleDeg := None;
     spinRPM := UNullish; spinDir := None;
     orbitRPM := UNullish; orbitDir := None;
     orbitCenter := None; orbitPhaseDeg := None;
     orbitOrientPolicy := None; orbitOrientDeg := None;
     effects := [CfgGlow None (Some 2) None None] |}.


Definition dim_cfg : LayerConfig :=
  {| id := "dim1";
     position := Some {| xPct := Some 50; yPct := Some 50 |};
     scalePct := None; angleDeg := None;
     spinRPM := UNullish; spinDir := None;
     orbitRPM := UNullish; orbitDir := None;
     orbitCenter := None; orbitPhaseDeg := None;
     orbitOrientPolicy := None; orbitOrientDeg := None;
     effects := [CfgBloom (Some (-10)) None] |}.

Definition dim : BuiltLayer :=
  {| layer_id := "dim1"; layer_sprite := 0%nat; layer_cfg := dim_cfg |}.

(** A container whose only child is the sprite at address 0. *)
Definition stage : Pixi.Stage :=
  {| Pixi.sprites := blank; Pixi.next := 1%nat; Pixi.children := [0%nat] |}.

End Samples.

(** * Properties *)

(** ** Numbers and the heap *)

Section Basics.

Lemma write_eq r f (h : Pixi.heap) : Pixi.write r f h r = f (h r).
Proof. unfold Pixi.write. by rewrite decide_True. Qed.

Lemma write_ne r r' f (h : Pixi.heap) : r' <> r -> Pixi.write r f h r' = h r'.
Proof. intros Hne. unfold Pixi.write. by rewrite decide_False. Qed.

Lemma bool_decide_Rle_true a b : a <= b -> bool_decide (a <= b) = true.
Proof. intros. by apply bool_decide_eq_true. Qed.

Lemma add_NaN_r a : JS.add a NaN = NaN.
Proof. by destruct a. Qed.

Lemma add_NaN_l b : JS.add NaN b = NaN.
Proof. by destruct b. Qed.

Lemma sub_NaN_r a : JS.sub a NaN = NaN.
Proof. by destruct a. Qed.

Lemma sub_NaN_l b : JS.sub NaN b = NaN.
Proof. by destruct b. Qed.

Lemma mul_NaN_r a : JS.mul a NaN = NaN.
Proof. by destruct a. Qed.

Lemma atan2_NaN_l x : JS.atan2 NaN x = NaN.
Proof. by destruct x. Qed.

Lemma atan2_NaN_r y : JS.atan2 y NaN = NaN.
Proof. by destruct y. Qed.

Lemma clamp_inside n lo hi : lo <= n -> n <= hi -> CoreMath.clamp n lo hi = n.
Proof.
  intros Hlo Hhi. unfold CoreMath.clamp, Rmax, Rmin.
  repeat destruct (Rle_dec _ _); lra.
Qed.

Lemma clamp_range n lo hi : lo <= hi -> lo <= CoreMath.clamp n lo hi <= hi.
Proof.
  intros Hle. unfold CoreMath.clamp, Rmax, Rmin.
  repeat destruct (Rle_dec _ _); lra.
Qed.

Lemma hypot_nonneg a b : 0 <= hypot a b.
Proof. unfold hypot. apply sqrt_pos. Qed.

Lemma hypot_pos a b : a <> 0 \/ b <> 0 -> hypot a b > 0.
Proof.
  intros Hab. unfold hypot. apply sqrt_lt_R0.
  destruct Hab as [Ha|Hb].
  - pose proof (Rsqr_pos_lt a Ha) as H. unfold Rsqr in H. nra.
  - pose proof (Rsqr_pos_lt b Hb) as H. unfold Rsqr in H. nra.
Qed.

Lemma hypot_vertical b : hypot 0 b = Rabs b.
Proof.
  unfold hypot. replace (0 * 0 + b * b) with (Rsqr b) by (unfold Rsqr; ring).
  apply sqrt_Rsqr_abs.
Qed.

End Basics.

(** ** The model on small inputs *)

Section SmallInputs.

Example clampRpm60_null : CoreMath.clampRpm60 UNullish = 0.
Proof. unfold CoreMath.clampRpm60. simpl. by rewrite bool_decide_eq_true_2 by lra. Qed.

Example clampRpm60_infinity : CoreMath.clampRpm60 (UNum PInf) = 0.
Proof. reflexivity. Qed.

Example clampRpm60_text : CoreMath.clampRpm60 (UOther NaN) = 0.
Proof. reflexivity. Qed.

Example normalize_pulse_default :
  Effect.normalize (CfgPulse (Some alpha) None None None)
  = Some (Effect.Pulse alpha (1 / 10) 1000 0).
Proof. reflexivity. Qed.

Example normalize_fade_unlooped :
  Effect.normalize (CfgFade None None None (Some false) None)
  = Some (Effect.Fade 1 1 1000 false linear).
Proof. reflexivity. Qed.

(** Candidates of equal parameter keep the order they were pushed in. *)
Example sort_by_t_stable :
  Orbit.sort_by_t [Orbit.mkCandidate 1 0 0; Orbit.mkCandidate 1 5 5; Orbit.mkCandidate 0 7 7]
  = [Orbit.mkCandidate 0 7 7; Orbit.mkCandidate 1 0 0; Orbit.mkCandidate 1 5 5].
Proof.
  simpl.
  repeat (first [ rewrite decide_True by (simpl; lra)
                | rewrite decide_False by (simpl; lra) ]; simpl).
  reflexivity.
Qed.

Example spin_direction_default :
  SpinL.cfg_direction (SpinL.createSpinConfig Samples.halo_cfg) = cw.
Proof. reflexivity. Qed.

End SmallInputs.

(** ** CORE/math *)

Section CoreMathFacts.
Import CoreMath.

Lemma clampRpm60_finite r :
  0 < r -> clampRpm60 (UNum (Fin r)) = Rmin 60 (Rmax 0 r).
Proof.
  intros Hr. unfold clampRpm60; simpl.
  rewrite bool_decide_eq_false_2; [done | lra].
Qed.

Lemma clampRpm60_range v : 0 <= clampRpm60 v <= 60.
Proof.
  unfold clampRpm60.
  destruct (numberOf v) as [r| | |]; simpl; try lra.
  case_bool_decide; [lra|].
  unfold Rmin, Rmax. repeat destruct (Rle_dec _ _); lra.
Qed.

Lemma clampRpm60Any_converts v : clampRpm60Any (Converts v) = Some (clampRpm60 v).
Proof. by destruct v. Qed.

(** C7, as stated, fails for a value of a type that [Number] rejects:
    for a Symbol, [clampRpm60] throws and returns no number of
    [[0, 60]]. *)
Lemma clampRpm60_throws_for_symbol :
  ~ exists r, clampRpm60Any Throws = Some r /\ 0 <= r <= 60.
Proof. intros (r & Hr & _). discriminate Hr. Qed.

(** C7, amended.  [clampRpm60] returns for every value that converts to
    a number, and for no other.  What it returns lies in [[0, 60]]; it
    is [0] when the number the value converts to is not finite or is at
    most [0]; on the numbers of [[0, 60]] it is the identity, hence
    monotonic. *)
Theorem clampRpm60_spec :
  (forall v, clampRpm60Any v = None <-> v = Throws) /\
  (forall v, clampRpm60Any (Converts v) = Some (clampRpm60 v)) /\
  (forall v r, clampRpm60Any v = Some r -> 0 <= r <= 60) /\
  (forall v, 0 <= clampRpm60 v <= 60) /\
  (forall v, isFinite (numberOf v) = false \/ le0 (numberOf v) = true -> clampRpm60 v = 0) /\
  (forall a, 0 <= a <= 60 -> clampRpm60 (UNum (Fin a)) = a) /\
  (forall a b, 0 <= a -> a <= b -> b <= 60 ->
               clampRpm60 (UNum (Fin a)) <= clampRpm60 (UNum (Fin b))).
Proof.
  assert (Hid : forall a, 0 <= a <= 60 -> clampRpm60 (UNum (Fin a)) = a).
  { intros a [H0 H60]. unfold clampRpm60; simpl.
    case_bool_decide; [lra|].
    unfold Rmin, Rmax. repeat destruct (Rle_dec _ _); lra. }
  split.
  { intros [v|]; [|done]. rewrite clampRpm60Any_converts. by split. }
  split; [exact clampRpm60Any_converts|].
  split.
  { intros [v|] r; [|done]. rewrite clampRpm60Any_converts.
    intros [= <-]. apply clampRpm60_range. }
  split; [exact clampRpm60_range|].
  split.
  - intros v [Hf | Hle]; unfold clampRpm60.
    + by rewrite Hf.
    + rewrite Hle. by rewrite orb_true_r.
  - split; [exact Hid|].
    intros a b Ha Hab Hb. rewrite !Hid; lra.
Qed.

(** 45 RPM and 50 RPM. *)
Lemma clampRpm60_spec_witness :
  clampRpm60 (UNum (Fin 45)) <= clampRpm60 (UNum (Fin 50)).
Proof.
  destruct clampRpm60_spec as (_ & _ & _ & _ & _ & _ & Hmono).
  apply Hmono; lra.
Defined.

End CoreMathFacts.

(** ** SpinL *)

Section SpinFacts.
Import CoreMath SpinL.

Lemma updateSpinItem_inactive item t h :
  active item = false -> updateSpinItem item t h = h.
Proof. intros Ha. unfold updateSpinItem. by rewrite Ha. Qed.

Lemma updateSpinItem_active item t h :
  active item = true ->
  updateSpinItem item t h (sprite item)
  = Pixi.set_rotation (totalRotation item t) (h (sprite item)).
Proof. intros Ha. unfold updateSpinItem. rewrite Ha. simpl. apply write_eq. Qed.

Lemma updateSpinItem_other item t h r :
  r <> sprite item -> updateSpinItem item t h r = h r.
Proof.
  intros Hne. unfold updateSpinItem.
  destruct (active item); simpl; [by apply write_ne | done].
Qed.

(** A sprite that no active item refers to is left as it is. *)
Lemma tickSpinSystem_untouched l t h r :
  (forall other, other ∈ l -> active other = true -> sprite other <> r) ->
  tickSpinSystem l t h r = h r.
Proof.
  revert h. induction l as [|item l IH]; intros h Hl; [done|].
  simpl. rewrite IH.
  - destruct (active item) eqn:Ha.
    + apply updateSpinItem_other. intros ->. by eapply Hl; [left|..].
    + by rewrite updateSpinItem_inactive.
  - intros other Hin. apply Hl. by right.
Qed.

(** The sprite of the only active item that refers to it. *)
Lemma tickSpinSystem_at l1 item l2 t h :
  active item = true ->
  (forall other, other ∈ l1 ++ l2 -> active other = true -> sprite other <> sprite item) ->
  tickSpinSystem (l1 ++ item :: l2) t h (sprite item)
  = Pixi.set_rotation (totalRotation item t) (h (sprite item)).
Proof.
  intros Ha. revert h. induction l1 as [|first l1 IH]; intros h Hothers; simpl.
  - rewrite tickSpinSystem_untouched; [by apply updateSpinItem_active|].
    intros other Hin. by apply Hothers.
  - rewrite IH.
    + f_equal. destruct (active first) eqn:Hf.
      * apply updateSpinItem_other. intros Heq.
        eapply (Hothers first); [by left | done | done].
      * by rewrite updateSpinItem_inactive.
    + intros other Hin. apply Hothers. by right.
Qed.

Lemma tick_items d p h : items (tick d p h).1 = items p.
Proof. unfold tick. by destruct (items p) eqn:E. Qed.

Lemma tick_elapsed d p h :
  items p <> [] -> elapsedTime (tick d p h).1 = elapsedTime p + d.
Proof. unfold tick. by destruct (items p). Qed.

Lemma tick_heap d p h :
  items p <> [] -> (tick d p h).2 = tickSpinSystem (items p) (elapsedTime p + d) h.
Proof. unfold tick. by destruct (items p). Qed.

Lemma run_cons d ds p h :
  run (d :: ds) p h = run ds (tick d p h).1 (tick d p h).2.
Proof. simpl. by destruct (tick d p h). Qed.

Lemma run_items ds p h : items (run ds p h).1 = items p.
Proof.
  revert p h. induction ds as [|d ds IH]; intros p h; [done|].
  rewrite run_cons, IH. apply tick_items.
Qed.

Lemma run_elapsed ds p h :
  items p <> [] -> elapsedTime (run ds p h).1 = elapsedTime p + total ds.
Proof.
  revert p h. induction ds as [|d ds IH]; intros p h Hne; simpl total.
  - simpl. lra.
  - rewrite run_cons, IH; [|by rewrite tick_items].
    rewrite tick_elapsed by done. lra.
Qed.

(** After at least one frame, the rotation of the sprite of an active item
    is the formula at the processor's elapsed time. *)
Lemma run_rotation ds p h l1 item l2 :
  items p = l1 ++ item :: l2 ->
  active item = true ->
  (forall other, other ∈ l1 ++ l2 -> active other = true -> sprite other <> sprite item) ->
  ds <> [] ->
  Pixi.rotation ((run ds p h).2 (sprite item))
  = totalRotation item (elapsedTime p + total ds).
Proof.
  intros Hitems Ha Hothers.
  assert (Hne : forall q, items q = l1 ++ item :: l2 -> items q <> []).
  { intros q ->. by destruct l1. }
  revert p h Hitems. induction ds as [|d ds IH]; intros p h Hitems Hds; [done|].
  rewrite run_cons. destruct ds as [|d' ds].
  - simpl. rewrite tick_heap by auto. rewrite Hitems.
    rewrite tickSpinSystem_at by done. simpl. unfold totalRotation.
    do 3 f_equal. lra.
  - rewrite IH; [|by rewrite tick_items|done].
    rewrite tick_elapsed by auto. unfold totalRotation. do 3 f_equal. simpl. lra.
Qed.

Lemma buildSpinLoop_items h layers acc m :
  (buildSpinLoop h layers acc m).1 = acc ++ omap (createSpinItem h) layers.
Proof.
  revert acc m. induction layers as [|layer layers IH]; intros acc m; simpl.
  - by rewrite app_nil_r.
  - rewrite IH. destruct (createSpinItem h layer); [by rewrite <- app_assoc | done].
Qed.

Lemma init_items h layers : items (init h layers) = omap (createSpinItem h) layers.
Proof. unfold init, buildSpinSystem. simpl. by rewrite buildSpinLoop_items. Qed.

Lemma createSpinItem_Some h layer item :
  createSpinItem h layer = Some item ->
  sprite item = layer_sprite layer /\
  layerId item = layer_id layer /\
  baseRotation item = Pixi.rotation (h (layer_sprite layer)) /\
  rpm item = clampRpm60 (spinRPM (layer_cfg layer)) /\
  radPerSecond item = clampRpm60 (spinRPM (layer_cfg layer)) * PI / 30 /\
  direction item = sign_of (match spinDir (layer_cfg layer) with Some ccw => ccw | _ => cw end) /\
  active item = true.
Proof.
  unfold createSpinItem. destruct (negb _); [done|].
  intros [= <-]. by repeat split.
Qed.

Lemma omap_createSpinItem_sprite h (layers : list BuiltLayer) other :
  other ∈ omap (createSpinItem h) layers ->
  sprite other ∈ layer_sprite <$> layers.
Proof.
  rewrite list_elem_of_omap. intros (layer & Hin & Hc).
  apply createSpinItem_Some in Hc as (-> & _).
  apply list_elem_of_fmap. eauto.
Qed.

(** In a scene whose layers have sprites of their own, the item of a
    layer is the only one that refers to its sprite. *)
Lemma init_split h (L1 L2 : list BuiltLayer) layer item :
  NoDup (layer_sprite <$> (L1 ++ layer :: L2)) ->
  createSpinItem h layer = Some item ->
  items (init h (L1 ++ layer :: L2))
  = omap (createSpinItem h) L1 ++ item :: omap (createSpinItem h) L2 /\
  (forall other,
     other ∈ omap (createSpinItem h) L1 ++ omap (createSpinItem h) L2 ->
     sprite other <> sprite item).
Proof.
  intros Hnd Hc. split.
  - rewrite init_items, omap_app. simpl. by rewrite Hc.
  - intros other Hin Heq.
    apply createSpinItem_Some in Hc as (Hs & _).
    assert (Hmem : sprite other ∈ layer_sprite <$> L1 \/
                   sprite other ∈ layer_sprite <$> L2).
    { apply elem_of_app in Hin as [Hin|Hin]; [left|right];
        by eapply omap_createSpinItem_sprite. }
    rewrite Heq, Hs in Hmem.
    rewrite fmap_app, fmap_cons in Hnd.
    apply NoDup_app in Hnd as (_ & Hdisj & Hnd2).
    apply NoDup_cons in Hnd2 as (Hnotin & _).
    destruct Hmem as [H1|H2]; [|done].
    eapply Hdisj; [exact H1 | by left].
Qed.

Lemma clampRpm60_30 : clampRpm60 (UNum (Fin 30)) = 30.
Proof.
  rewrite clampRpm60_finite by lra.
  unfold Rmin, Rmax. repeat destruct (Rle_dec _ _); lra.
Qed.

(** C6.  The tick of an active spin item sets the rotation of its sprite
    to [baseRotation + direction * radPerSecond * elapsedTime]; the rate
    is [RPM * PI / 30] for the clamped RPM of the layer; the clock of the
    processor starts at 0 and grows by the delta of every frame.  In a
    scene, after frames whose deltas add up to [total ds], the rotation of
    the sprite of a spinning layer is its rotation at [init] plus
    [direction * RPM * PI / 30 * total ds]: at 30 RPM clockwise and one
    second, its rotation at [init] plus [PI]. *)
Theorem spin_tick_rotation :
  (forall item t h, active item = true ->
     updateSpinItem item t h (sprite item)
     = Pixi.set_rotation
         (JS.add (baseRotation item) (Fin (sgn (direction item) * radPerSecond item * t)))
         (h (sprite item))) /\
  (forall h layer item, createSpinItem h layer = Some item ->
     radPerSecond item = clampRpm60 (spinRPM (layer_cfg layer)) * PI / 30 /\
     baseRotation item = Pixi.rotation (h (layer_sprite layer))) /\
  (forall h layers, elapsedTime (init h layers) = 0) /\
  (forall d p h, 0 <= d -> elapsedTime p <= elapsedTime (tick d p h).1) /\
  (forall ds p h, items p <> [] -> elapsedTime (run ds p h).1 = elapsedTime p + total ds) /\
  (forall h (L1 L2 : list BuiltLayer) layer item ds,
     NoDup (layer_sprite <$> (L1 ++ layer :: L2)) ->
     createSpinItem h layer = Some item ->
     ds <> [] ->
     Pixi.rotation ((run ds (init h (L1 ++ layer :: L2)) h).2 (layer_sprite layer))
     = JS.add (Pixi.rotation (h (layer_sprite layer)))
              (Fin (sgn (direction item)
                    * (clampRpm60 (spinRPM (layer_cfg layer)) * PI / 30) * total ds))) /\
  (forall h (L1 L2 : list BuiltLayer) layer ds,
     NoDup (layer_sprite <$> (L1 ++ layer :: L2)) ->
     spinRPM (layer_cfg layer) = UNum (Fin 30) ->
     spinDir (layer_cfg layer) = Some cw ->
     ds <> [] ->
     total ds = 1 ->
     Pixi.rotation ((run ds (init h (L1 ++ layer :: L2)) h).2 (layer_sprite layer))
     = JS.add (Pixi.rotation (h (layer_sprite layer))) (Fin PI)).
Proof.
  assert (Hscene : forall h (L1 L2 : list BuiltLayer) layer item ds,
     NoDup (layer_sprite <$> (L1 ++ layer :: L2)) ->
     createSpinItem h layer = Some item ->
     ds <> [] ->
     Pixi.rotation ((run ds (init h (L1 ++ layer :: L2)) h).2 (layer_sprite layer))
     = JS.add (Pixi.rotation (h (layer_sprite layer)))
              (Fin (sgn (direction item)
                    * (clampRpm60 (spinRPM (layer_cfg layer)) * PI / 30) * total ds))).
  { intros h L1 L2 layer item ds Hnd Hc Hds.
    destruct (init_split h L1 L2 layer item Hnd Hc) as [Hsplit Hothers].
    pose proof (createSpinItem_Some _ _ _ Hc) as (Hs & _ & Hb & _ & Hr & _ & Ha).
    rewrite <- Hs in Hb |- *.
    rewrite (run_rotation ds _ h _ item _ Hsplit Ha) by (intros; auto).
    unfold totalRotation. rewrite Hb, Hr. simpl elapsedTime.
    do 2 f_equal. ring. }
  split_and!.
  - intros item t h Ha. by apply updateSpinItem_active.
  - intros h layer item Hc.
    by apply createSpinItem_Some in Hc as (_ & _ & ? & _ & ? & _).
  - done.
  - intros d p h Hd. unfold tick. destruct (items p); simpl; lra.
  - intros ds p h. apply run_elapsed.
  - exact Hscene.
  - intros h L1 L2 layer ds Hnd Hrpm Hdir Hds Htotal.
    assert (Hc : createSpinItem h layer
                 = Some {| sprite := layer_sprite layer; layerId := layer_id layer;
                           baseRotation := Pixi.rotation (h (layer_sprite layer));
                           radPerSecond := rpmToRadPerSecond 30;
                           direction := Plus; rpm := 30; active := true |}).
    { unfold createSpinItem, createSpinConfig. rewrite Hrpm, Hdir, clampRpm60_30. simpl.
      rewrite bool_decide_eq_true_2 by lra. done. }
    rewrite (Hscene _ _ _ _ _ _ Hnd Hc Hds), Hrpm, clampRpm60_30, Htotal. simpl.
    do 2 f_equal. lra.
Qed.

(** A scene of one layer at 30 RPM clockwise, and one frame of one second. *)
Lemma spin_tick_rotation_witness :
  let cfg := mkLayerConfig "gear1" None None None (UNum (Fin 30)) (Some cw)
               UNullish None None None None None [] in
  let layer := mkBuiltLayer "gear1" 0%nat cfg in
  Pixi.rotation ((run [1] (init (fun _ => Pixi.fresh) [layer]) (fun _ => Pixi.fresh)).2 0%nat)
  = JS.add (Fin 0) (Fin PI).
Proof.
  intros cfg layer.
  destruct spin_tick_rotation as (_ & _ & _ & _ & _ & _ & Hsec).
  apply (Hsec (fun _ => Pixi.fresh) [] [] layer [1]).
  - simpl. apply NoDup_singleton.
  - reflexivity.
  - reflexivity.
  - discriminate.
  - simpl. lra.
Defined.

(** *** Control operations *)

Lemma list_find_middle {A} (P : A -> Prop) `{!forall x, Decision (P x)} (l1 l2 : list A) x :
  (forall y, y ∈ l1 -> ~ P y) -> P x ->
  list_find P (l1 ++ x :: l2) = Some (length l1, x).
Proof.
  intros Hl1 Hx. apply list_find_Some. split_and!.
  - by rewrite list_lookup_middle.
  - done.
  - intros j y Hj Hlt. apply Hl1.
    rewrite lookup_app_l in Hj by done. by eapply list_elem_of_lookup_2.
Qed.

Lemma with_item_middle id0 f p l1 item l2 :
  items p = l1 ++ item :: l2 ->
  (forall other, other ∈ l1 -> layerId other <> id0) ->
  layerId item = id0 ->
  with_item id0 f p
  = {| items := l1 ++ f item :: l2; rpmBySprite := rpmBySprite p; elapsedTime := elapsedTime p |}.
Proof.
  intros Hitems Hl1 Hid. unfold with_item. rewrite Hitems.
  rewrite (list_find_middle _ l1 l2 item) by done.
  f_equal. replace (length l1) with (length l1 + 0)%nat by lia.
  by rewrite alter_app_r.
Qed.

Lemma with_item_absent id0 f p :
  Forall (fun item => layerId item <> id0) (items p) -> with_item id0 f p = p.
Proof.
  intros Hall. unfold with_item.
  assert (Hnone : list_find (fun i => layerId i = id0) (items p) = None)
    by by apply list_find_None.
  by rewrite Hnone.
Qed.

Lemma run_untouched ds p h r :
  (forall other, other ∈ items p -> active other = true -> sprite other <> r) ->
  (run ds p h).2 r = h r.
Proof.
  revert p h. induction ds as [|d ds IH]; intros p h Hothers; [done|].
  rewrite run_cons, IH.
  - destruct (decide (items p = [])) as [E|E].
    + unfold tick. by rewrite E.
    + rewrite tick_heap by done. by apply tickSpinSystem_untouched.
  - by rewrite tick_items.
Qed.

(** C10.  Toggling a spin item off does not stop the clock of the
    processor.  While the item is off, the frames leave its sprite as it
    is and the elapsed time keeps growing; the first frame after it is
    toggled on again sets the rotation to the formula at the whole
    elapsed time, the time spent off included. *)
Theorem toggle_keeps_clock_running p h l1 item l2 ds d :
  items p = l1 ++ item :: l2 ->
  (forall other, other ∈ l1 -> layerId other <> layerId item) ->
  (forall other, other ∈ l1 ++ l2 -> sprite other <> sprite item) ->
  active item = true ->
  let off := toggleSpin (layerId item) p in
  let paused := run ds off h in
  let on := toggleSpin (layerId item) paused.1 in
  let resumed := tick d on paused.2 in
  (item ∉ getActiveItems off) /\
  paused.2 (sprite item) = h (sprite item) /\
  elapsedTime paused.1 = elapsedTime p + total ds /\
  Pixi.rotation (resumed.2 (sprite item))
  = JS.add (baseRotation item)
           (Fin (sgn (direction item) * radPerSecond item * (elapsedTime p + total ds + d))).
Proof.
  intros Hitems Hids Hsprites Ha off paused on resumed.
  set (item_off := {| sprite := sprite item; layerId := layerId item;
                      baseRotation := baseRotation item; radPerSecond := radPerSecond item;
                      direction := direction item; rpm := rpm item; active := false |}).
  assert (Hoff : items off = l1 ++ item_off :: l2).
  { unfold off, toggleSpin. rewrite (with_item_middle _ _ _ _ _ _ Hitems) by done.
    simpl. by rewrite Ha. }
  assert (Hoff_t : elapsedTime off = elapsedTime p).
  { unfold off, toggleSpin. by rewrite (with_item_middle _ _ _ _ _ _ Hitems). }
  assert (Hquiet : forall other, other ∈ items off -> active other = true ->
                                 sprite other <> sprite item).
  { intros other. rewrite Hoff. intros Hin Hact.
    apply elem_of_app in Hin as [Hin|Hin]; [apply Hsprites, elem_of_app; by left|].
    apply elem_of_cons in Hin as [->|Hin]; [done|].
    apply Hsprites, elem_of_app. by right. }
  assert (Hpaused_items : items paused.1 = l1 ++ item_off :: l2).
  { unfold paused. by rewrite run_items. }
  assert (Hpaused_t : elapsedTime paused.1 = elapsedTime p + total ds).
  { unfold paused. rewrite run_elapsed, Hoff_t; [done|]. rewrite Hoff. by destruct l1. }
  assert (Hon : items on = l1 ++ item :: l2 /\ elapsedTime on = elapsedTime paused.1).
  { unfold on, toggleSpin.
    rewrite (with_item_middle _ _ _ _ _ _ Hpaused_items) by done.
    simpl. split; [|done]. do 2 f_equal. destruct item. simpl in *. by subst. }
  destruct Hon as [Hon Hon_t].
  split_and!.
  - unfold getActiveItems. rewrite list_elem_of_filter. intros [Hact Hin].
    rewrite Hoff in Hin. apply elem_of_app in Hin as [Hin|Hin].
    + eapply Hsprites; [apply elem_of_app; by left | done].
    + apply elem_of_cons in Hin as [Heq|Hin].
      * rewrite Heq in Hact. done.
      * eapply Hsprites; [apply elem_of_app; by right | done].
  - unfold paused. by apply run_untouched.
  - done.
  - unfold resumed. rewrite tick_heap by (rewrite Hon; by destruct l1).
    rewrite Hon, tickSpinSystem_at by (intros; auto). simpl.
    unfold totalRotation. rewrite Hon_t, Hpaused_t. done.
Qed.

(** One item, toggled off for frames of 1 and 2 seconds, then on for a
    frame of half a second. *)
Lemma toggle_keeps_clock_running_witness :
  let item := mkSpinItem 0%nat "gear1" (Fin 0) PI Plus 30 true in
  let p := mkProcessor [item] ∅ 0 in
  let h : Pixi.heap := fun _ => Pixi.fresh in
  let paused := run [1; 2] (toggleSpin "gear1" p) h in
  let resumed := tick (1 / 2) (toggleSpin "gear1" paused.1) paused.2 in
  (item ∉ getActiveItems (toggleSpin "gear1" p)) /\
  paused.2 0%nat = h 0%nat /\
  elapsedTime paused.1 = 0 + total [1; 2] /\
  Pixi.rotation (resumed.2 0%nat)
  = JS.add (Fin 0) (Fin (sgn Plus * PI * (0 + total [1; 2] + 1 / 2))).
Proof.
  intros item p h.
  apply (toggle_keeps_clock_running p h [] item [] [1; 2] (1 / 2)).
  - reflexivity.
  - intros other Hin. by apply elem_of_nil in Hin.
  - intros other Hin. by apply elem_of_nil in Hin.
  - reflexivity.
Defined.

End SpinFacts.

(** ** Control operations on a layer the scene does not have *)

Section UnknownLayer.
Import CoreMath.

Lemma spin_init_ids h (layers : list BuiltLayer) item :
  item ∈ SpinL.items (SpinL.init h layers) ->
  SpinL.layerId item ∈ layer_id <$> layers.
Proof.
  rewrite init_items, list_elem_of_omap. intros (layer & Hin & Hc).
  apply createSpinItem_Some in Hc as (_ & -> & _).
  apply list_elem_of_fmap. eauto.
Qed.

Lemma createOrbitItem_Some layer m item :
  Orbit.createOrbitItem layer m = Some item ->
  Orbit.sprite item = layer_sprite layer /\
  Orbit.layerId item = layer_id layer /\
  Orbit.cfg item = layer_cfg layer /\
  Orbit.spinRpm item = default 0 (m !! layer_sprite layer) /\
  Orbit.active item = true /\
  Orbit.radius item > 0.
Proof.
  unfold Orbit.createOrbitItem. destruct (negb _); [done|].
  case_bool_decide as Hr; [done|].
  intros [= <-]. split_and!; try done.
  apply Rnot_le_gt. exact Hr.
Qed.

Lemma buildOrbitLoop_items layers m acc :
  Orbit.buildOrbitLoop layers m acc = acc ++ omap (fun layer => Orbit.createOrbitItem layer m) layers.
Proof.
  revert acc. induction layers as [|layer layers IH]; intros acc; simpl.
  - by rewrite app_nil_r.
  - rewrite IH. destruct (Orbit.createOrbitItem layer m); [by rewrite <- app_assoc | done].
Qed.

Lemma orbit_init_items layers :
  Orbit.items (Orbit.init layers)
  = omap (fun layer => Orbit.createOrbitItem layer ∅) layers.
Proof. unfold Orbit.init, Orbit.buildOrbitSystem. simpl. by rewrite buildOrbitLoop_items. Qed.

Lemma orbit_init_ids (layers : list BuiltLayer) item :
  item ∈ Orbit.items (Orbit.init layers) ->
  Orbit.layerId item ∈ layer_id <$> layers.
Proof.
  rewrite orbit_init_items, list_elem_of_omap. intros (layer & Hin & Hc).
  apply createOrbitItem_Some in Hc as (_ & -> & _).
  apply list_elem_of_fmap. eauto.
Qed.

Lemma getOrbitItem_absent id0 p :
  Forall (fun item => Orbit.layerId item <> id0) (Orbit.items p) ->
  Orbit.getOrbitItem p id0 = None.
Proof. intros Hall. unfold Orbit.getOrbitItem. by apply list_find_None. Qed.

(** C9.  A control operation that names a layer none of the items of the
    processor belongs to returns the processor, and for [updateCenter]
    the sprites, as they are; the items built by [init] belong to layers
    of the scene, so this holds for every layer id the scene does not
    have. *)
Theorem unknown_layer_noop (layers : list BuiltLayer) (id0 : string) :
  (forall (p : SpinL.SpinLProcessor) rpm d,
     Forall (fun item => SpinL.layerId item <> id0) (SpinL.items p) ->
     SpinL.updateRPM id0 rpm p = p /\
     SpinL.toggleSpin id0 p = p /\
     SpinL.setDirection id0 d p = p) /\
  (forall (p : Orbit.OrbitProcessor) rpm d center (h : Pixi.heap),
     Forall (fun item => Orbit.layerId item <> id0) (Orbit.items p) ->
     Orbit.updateRPM id0 rpm p = p /\
     Orbit.setDirection id0 d p = p /\
     Orbit.updateCenter id0 center p h = (p, h)) /\
  (id0 ∉ layer_id <$> layers ->
   forall h,
     Forall (fun item => SpinL.layerId item <> id0) (SpinL.items (SpinL.init h layers)) /\
     Forall (fun item => Orbit.layerId item <> id0) (Orbit.items (Orbit.init layers))).
Proof.
  split_and!.
  - intros p rpm d Hall.
    unfold SpinL.updateRPM, SpinL.toggleSpin, SpinL.setDirection.
    by rewrite !with_item_absent.
  - intros p rpm d center h Hall.
    unfold Orbit.updateRPM, Orbit.setDirection, Orbit.updateCenter.
    by rewrite (getOrbitItem_absent _ _ Hall).
  - intros Hid h. split; apply Forall_forall; intros item Hin Heq.
    + apply Hid. rewrite <- Heq. by eapply spin_init_ids.
    + apply Hid. rewrite <- Heq. by apply orbit_init_ids.
Qed.

(** The scene of the sample layer has no layer [ghost]. *)
Lemma unknown_layer_noop_witness :
  SpinL.toggleSpin "ghost" (SpinL.init Samples.blank [Samples.planet])
  = SpinL.init Samples.blank [Samples.planet] /\
  Orbit.updateCenter "ghost" {| Utils.x := 10; Utils.y := 10 |}
    (Orbit.init [Samples.planet]) Samples.blank
  = (Orbit.init [Samples.planet], Samples.blank).
Proof.
  destruct (unknown_layer_noop [Samples.planet] "ghost") as (Hspin & Horbit & Hinit).
  assert (Hghost : "ghost" ∉ layer_id <$> [Samples.planet]).
  { simpl. rewrite list_elem_of_singleton. discriminate. }
  destruct (Hinit Hghost Samples.blank) as [Hs Ho].
  split.
  - by apply (Hspin _ (Fin 0) cw Hs).
  - by apply (Horbit _ (Fin 0) cw _ _ Ho).
Defined.

End UnknownLayer.

(** ** Orbit: the per-frame update *)

Section OrbitFacts.
Import CoreMath Utils Orbit.

Lemma updateOrbitItem_guard item t h :
  active item = false \/ radius item <= 0 -> updateOrbitItem item t h = h.
Proof.
  intros Hg. unfold updateOrbitItem.
  destruct Hg as [-> | Hr]; [done|].
  rewrite (bool_decide_eq_true_2 _ Hr). by rewrite orb_true_r.
Qed.

Lemma updateOrbitItem_other item t h r :
  r <> sprite item -> updateOrbitItem item t h r = h r.
Proof.
  intros Hne. unfold updateOrbitItem.
  destruct (negb (active item) || bool_decide (radius item <= 0)); [done|].
  destruct (orients item); by rewrite !write_ne.
Qed.

Lemma orients_true item :
  orients item = true <->
  orientPolicy item = override \/ (orientPolicy item = auto /\ spinRpm item <= 0).
Proof.
  unfold orients. destruct (orientPolicy item).
  - split; [done | intros [?|[? _]]; done].
  - rewrite bool_decide_eq_true. split; [by right | by intros [?|[_ ?]]].
  - split; [by left | done].
Qed.

Lemma orients_false item :
  orients item = false <->
  orientPolicy item = none \/ (orientPolicy item = auto /\ spinRpm item > 0).
Proof.
  unfold orients. destruct (orientPolicy item).
  - split; [by left | done].
  - rewrite bool_decide_eq_false. split.
    + intros Hn. right. split; [done | lra].
    + intros [?|[_ ?]]; [done | lra].
  - split; [done | intros [?|[? _]]; done].
Qed.

Lemma updateOrbitItem_rotation_set item t h :
  active item = true -> radius item > 0 -> orients item = true ->
  Pixi.rotation (updateOrbitItem item t h (sprite item))
  = JS.add (angle_at item t) (Fin (orientRadians item)).
Proof.
  intros Ha Hr Ho. unfold updateOrbitItem.
  rewrite Ha, Ho, bool_decide_eq_false_2 by lra. simpl.
  by rewrite write_eq.
Qed.

Lemma updateOrbitItem_rotation_kept item t h r :
  orients item = false ->
  Pixi.rotation (updateOrbitItem item t h r) = Pixi.rotation (h r).
Proof.
  intros Ho. unfold updateOrbitItem. rewrite Ho.
  destruct (negb (active item) || bool_decide (radius item <= 0)); [done|].
  destruct (decide (r = sprite item)) as [->|Hne].
  - by rewrite !write_eq.
  - by rewrite !write_ne.
Qed.

Lemma updateAll_rotation_kept l t h r :
  (forall item, item ∈ l -> sprite item = r -> orients item = false) ->
  Pixi.rotation (updateAll l t h r) = Pixi.rotation (h r).
Proof.
  revert h. induction l as [|item l IH]; intros h Hl; [done|].
  simpl. rewrite IH by (intros; apply Hl; [by right | done]).
  destruct (decide (sprite item = r)) as [Heq|Hne].
  - apply updateOrbitItem_rotation_kept, Hl; [by left | done].
  - by rewrite updateOrbitItem_other.
Qed.

Lemma updateAll_untouched l t h r :
  (forall item, item ∈ l -> sprite item <> r) -> updateAll l t h r = h r.
Proof.
  revert h. induction l as [|item l IH]; intros h Hl; [done|].
  simpl. rewrite IH by (intros; apply Hl; by right).
  apply updateOrbitItem_other. intros Heq. by eapply Hl; [left|].
Qed.

Lemma updateAll_rotation_set l1 item l2 t h :
  active item = true -> radius item > 0 -> orients item = true ->
  (forall other, other ∈ l1 ++ l2 -> sprite other <> sprite item) ->
  Pixi.rotation (updateAll (l1 ++ item :: l2) t h (sprite item))
  = JS.add (angle_at item t) (Fin (orientRadians item)).
Proof.
  intros Ha Hr Ho. revert h. induction l1 as [|first l1 IH]; intros h Hothers; simpl.
  - rewrite updateAll_untouched by (intros; by apply Hothers).
    by apply updateOrbitItem_rotation_set.
  - apply IH. intros other Hin. apply Hothers. by right.
Qed.

Lemma orbit_tick_items d p h : items (tick d p h).1 = items p.
Proof. unfold tick. by destruct (items p) eqn:E. Qed.

Lemma orbit_tick_elapsed d p h :
  items p <> [] -> elapsedTime (tick d p h).1 = elapsedTime p + d.
Proof. unfold tick. by destruct (items p). Qed.

Lemma orbit_tick_heap d p h :
  items p <> [] -> (tick d p h).2 = updateAll (items p) (elapsedTime p + d) h.
Proof. unfold tick. by destruct (items p). Qed.

Lemma orbit_run_cons d ds p h :
  run (d :: ds) p h = run ds (tick d p h).1 (tick d p h).2.
Proof. simpl. by destruct (tick d p h). Qed.

Lemma orbit_run_items ds p h : items (run ds p h).1 = items p.
Proof.
  revert p h. induction ds as [|d ds IH]; intros p h; [done|].
  rewrite orbit_run_cons, IH. apply orbit_tick_items.
Qed.

Lemma orbit_run_elapsed ds p h :
  items p <> [] -> elapsedTime (run ds p h).1 = elapsedTime p + total ds.
Proof.
  revert p h. induction ds as [|d ds IH]; intros p h Hne; simpl total.
  - simpl. lra.
  - rewrite orbit_run_cons, IH; [|by rewrite orbit_tick_items].
    rewrite orbit_tick_elapsed by done. lra.
Qed.

Lemma orbit_run_rotation_kept ds p h r :
  (forall item, item ∈ items p -> sprite item = r -> orients item = false) ->
  Pixi.rotation ((run ds p h).2 r) = Pixi.rotation (h r).
Proof.
  revert p h. induction ds as [|d ds IH]; intros p h Hl; [done|].
  rewrite orbit_run_cons, IH by by rewrite orbit_tick_items.
  destruct (decide (items p = [])) as [E|E].
  - unfold tick. by rewrite E.
  - rewrite orbit_tick_heap by done. by apply updateAll_rotation_kept.
Qed.

Lemma orbit_run_rotation_set ds p h l1 item l2 :
  items p = l1 ++ item :: l2 ->
  active item = true -> radius item > 0 -> orients item = true ->
  (forall other, other ∈ l1 ++ l2 -> sprite other <> sprite item) ->
  ds <> [] ->
  Pixi.rotation ((run ds p h).2 (sprite item))
  = JS.add (angle_at item (elapsedTime p + total ds)) (Fin (orientRadians item)).
Proof.
  intros Hitems Ha Hr Ho Hothers.
  assert (Hne : forall q, items q = l1 ++ item :: l2 -> items q <> []).
  { intros q ->. by destruct l1. }
  revert p h Hitems. induction ds as [|d ds IH]; intros p h Hitems Hds; [done|].
  rewrite orbit_run_cons. destruct ds as [|d' ds].
  - simpl. rewrite orbit_tick_heap by auto. rewrite Hitems.
    rewrite updateAll_rotation_set by done.
    do 2 f_equal. simpl. lra.
  - rewrite IH; [|by rewrite orbit_tick_items|done].
    rewrite orbit_tick_elapsed by auto. do 2 f_equal. simpl. lra.
Qed.

(** C3, as stated, fails on an item that is switched off: its policy is
    [override], and the update leaves the rotation of its sprite at 0
    where the angle plus the offset is 1. *)
Lemma orientation_not_written_when_inactive :
  orientPolicy Samples.stopped_item = override /\
  Pixi.rotation (updateOrbitItem Samples.stopped_item 1 Samples.blank
                   (sprite Samples.stopped_item))
  <> JS.add (angle_at Samples.stopped_item 1) (Fin (orientRadians Samples.stopped_item)).
Proof.
  split; [done|]. unfold updateOrbitItem, angle_at. simpl.
  intros [= Heq]. lra.
Qed.

(** C3, amended.  For an active item of positive radius, the update sets
    the rotation of the sprite to the angle plus the orientation offset
    when the policy is [override], or [auto] with a snapshot spin rate of
    at most 0.  With the policy [none], or [auto] with a positive snapshot
    spin rate, it leaves the rotation of every sprite as it is, and so do
    any number of frames.  An item that is inactive or has no positive
    radius is not updated at all, whatever its policy. *)
Theorem orbit_orientation_policy :
  (forall item t h,
     active item = true -> radius item > 0 ->
     orientPolicy item = override \/ (orientPolicy item = auto /\ spinRpm item <= 0) ->
     Pixi.rotation (updateOrbitItem item t h (sprite item))
     = JS.add (angle_at item t) (Fin (orientRadians item))) /\
  (forall item t h r,
     orientPolicy item = none \/ (orientPolicy item = auto /\ spinRpm item > 0) ->
     Pixi.rotation (updateOrbitItem item t h r) = Pixi.rotation (h r)) /\
  (forall item t h,
     active item = false \/ radius item <= 0 -> updateOrbitItem item t h = h) /\
  (forall ds p h r,
     (forall item, item ∈ items p -> sprite item = r ->
        orientPolicy item = none \/ (orientPolicy item = auto /\ spinRpm item > 0)) ->
     Pixi.rotation ((run ds p h).2 r) = Pixi.rotation (h r)) /\
  (forall ds p h l1 item l2,
     items p = l1 ++ item :: l2 ->
     active item = true -> radius item > 0 ->
     orientPolicy item = override \/ (orientPolicy item = auto /\ spinRpm item <= 0) ->
     (forall other, other ∈ l1 ++ l2 -> sprite other <> sprite item) ->
     ds <> [] ->
     Pixi.rotation ((run ds p h).2 (sprite item))
     = JS.add (angle_at item (elapsedTime p + total ds)) (Fin (orientRadians item))).
Proof.
  split_and!.
  - intros item t h Ha Hr Hp. apply updateOrbitItem_rotation_set; [done..|].
    by apply orients_true.
  - intros item t h r Hp. by apply updateOrbitItem_rotation_kept, orients_false.
  - apply updateOrbitItem_guard.
  - intros ds p h r Hp. apply orbit_run_rotation_kept.
    intros item Hin Hs. apply orients_false. by apply Hp.
  - intros ds p h l1 item l2 Hitems Ha Hr Hp Hothers Hds.
    eapply orbit_run_rotation_set; [done..| |done|done].
    by apply orients_true.
Qed.

(** The running sample item, for ten frames of a tenth of a second. *)
Lemma orbit_orientation_policy_witness :
  let p := mkProcessor [Samples.running_item] 0 in
  let ds := replicate 10 (1 / 10) in
  Pixi.rotation ((run ds p Samples.blank).2 0%nat)
  = JS.add (angle_at Samples.running_item (0 + total ds)) (Fin 0).
Proof.
  intros p ds.
  destruct orbit_orientation_policy as (_ & _ & _ & _ & Hrun).
  apply (Hrun ds p Samples.blank [] Samples.running_item []).
  - reflexivity.
  - reflexivity.
  - simpl. lra.
  - by left.
  - intros other Hin. by apply elem_of_nil in Hin.
  - discriminate.
Defined.

End OrbitFacts.

(** ** Orbit: creation and recomputation *)

Section OrbitItems.
Import CoreMath Utils Orbit.

Lemma projectToRectBorder_inside cx cy px py w h :
  0 <= px -> px <= w -> 0 <= py -> py <= h ->
  projectToRectBorder cx cy px py w h = {| x := px; y := py |}.
Proof.
  intros H1 H2 H3 H4. unfold projectToRectBorder.
  rewrite !bool_decide_eq_true_2 by lra. done.
Qed.

Lemma object_of_cx v : prop (object_of v) "cx" = NaN.
Proof. unfold prop, object_of. by rewrite !lookup_insert_ne, lookup_empty. Qed.

Lemma object_of_cy v : prop (object_of v) "cy" = NaN.
Proof. unfold prop, object_of. by rewrite !lookup_insert_ne, lookup_empty. Qed.

Lemma createOrbitItem_center layer m item :
  createOrbitItem layer m = Some item ->
  exists v, centerPixels item = object_of v.
Proof.
  unfold createOrbitItem. destruct (negb _); [done|].
  case_bool_decide; [done|]. intros [= <-]. simpl. eauto.
Qed.

Lemma recomputeOrbitItem_center item t h :
  exists v, centerPixels (recomputeOrbitItem item t h).1 = object_of v.
Proof. unfold recomputeOrbitItem. case_bool_decide; simpl; eauto. Qed.

(** The radius a recomputation derives for an item as created is the
    radius it was created with. *)
Lemma recomputeOrbitItem_radius_created layer m item t h :
  createOrbitItem layer m = Some item ->
  radius (recomputeOrbitItem item t h).1 = radius item.
Proof.
  unfold createOrbitItem. destruct (negb _); [done|].
  case_bool_decide; [done|]. intros [= <-].
  unfold recomputeOrbitItem. by case_bool_decide.
Qed.

(** What a recomputation does when the angle it reads is not a number. *)
Lemma recomputeOrbitItem_NaN item t h :
  currentAngle item h = NaN ->
  radius (recomputeOrbitItem item t h).1 > 0 ->
  basePhase (recomputeOrbitItem item t h).1 = NaN /\
  angle_at (recomputeOrbitItem item t h).1 t = NaN /\
  Pixi.x ((recomputeOrbitItem item t h).2 (sprite item)) = NaN /\
  Pixi.y ((recomputeOrbitItem item t h).2 (sprite item)) = NaN.
Proof.
  intros Hnan. unfold recomputeOrbitItem. rewrite Hnan.
  case_bool_decide as Hr; [|intros Hpos; exfalso; apply Hr; exact Hpos].
  intros _. unfold angle_at. simpl. rewrite !write_eq. done.
Qed.

(** What a recomputation does when the angle it reads is a number: the
    formula at the same elapsed time gives that angle again, and the
    sprite is put at that angle on the new circle. *)
Lemma recomputeOrbitItem_finite item t h a :
  currentAngle item h = Fin a ->
  radius (recomputeOrbitItem item t h).1 > 0 ->
  angle_at (recomputeOrbitItem item t h).1 t = Fin a.
Proof.
  intros Ha. unfold recomputeOrbitItem. rewrite Ha.
  case_bool_decide as Hr; [|intros Hpos; exfalso; apply Hr; exact Hpos].
  intros _. unfold angle_at. simpl. f_equal. lra.
Qed.

Lemma planet_created :
  exists item, createOrbitItem Samples.planet ∅ = Some item.
Proof.
  unfold createOrbitItem, createOrbitConfig. simpl.
  rewrite clampRpm60_finite by lra.
  assert (H10 : Rmin 60 (Rmax 0 10) = 10).
  { unfold Rmin, Rmax. repeat destruct (Rle_dec _ _); lra. }
  rewrite H10. rewrite bool_decide_eq_true_2 by lra. simpl.
  rewrite (clamp_inside 50 0 100) by lra.
  unfold percentToStageCoords, position_xPct, position_yPct, STAGE_WIDTH, STAGE_HEIGHT. simpl.
  rewrite projectToRectBorder_inside by lra. simpl.
  rewrite bool_decide_eq_false_2; [eauto|].
  apply Rgt_not_le, hypot_pos. left. lra.
Qed.

(** C4.  The items that [OrbitProcessor.init] builds all carry the
    snapshot 0: the map it hands to [buildOrbitSystem] is a new, empty
    one.  For the sample layer the Spin processor computes 30 RPM, and
    the orbit item built for it holds 0. *)
Theorem orbit_spin_snapshot_is_zero :
  (forall (layers : list BuiltLayer) item,
     item ∈ items (Orbit.init layers) -> spinRpm item = 0) /\
  SpinL.getRPM (SpinL.init Samples.blank [Samples.planet]) (layer_sprite Samples.planet) = 30 /\
  (exists item,
     items (Orbit.init [Samples.planet]) = [item] /\
     sprite item = layer_sprite Samples.planet /\
     spinRpm item = 0).
Proof.
  split_and!.
  - intros layers item. rewrite orbit_init_items, list_elem_of_omap.
    intros (layer & _ & Hc).
    by apply createOrbitItem_Some in Hc as (_ & _ & _ & -> & _).
  - unfold SpinL.getRPM, SpinL.init, SpinL.buildSpinSystem. simpl.
    rewrite lookup_insert_eq. simpl.
    unfold SpinL.createSpinConfig. simpl. apply clampRpm60_30.
  - destruct planet_created as [item Hc]. exists item.
    rewrite orbit_init_items. simpl. rewrite Hc.
    apply createOrbitItem_Some in Hc as (? & _ & _ & ? & _). done.
Qed.

Lemma currentAngle_missing_center item h v :
  centerPixels item = object_of v -> currentAngle item h = NaN.
Proof.
  intros Hv. unfold currentAngle.
  by rewrite Hv, object_of_cx, object_of_cy, !sub_NaN_r.
Qed.

Lemma recomputeAll_created items0 t h :
  Forall (fun item => exists layer m, createOrbitItem layer m = Some item) items0 ->
  Forall (fun item => basePhase item = NaN) (recomputeAll items0 t h).1.
Proof.
  intros Hall. revert h. induction Hall as [|item rest (layer & m & Hc) _ IH]; intros h.
  - constructor.
  - simpl. destruct (recomputeOrbitItem item t h) as [item' h'] eqn:Hre.
    specialize (IH h'). destruct (recomputeAll rest t h') as [rest' h''].
    constructor; [|exact IH].
    replace item' with (recomputeOrbitItem item t h).1 by by rewrite Hre.
    destruct (createOrbitItem_center _ _ _ Hc) as [v Hv].
    apply recomputeOrbitItem_NaN; [by eapply currentAngle_missing_center|].
    rewrite (recomputeOrbitItem_radius_created _ _ _ _ _ Hc).
    by apply createOrbitItem_Some in Hc as (_ & _ & _ & _ & _ & ?).
Qed.

(** C2.  The center of every item the module creates or recomputes is
    stored under the names [x] and [y], and read back under [cx] and
    [cy]: the angle a recomputation reads is NaN, and with a positive
    new radius so are the base phase it stores, the angle of the
    per-frame formula, and the position it gives the sprite.  After a
    resize every item of the processor has the base phase NaN, and so has
    the item of a layer after [updateCenter], unless its new radius is
    not positive. *)
Theorem recompute_reads_missing_center :
  (forall layer m item h,
     createOrbitItem layer m = Some item -> currentAngle item h = NaN) /\
  (forall item t h h',
     currentAngle (recomputeOrbitItem item t h).1 h' = NaN) /\
  (forall layer m item t h,
     createOrbitItem layer m = Some item ->
     basePhase (recomputeOrbitItem item t h).1 = NaN /\
     angle_at (recomputeOrbitItem item t h).1 t = NaN /\
     Pixi.x ((recomputeOrbitItem item t h).2 (sprite item)) = NaN /\
     Pixi.y ((recomputeOrbitItem item t h).2 (sprite item)) = NaN) /\
  (forall layer m item t h,
     createOrbitItem layer m = Some item ->
     Pixi.x (updateOrbitItem item t h (sprite item)) = NaN /\
     Pixi.y (updateOrbitItem item t h (sprite item)) = NaN) /\
  (forall (layers : list BuiltLayer) ds h h' item,
     item ∈ items (onResize (run ds (Orbit.init layers) h).1 h').1 ->
     basePhase item = NaN) /\
  (forall layerId0 center (layers : list BuiltLayer) h k item,
     getOrbitItem (Orbit.init layers) layerId0 = Some (k, item) ->
     exists item',
       items (updateCenter layerId0 center (Orbit.init layers) h).1 !! k = Some item' /\
       (radius item' > 0 ->
        basePhase item' = NaN /\
        Pixi.x ((updateCenter layerId0 center (Orbit.init layers) h).2 (sprite item)) = NaN /\
        Pixi.y ((updateCenter layerId0 center (Orbit.init layers) h).2 (sprite item)) = NaN)).
Proof.
  assert (Hinit : forall (layers : list BuiltLayer),
            Forall (fun item => exists layer m, createOrbitItem layer m = Some item)
                   (items (Orbit.init layers))).
  { intros layers. apply Forall_forall. intros item.
    rewrite orbit_init_items, list_elem_of_omap. intros (layer & _ & Hc). eauto. }
  split_and!.
  - intros layer m item h Hc.
    destruct (createOrbitItem_center _ _ _ Hc) as [v Hv].
    by eapply currentAngle_missing_center.
  - intros item t h h'.
    destruct (recomputeOrbitItem_center item t h) as [v Hv].
    by eapply currentAngle_missing_center.
  - intros layer m item t h Hc.
    destruct (createOrbitItem_center _ _ _ Hc) as [v Hv].
    apply recomputeOrbitItem_NaN; [by eapply currentAngle_missing_center|].
    rewrite (recomputeOrbitItem_radius_created _ _ _ _ _ Hc).
    by apply createOrbitItem_Some in Hc as (_ & _ & _ & _ & _ & ?).
  - intros layer m item t h Hc.
    destruct (createOrbitItem_center _ _ _ Hc) as [v Hv].
    pose proof (createOrbitItem_Some _ _ _ Hc) as (_ & _ & _ & _ & Ha & Hr).
    unfold updateOrbitItem. rewrite Ha, bool_decide_eq_false_2 by lra. simpl.
    rewrite Hv, object_of_cx, object_of_cy, !add_NaN_l.
    destruct (orients item); repeat (rewrite write_eq; simpl); done.
  - intros layers ds h h' item. unfold onResize.
    pose proof (recomputeAll_created
                  (items (run ds (Orbit.init layers) h).1)
                  (elapsedTime (run ds (Orbit.init layers) h).1) h') as Hall.
    destruct (recomputeAll _ _ h') as [items' h'']. simpl in *.
    intros Hin. rewrite orbit_run_items in Hall.
    specialize (Hall (Hinit layers)).
    by eapply (proj1 (Forall_forall _ _) Hall).
  - intros layerId0 center layers h k item Hget.
    unfold updateCenter. rewrite Hget.
    apply list_find_Some in Hget as (Hk & _ & _).
    pose proof (proj1 (Forall_forall _ _) (Hinit layers) item
                  (list_elem_of_lookup_2 _ _ _ Hk)) as (layer & m & Hc).
    destruct (createOrbitItem_center _ _ _ Hc) as [v Hv].
    set (item1 := mkOrbitItem _ _ _ _ _ _ _ _ _ _ _ _ _).
    destruct (recomputeOrbitItem item1 (elapsedTime (Orbit.init layers)) h)
      as [item2 h2] eqn:Hre.
    exists item2. simpl. split.
    + apply list_lookup_insert_eq. by eapply lookup_lt_Some.
    + intros Hr.
      assert (Hnan : currentAngle item1 h = NaN)
        by by apply (currentAngle_missing_center item1 h v).
      pose proof (recomputeOrbitItem_NaN item1 (elapsedTime (Orbit.init layers)) h Hnan)
        as HN.
      rewrite Hre in HN. simpl in HN.
      by destruct (HN Hr) as (Hb & _ & Hx & Hy).
Qed.

(** The orbit item of the sample layer, recomputed after one second. *)
Lemma recompute_reads_missing_center_witness :
  match createOrbitItem Samples.planet ∅ with
  | Some item =>
      basePhase (recomputeOrbitItem item 1 Samples.blank).1 = NaN /\
      angle_at (recomputeOrbitItem item 1 Samples.blank).1 1 = NaN /\
      Pixi.x ((recomputeOrbitItem item 1 Samples.blank).2 (sprite item)) = NaN /\
      Pixi.y ((recomputeOrbitItem item 1 Samples.blank).2 (sprite item)) = NaN
  | None => False
  end.
Proof.
  destruct (createOrbitItem Samples.planet ∅) as [item|] eqn:Hc.
  - destruct recompute_reads_missing_center as (_ & _ & Hre & _).
    exact (Hre Samples.planet ∅ item 1 Samples.blank Hc).
  - destruct planet_created as [item Hitem]. congruence.
Defined.

End OrbitItems.

(** ** Orbit: the border projection *)

Section BorderFacts.
Import CoreMath Utils Orbit BorderSpec.

Lemma elem_of_guarded {A} (b : bool) (c d : A) :
  c ∈ (if b then [d] else []) <-> b = true /\ c = d.
Proof.
  destruct b.
  - rewrite list_elem_of_singleton. split; [by intros -> | by intros [_ ->]].
  - split; [intros Hc; by apply elem_of_nil in Hc | by intros [[=] _]].
Qed.

Lemma guard3 (P Q S : Prop) `{!Decision P, !Decision Q, !Decision S} :
  bool_decide P && bool_decide Q && bool_decide S = true <-> P /\ Q /\ S.
Proof. rewrite !andb_true_iff, !bool_decide_eq_true. tauto. Qed.

Lemma insert_by_t_elem c d l : d ∈ insert_by_t c l <-> d = c \/ d ∈ l.
Proof.
  induction l as [|e l IH]; simpl.
  - rewrite list_elem_of_singleton, elem_of_nil. tauto.
  - destruct (decide (t c <= t e)).
    + rewrite !elem_of_cons. tauto.
    + rewrite !elem_of_cons, IH. tauto.
Qed.

Lemma sort_by_t_elem d l : d ∈ sort_by_t l <-> d ∈ l.
Proof.
  induction l as [|c l IH]; simpl; [done|].
  rewrite insert_by_t_elem, elem_of_cons, IH. tauto.
Qed.

Lemma insert_by_t_least c l : head_least l -> head_least (insert_by_t c l).
Proof.
  destruct l as [|e l]; simpl.
  - intros _ d Hd. apply list_elem_of_singleton in Hd as ->. lra.
  - intros He. destruct (decide (t c <= t e)) as [Hlt|Hge].
    + intros d Hd. apply elem_of_cons in Hd as [->|Hd]; [lra|].
      specialize (He d Hd). lra.
    + intros d Hd. apply elem_of_cons in Hd as [->|Hd]; [lra|].
      apply insert_by_t_elem in Hd as [->|Hd]; [lra|].
      apply He. by right.
Qed.

Lemma sort_by_t_least l : head_least (sort_by_t l).
Proof.
  induction l as [|c l IH]; simpl; [done|]. by apply insert_by_t_least.
Qed.

(** The first candidate after the sort is one of the candidates, and none
    has a smaller parameter. *)
Lemma sort_by_t_first l first rest :
  sort_by_t l = first :: rest ->
  first ∈ l /\ forall d, d ∈ l -> t first <= t d.
Proof.
  intros Hs. split.
  - apply sort_by_t_elem. rewrite Hs. by left.
  - intros d Hd. pose proof (sort_by_t_least l) as Hl. rewrite Hs in Hl.
    apply Hl. rewrite <- Hs. by apply sort_by_t_elem.
Qed.

Lemma sort_by_t_nil l : sort_by_t l = [] -> l = [].
Proof.
  destruct l as [|c l]; [done|]. intros Hs.
  assert (Hc : c ∈ sort_by_t (c :: l)) by (apply sort_by_t_elem; by left).
  rewrite Hs in Hc. by apply elem_of_nil in Hc.
Qed.

Section Candidates.
Variables centerX centerY pointX pointY width height : R.

Local Abbreviation dx := (pointX - centerX).
Local Abbreviation dy := (pointY - centerY).
Local Abbreviation candidates := (candidates_of centerX centerY pointX pointY width height).

(** The candidates are the valid intersections, for the reading with the
    threshold. *)
Lemma candidates_valid c :
  c ∈ candidates <->
  valid code_crosses centerX centerY pointX pointY width height
        (t c) {| x := cand_x c; y := cand_y c |}.
Proof.
  unfold candidates_of, vertical_candidates, horizontal_candidates,
    valid, hit, code_crosses.
  rewrite elem_of_app. destruct c as [tc xc yc]. simpl.
  split.
  - intros [Hv|Hh].
    + destruct (decide (Rabs dx > epsilon)) as [Hdx|]; [|by apply elem_of_nil in Hv].
      apply elem_of_app in Hv as [Hv|Hv];
        apply elem_of_guarded in Hv as [Hg [= -> -> ->]];
        apply guard3 in Hg as (? & ? & ?);
        (split; [|done]); [left | right; left]; split_and!; (done || lra).
    + destruct (decide (Rabs dy > epsilon)) as [Hdy|]; [|by apply elem_of_nil in Hh].
      apply elem_of_app in Hh as [Hh|Hh];
        apply elem_of_guarded in Hh as [Hg [= -> -> ->]];
        apply guard3 in Hg as (? & ? & ?);
        (split; [|done]); [right; right; left | right; right; right];
        split_and!; (done || lra).
  - intros [[Hhit|[Hhit|[Hhit|Hhit]]] Hpos];
      destruct Hhit as (Hcross & -> & [= -> ->] & Hlo & Hhi); simpl in *.
    + left. rewrite decide_True by done. apply elem_of_app. left.
      apply elem_of_guarded. split; [|done]. apply guard3. split_and!; lra.
    + left. rewrite decide_True by done. apply elem_of_app. right.
      apply elem_of_guarded. split; [|done]. apply guard3. split_and!; lra.
    + right. rewrite decide_True by done. apply elem_of_app. left.
      apply elem_of_guarded. split; [|done]. apply guard3. split_and!; lra.
    + right. rewrite decide_True by done. apply elem_of_app. right.
      apply elem_of_guarded. split; [|done]. apply guard3. split_and!; lra.
Qed.

Lemma valid_candidate t0 q :
  valid code_crosses centerX centerY pointX pointY width height t0 q ->
  exists c, c ∈ candidates /\ t c = t0.
Proof.
  intros Hv. exists {| t := t0; cand_x := x q; cand_y := y q |}.
  split; [|done]. apply candidates_valid. simpl. by destruct q.
Qed.

(** An outside point that is not the center. *)
Lemma projectToRectBorder_outside :
  ~ inside pointX pointY width height ->
  dx <> 0 \/ dy <> 0 ->
  projectToRectBorder centerX centerY pointX pointY width height
  = match sort_by_t candidates with
    | [] => clamped pointX pointY width height
    | first :: _ => {| x := cand_x first; y := cand_y first |}
    end.
Proof.
  intros Hout Hdir. unfold projectToRectBorder.
  assert (Hin : bool_decide (pointX >= 0) && bool_decide (pointX <= width)
                && bool_decide (pointY >= 0) && bool_decide (pointY <= height) = false).
  { apply not_true_is_false. rewrite !andb_true_iff, !bool_decide_eq_true.
    intros [[[? ?] ?] ?]. apply Hout. unfold inside. lra. }
  rewrite Hin.
  assert (Hz : bool_decide (dx = 0) && bool_decide (dy = 0) = false).
  { apply not_true_is_false. rewrite andb_true_iff, !bool_decide_eq_true. tauto. }
  by rewrite Hz.
Qed.

Lemma projectToRectBorder_code_projection :
  dx <> 0 \/ dy <> 0 ->
  projection code_crosses centerX centerY pointX pointY width height
    (projectToRectBorder centerX centerY pointX pointY width height).
Proof.
  intros Hdir. split.
  - intros [[? ?] [? ?]]. by apply projectToRectBorder_inside.
  - intros Hout. rewrite projectToRectBorder_outside by done.
    destruct (sort_by_t candidates) as [|first rest] eqn:Hs.
    + right. split; [|done]. intros t0 q Hv.
      apply valid_candidate in Hv as (c & Hc & _).
      apply sort_by_t_nil in Hs. rewrite Hs in Hc. by apply elem_of_nil in Hc.
    + left. apply sort_by_t_first in Hs as [Hin Hleast].
      exists (t first). split; [by apply candidates_valid|].
      intros t' q' Hv. apply valid_candidate in Hv as (c & Hc & <-). by apply Hleast.
Qed.

End Candidates.

(** The two readings agree when they agree on the two components of the
    direction. *)
Lemma projection_ext (c1 c2 : R -> Prop) cx cy px py w h q :
  (c1 (px - cx) <-> c2 (px - cx)) ->
  (c1 (py - cy) <-> c2 (py - cy)) ->
  projection c1 cx cy px py w h q -> projection c2 cx cy px py w h q.
Proof.
  intros Hx Hy.
  assert (Hv : forall t0 q0, valid c1 cx cy px py w h t0 q0 <-> valid c2 cx cy px py w h t0 q0).
  { intros t0 q0. unfold valid, hit. simpl. tauto. }
  intros [Hin Hout]. split; [done|].
  intros Hno. destruct (Hout Hno) as [(t0 & Ht & Hleast)|[Hnone ->]].
  - left. exists t0. split; [by apply Hv|].
    intros t' q' Hv'. apply (Hleast t' q'). by apply Hv.
  - right. split; [|done]. intros t0 q0 Hv0. apply (Hnone t0 q0). by apply Hv.
Qed.

Lemma epsilon_pos : epsilon > 0.
Proof. unfold epsilon. lra. Qed.

Lemma crosses_agree d :
  d = 0 \/ Rabs d > epsilon -> (code_crosses d <-> spec_crosses d).
Proof.
  pose proof epsilon_pos as He. unfold code_crosses, spec_crosses.
  intros [->|Hd].
  - rewrite Rabs_R0. split; [lra | done].
  - split; [|done]. intros _ ->. rewrite Rabs_R0 in Hd. lra.
Qed.

(** The tests of [projectToRectBorder] on given numbers. *)
Ltac decide_numbers :=
  unfold epsilon;
  repeat match goal with
  | |- context [bool_decide ?P] =>
      first [ rewrite (bool_decide_eq_true_2 P)
                by (unfold Rabs; repeat destruct (Rcase_abs _); lra)
            | rewrite (bool_decide_eq_false_2 P)
                by (unfold Rabs; repeat destruct (Rcase_abs _); lra) ]
  | |- context [decide ?P] =>
      first [ rewrite (decide_True (P := P))
                by (unfold Rabs; repeat destruct (Rcase_abs _); lra)
            | rewrite (decide_False (P := P))
                by (unfold Rabs; repeat destruct (Rcase_abs _); lra) ]
  end.

Lemma projectToRectBorder_above :
  projectToRectBorder 512 512 512 (-100) 1024 1024 = {| x := 512; y := 0 |}.
Proof.
  unfold projectToRectBorder, candidates_of, vertical_candidates, horizontal_candidates.
  decide_numbers. simpl. f_equal. lra.
Qed.

Lemma projectToRectBorder_near_left_edge :
  projectToRectBorder (1 / 10000000) 512 (-4 / 10000000) 600 1024 1024
  = {| x := 1 / 10000000 + (1024 - 512) / (600 - 512) * (-4 / 10000000 - 1 / 10000000);
       y := 1024 |}.
Proof.
  unfold projectToRectBorder, candidates_of, vertical_candidates, horizontal_candidates.
  decide_numbers. done.
Qed.

(** C1, as stated, fails for a direction with a component of at most
    [epsilon]: from the center (0.0000001, 512) towards the point
    (-0.0000004, 600), the ray meets the left edge at parameter 0.2, and
    the code, which skips the left and right edges, returns the
    intersection with the bottom edge. *)
Lemma border_projection_skips_near_edge :
  ~ projection spec_crosses (1 / 10000000) 512 (-4 / 10000000) 600 1024 1024
      (projectToRectBorder (1 / 10000000) 512 (-4 / 10000000) 600 1024 1024).
Proof.
  rewrite projectToRectBorder_near_left_edge. intros [_ Hout].
  assert (Hleft : valid spec_crosses (1 / 10000000) 512 (-4 / 10000000) 600 1024 1024
                    (2 / 10) {| x := 0; y := 512 + 2 / 10 * (600 - 512) |}).
  { split; [|lra]. left. unfold spec_crosses. simpl. split_and!; try lra.
    f_equal. }
  destruct Hout as [(t0 & [Hhit Hpos] & Hleast)|[Hnone _]].
  - unfold inside. lra.
  - specialize (Hleast _ _ Hleft).
    destruct Hhit as [Hh|[Hh|[Hh|Hh]]];
      destruct Hh as (_ & Ht & Hq & _); injection Hq; intros; lra.
  - by apply (Hnone _ _ Hleft).
Qed.

(** C1, amended.  A point inside the rectangle is returned unchanged.
    For an outside point other than the center the result is the
    projection of the reference algorithm read with the threshold of the
    code: an intersection with the left and right edges is computed only
    when [|dx| > epsilon], one with the top and bottom edges only when
    [|dy| > epsilon].  When each component is 0 or beyond the threshold
    this is the reference algorithm itself.  An outside point that is the
    center is returned as it is.  With the center (512, 512), the point
    (512, 50) is unchanged at radius 462, and (512, -100) is projected to
    (512, 0) at radius 512. *)
Theorem border_projection :
  (forall cx cy px py w h,
     0 <= px <= w -> 0 <= py <= h ->
     projectToRectBorder cx cy px py w h = {| x := px; y := py |}) /\
  (forall cx cy px py w h,
     px - cx <> 0 \/ py - cy <> 0 ->
     projection code_crosses cx cy px py w h (projectToRectBorder cx cy px py w h)) /\
  (forall cx cy px py w h,
     px - cx <> 0 \/ py - cy <> 0 ->
     px - cx = 0 \/ Rabs (px - cx) > epsilon ->
     py - cy = 0 \/ Rabs (py - cy) > epsilon ->
     projection spec_crosses cx cy px py w h (projectToRectBorder cx cy px py w h)) /\
  (forall cx cy w h,
     ~ inside cx cy w h ->
     projectToRectBorder cx cy cx cy w h = {| x := cx; y := cy |}) /\
  (projectToRectBorder 512 512 512 50 1024 1024 = {| x := 512; y := 50 |} /\
   hypot (512 - 512) (50 - 512) = 462) /\
  (projectToRectBorder 512 512 512 (-100) 1024 1024 = {| x := 512; y := 0 |} /\
   hypot (512 - 512) (0 - 512) = 512).
Proof.
  split_and!.
  - intros cx cy px py w h [? ?] [? ?]. by apply projectToRectBorder_inside.
  - intros. by apply projectToRectBorder_code_projection.
  - intros cx cy px py w h Hdir Hx Hy.
    apply (projection_ext code_crosses); [by apply crosses_agree..|].
    by apply projectToRectBorder_code_projection.
  - intros cx cy w h Hout. unfold projectToRectBorder.
    assert (Hin : bool_decide (cx >= 0) && bool_decide (cx <= w)
                  && bool_decide (cy >= 0) && bool_decide (cy <= h) = false).
    { apply not_true_is_false. rewrite !andb_true_iff, !bool_decide_eq_true.
      intros [[[? ?] ?] ?]. apply Hout. unfold inside. lra. }
    rewrite Hin. rewrite !bool_decide_eq_true_2 by lra. done.
  - apply projectToRectBorder_inside; lra.
  - replace (512 - 512) with 0 by lra. rewrite hypot_vertical.
    unfold Rabs. destruct (Rcase_abs _); lra.
  - apply projectToRectBorder_above.
  - replace (512 - 512) with 0 by lra. rewrite hypot_vertical.
    unfold Rabs. destruct (Rcase_abs _); lra.
Qed.

(** The point above the stage, read with the specification. *)
Lemma border_projection_witness :
  projection spec_crosses 512 512 512 (-100) 1024 1024
    (projectToRectBorder 512 512 512 (-100) 1024 1024).
Proof.
  destruct border_projection as (_ & _ & Hspec & _).
  apply Hspec.
  - right. lra.
  - left. lra.
  - right. unfold epsilon, Rabs. destruct (Rcase_abs _); lra.
Defined.

End BorderFacts.

(** ** Effect: the fade *)

Section FadeFacts.
Import CoreMath Effect.

Lemma Rtrunc_unit r : 0 <= r < 1 -> Rtrunc r = 0%Z.
Proof.
  intros [H0 H1]. unfold Rtrunc. rewrite decide_True by done.
  symmetry. apply Int_part_spec. simpl. lra.
Qed.

Lemma Rtrunc_succ r : 0 <= r -> Rtrunc (r + 1) = (Rtrunc r + 1)%Z.
Proof.
  intros H0. unfold Rtrunc. rewrite !decide_True by lra.
  symmetry. apply Int_part_spec. rewrite plus_IZR.
  destruct (base_Int_part r) as [Hle Hgt]. simpl. lra.
Qed.

Lemma div_nonneg a b : 0 <= a -> 0 < b -> 0 <= a / b.
Proof. intros. unfold Rdiv. by apply Rle_mult_inv_pos. Qed.

Lemma div_lt_1 a b : a < b -> 0 < b -> a / b < 1.
Proof.
  intros Hab Hb. apply (Rmult_lt_reg_r b); [done|].
  replace (a / b * b) with a by (field; lra). lra.
Qed.

Lemma fmod_small a b : 0 <= a < b -> fmod a b = a.
Proof.
  intros [H0 Hb]. unfold fmod. rewrite Rtrunc_unit; [simpl; lra|].
  split; [apply div_nonneg | apply div_lt_1]; lra.
Qed.

Lemma fmod_period a b : 0 <= a -> 0 < b -> fmod (a + b) b = fmod a b.
Proof.
  intros H0 Hb. unfold fmod.
  replace ((a + b) / b) with (a / b + 1) by (field; lra).
  rewrite Rtrunc_succ by (apply div_nonneg; lra).
  rewrite plus_IZR. simpl. lra.
Qed.

Lemma calculateFadeProgress_positive elapsed durationMs loop :
  durationMs > 0 ->
  calculateFadeProgress elapsed durationMs loop
  = let phase := fmod elapsed (durationMs / 1000) / (durationMs / 1000) in
    if loop then pingpong phase else phase.
Proof.
  intros Hd. unfold calculateFadeProgress. rewrite decide_False by lra. done.
Qed.

Lemma calculateFadeProgress_period elapsed durationMs loop :
  0 <= elapsed -> durationMs > 0 ->
  calculateFadeProgress (elapsed + durationMs / 1000) durationMs loop
  = calculateFadeProgress elapsed durationMs loop.
Proof.
  intros He Hd. rewrite !calculateFadeProgress_positive by done.
  simpl. by rewrite fmod_period by lra.
Qed.

Lemma calculateFadeProgress_rise elapsed durationMs :
  durationMs > 0 -> 0 <= elapsed <= durationMs / 1000 / 2 ->
  calculateFadeProgress elapsed durationMs true = 2 * (elapsed / (durationMs / 1000)).
Proof.
  intros Hd [H0 Hhalf]. rewrite calculateFadeProgress_positive by done. simpl.
  rewrite fmod_small by lra. unfold pingpong.
  assert (Hle : elapsed / (durationMs / 1000) <= 5 / 10).
  { apply (Rmult_le_reg_r (durationMs / 1000)); [lra|].
    replace (elapsed / (durationMs / 1000) * (durationMs / 1000)) with elapsed
      by (field; lra). lra. }
  rewrite decide_False by lra. lra.
Qed.

Lemma calculateFadeProgress_fall elapsed durationMs :
  durationMs > 0 -> durationMs / 1000 / 2 < elapsed < durationMs / 1000 ->
  calculateFadeProgress elapsed durationMs true = 2 - 2 * (elapsed / (durationMs / 1000)).
Proof.
  intros Hd [Hhalf HT]. rewrite calculateFadeProgress_positive by done. simpl.
  rewrite fmod_small by lra. unfold pingpong.
  assert (Hgt : elapsed / (durationMs / 1000) > 5 / 10).
  { apply (Rmult_lt_reg_r (durationMs / 1000)); [lra|].
    replace (elapsed / (durationMs / 1000) * (durationMs / 1000)) with elapsed
      by (field; lra). lra. }
  rewrite decide_True by lra. lra.
Qed.

(** C5.  The phase of a fade is computed from the elapsed time modulo
    the duration whatever the loop flag, in [calculateFadeProgress] and
    in the fade branch of the tick alike, so it repeats with the period
    of the duration, looped or not.  With the loop flag the phase is
    ping-ponged: it rises to 1 at the middle of the period and falls
    back.  For a duration of 1000 ms the phase at 0 s, 0.5 s and 1 s is
    0, 1 and 0, and so is the alpha of a linear fade from 0 to 1. *)
Theorem fade_phase :
  (forall elapsed durationMs,
     durationMs > 0 ->
     calculateFadeProgress elapsed durationMs false
     = fmod elapsed (durationMs / 1000) / (durationMs / 1000)) /\
  (forall elapsed durationMs loop,
     0 <= elapsed -> durationMs > 0 ->
     calculateFadeProgress (elapsed + durationMs / 1000) durationMs loop
     = calculateFadeProgress elapsed durationMs loop) /\
  (forall elapsed pointerX pointerY a from to durationMs loop easing,
     durationMs > 0 ->
     acc_alpha (applyEffect elapsed pointerX pointerY a (Fade from to durationMs loop easing))
     = from + (to - from) * applyEasing (calculateFadeProgress elapsed durationMs loop) easing) /\
  (forall elapsed durationMs,
     durationMs > 0 -> 0 <= elapsed <= durationMs / 1000 / 2 ->
     calculateFadeProgress elapsed durationMs true = 2 * (elapsed / (durationMs / 1000))) /\
  (forall elapsed durationMs,
     durationMs > 0 -> durationMs / 1000 / 2 < elapsed < durationMs / 1000 ->
     calculateFadeProgress elapsed durationMs true = 2 - 2 * (elapsed / (durationMs / 1000))) /\
  (calculateFadeProgress 0 1000 true = 0 /\
   calculateFadeProgress (1 / 2) 1000 true = 1 /\
   calculateFadeProgress 1 1000 true = 0) /\
  (forall pointerX pointerY a,
     acc_alpha (applyEffect 0 pointerX pointerY a (Fade 0 1 1000 true linear)) = 0 /\
     acc_alpha (applyEffect (1 / 2) pointerX pointerY a (Fade 0 1 1000 true linear)) = 1 /\
     acc_alpha (applyEffect 1 pointerX pointerY a (Fade 0 1 1000 true linear)) = 0).
Proof.
  assert (Htick : forall elapsed pointerX pointerY a from to durationMs loop easing,
     durationMs > 0 ->
     acc_alpha (applyEffect elapsed pointerX pointerY a (Fade from to durationMs loop easing))
     = from + (to - from) * applyEasing (calculateFadeProgress elapsed durationMs loop) easing).
  { intros elapsed pointerX pointerY a from to durationMs loop easing Hd.
    rewrite calculateFadeProgress_positive by done.
    unfold applyEffect. rewrite decide_False by lra.
    by destruct loop, easing. }
  assert (H0 : calculateFadeProgress 0 1000 true = 0).
  { rewrite calculateFadeProgress_rise by lra. lra. }
  assert (Hmid : calculateFadeProgress (1 / 2) 1000 true = 1).
  { rewrite calculateFadeProgress_rise by lra. lra. }
  assert (H1 : calculateFadeProgress 1 1000 true = 0).
  { replace 1 with (0 + 1000 / 1000) at 1 by lra.
    rewrite calculateFadeProgress_period by lra. exact H0. }
  split_and!; try done.
  - intros. by rewrite calculateFadeProgress_positive.
  - intros. by apply calculateFadeProgress_period.
  - intros. by apply calculateFadeProgress_rise.
  - intros. by apply calculateFadeProgress_fall.
  - intros pointerX pointerY a. rewrite !Htick by lra. rewrite H0, Hmid, H1. simpl.
    split_and!; lra.
Qed.

(** An unlooped fade of 2 seconds, a quarter into its second period. *)
Lemma fade_phase_witness :
  calculateFadeProgress (1 / 2 + 2000 / 1000) 2000 false
  = calculateFadeProgress (1 / 2) 2000 false.
Proof.
  destruct fade_phase as (_ & Hperiod & _).
  apply Hperiod; lra.
Defined.

End FadeFacts.

(** ** Effect: the alpha written to a drawable *)

Section AlphaFacts.
Import CoreMath Effect.


(** The alpha of a fading shockwave is not clamped, and stays in range. *)
Lemma shockAlpha_range elapsed T : 6 / 10 <= shockAlpha elapsed T <= 1.
Proof.
  unfold shockAlpha.
  destruct (COS_bound (PI * (fmod elapsed T / T))) as [Hlo Hhi]. lra.
Qed.









(** The two branches that create an aura throw, and the others leave
    the scene and the auras of the item as they are. *)
Lemma addAdvanced_result layer baseScale0 item st effect :
  if creates_aura effect
  then addAdvanced layer baseScale0 (item, st) effect = None
  else exists item',
         addAdvanced layer baseScale0 (item, st) effect = Some (item', st) /\
         auras item' = auras item.
Proof. destruct effect; simpl; eauto. Qed.

Lemma addAllAdvanced_result layer baseScale0 item st effects :
  match addAllAdvanced layer baseScale0 (item, st) effects with
  | None => exists effect, effect ∈ effects /\ creates_aura effect = true
  | Some (item', st') =>
      st' = st /\ auras item' = auras item /\
      Forall (fun effect => creates_aura effect = false) effects
  end.
Proof.
  revert item. induction effects as [|effect effects IH]; intros item; [done|].
  cbn [addAllAdvanced].
  pose proof (addAdvanced_result layer baseScale0 item st effect) as Hone.
  destruct (creates_aura effect) eqn:Haura.
  - rewrite Hone. exists effect. split; [by left | done].
  - destruct Hone as (item1 & -> & Hauras).
    specialize (IH item1).
    destruct (addAllAdvanced layer baseScale0 (item1, st) effects) as [[item' st']|].
    + destruct IH as (-> & Hsame & Hall). split_and!; [done | congruence | by constructor].
    + destruct IH as (e & He & Hc). exists e. split; [by right | done].
Qed.

Lemma creates_aura_advanced effect : creates_aura effect = true -> is_advanced effect = true.
Proof. by destruct effect. Qed.

Lemma advanced_of_layer cfg effect :
  effect ∈ List.filter is_advanced (parseEffects cfg) <->
  effect ∈ parseEffects cfg /\ is_advanced effect = true.
Proof. by rewrite !list_elem_of_In, filter_In. Qed.

(** [buildAdvancedEffects] throws exactly when a layer has an effect
    that creates an aura; when it returns, the scene is as before and no
    item has an aura. *)
Lemma buildAdvancedLoop_result i (layers : list BuiltLayer) st :
  match buildAdvancedLoop i layers st with
  | None =>
      exists layer effect,
        layer ∈ layers /\ effect ∈ parseEffects (layer_cfg layer) /\
        creates_aura effect = true
  | Some (items, st') =>
      st' = st /\
      Forall (fun item => auras item = []) items /\
      forall layer effect,
        layer ∈ layers -> effect ∈ parseEffects (layer_cfg layer) ->
        creates_aura effect = false
  end.
Proof.
  revert i. induction layers as [|layer layers IH]; intros i.
  - simpl. split_and!; [done | constructor |]. intros layer effect Hin. by apply elem_of_nil in Hin.
  - cbn [buildAdvancedLoop].
    pose proof (advanced_of_layer (layer_cfg layer)) as Hmem.
    destruct (List.filter is_advanced (parseEffects (layer_cfg layer))) as [|e es] eqn:Hf.
    + specialize (IH (S i)).
      destruct (buildAdvancedLoop (S i) layers st) as [[items st']|].
      * destruct IH as (-> & Hauras & Hnone). split_and!; [done..|].
        intros l effect Hl He. apply elem_of_cons in Hl as [-> | Hl]; [|by eapply Hnone].
        destruct (creates_aura effect) eqn:Hc; [|done].
        exfalso. assert (Hin : effect ∈ []) by (apply Hmem; split; [done|];
          by apply creates_aura_advanced).
        by apply elem_of_nil in Hin.
      * destruct IH as (l & effect & Hl & He & Hc). exists l, effect. split_and!; [by right|done..].
    + pose proof (addAllAdvanced_result layer (layer_baseScale layer)
                    {| adv_spriteIdx := i; auras := []; distort := None; shock := None |}
                    st (e :: es)) as Hall.
      destruct (addAllAdvanced layer (layer_baseScale layer) _ (e :: es)) as [[item st1]|].
      * destruct Hall as (-> & Hauras & Hnoaura). simpl in Hauras.
        specialize (IH (S i)).
        destruct (buildAdvancedLoop (S i) layers st) as [[items st']|].
        -- destruct IH as (-> & Hall & Hnone).
           assert (Hlayers : forall l effect,
                     l ∈ layer :: layers -> effect ∈ parseEffects (layer_cfg l) ->
                     creates_aura effect = false).
           { intros l effect Hl He. apply elem_of_cons in Hl as [-> | Hl]; [|by eapply Hnone].
             destruct (creates_aura effect) eqn:Hc; [|done].
             assert (Hin : effect ∈ e :: es)
               by (apply Hmem; split; [done|]; by apply creates_aura_advanced).
             rewrite Forall_forall in Hnoaura. by rewrite (Hnoaura _ Hin) in Hc. }
           destruct (auras item) eqn:Ha; [|done].
           destruct (distort item), (shock item); split_and!;
             (done || (constructor; done)).
        -- destruct IH as (l & effect & Hl & He & Hc).
           exists l, effect. split_and!; [by right|done..].
      * destruct Hall as (effect & He & Hc). exists layer, effect.
        split_and!; [by left | by apply Hmem in He as [? _] | done].
Qed.



End AlphaFacts.

(** * Further properties of the modules *)

(** ** CORE/math: angles, clamping, vectors *)

Section MathFacts.
Import CoreMath Utils.

Lemma Rtrunc_nonneg r : 0 <= r -> IZR (Rtrunc r) <= r < IZR (Rtrunc r) + 1.
Proof.
  intros Hr. unfold Rtrunc. rewrite decide_True by done.
  destruct (base_Int_part r). lra.
Qed.

Lemma Rtrunc_nonpos r : r <= 0 -> r <= IZR (Rtrunc r) < r + 1.
Proof.
  intros Hr. unfold Rtrunc. destruct (decide (0 <= r)) as [H0|H0].
  - assert (r = 0) as -> by lra.
    rewrite <- (Int_part_spec 0 0) by (simpl; lra). simpl. lra.
  - rewrite opp_IZR. destruct (base_Int_part (- r)). lra.
Qed.

(** The remainder has the sign of the dividend and is smaller than the
    divisor. *)
Lemma fmod_nonneg a b : 0 <= a -> 0 < b -> 0 <= fmod a b < b.
Proof.
  intros Ha Hb. unfold fmod.
  assert (Hq : 0 <= a / b) by (apply div_nonneg; lra).
  destruct (Rtrunc_nonneg _ Hq) as [Hlo Hhi].
  assert (Ha' : a = a / b * b) by (field; lra).
  set (q := a / b) in *. set (k := IZR (Rtrunc q)) in *. nra.
Qed.

Lemma fmod_nonpos a b : a <= 0 -> 0 < b -> - b < fmod a b <= 0.
Proof.
  intros Ha Hb. unfold fmod.
  assert (Hq : a / b <= 0).
  { apply (Rmult_le_reg_r b); [done|].
    replace (a / b * b) with a by (field; lra). lra. }
  destruct (Rtrunc_nonpos _ Hq) as [Hlo Hhi].
  assert (Ha' : a = a / b * b) by (field; lra).
  set (q := a / b) in *. set (k := IZR (Rtrunc q)) in *. nra.
Qed.

Lemma fmod_bounds a b : 0 < b -> - b < fmod a b < b.
Proof.
  intros Hb. destruct (Rle_dec 0 a).
  - pose proof (fmod_nonneg a b). lra.
  - pose proof (fmod_nonpos a b). lra.
Qed.

(** Two numbers of [[0, b)] that differ by a multiple of [b] are equal. *)
Lemma canonical_unique b u v (k : Z) :
  0 < b -> 0 <= u < b -> 0 <= v < b -> u = v + b * IZR k -> u = v.
Proof.
  intros Hb Hu Hv Heq.
  assert (Hk : (-1 < k < 1)%Z).
  { split; apply lt_IZR; simpl; nra. }
  assert (k = 0%Z) as -> by lia. simpl in Heq. lra.
Qed.

(** Degrees to radians and back is the identity, both ways. *)
Lemma degrees_radians_round_trip :
  (forall deg, toDeg (toRad deg) = deg) /\
  (forall rad, toRad (toDeg rad) = rad).
Proof.
  pose proof PI_neq0.
  split; intros; unfold toDeg, toRad; field; done.
Qed.

(** X1.  [clamp] returns a number between the bounds when they are in
    order, and the lower bound when they are not; it leaves a number
    between the bounds as it is, so clamping twice is clamping once; and
    it preserves the order of its arguments. *)
Theorem clamp_bounds :
  (forall n lo hi, lo <= hi -> lo <= clamp n lo hi <= hi) /\
  (forall n lo hi, hi < lo -> clamp n lo hi = lo) /\
  (forall n lo hi, lo <= n <= hi -> clamp n lo hi = n) /\
  (forall n lo hi, clamp (clamp n lo hi) lo hi = clamp n lo hi) /\
  (forall n m lo hi, n <= m -> clamp n lo hi <= clamp m lo hi).
Proof.
  split_and!; intros; unfold clamp, Rmax, Rmin;
    repeat destruct (Rle_dec _ _); lra.
Qed.

(** A percentage and its clamped value. *)
Lemma clamp_bounds_witness : clamp 130 0 100 <= clamp 250 0 100.
Proof.
  destruct clamp_bounds as (_ & _ & _ & _ & Hmono).
  apply Hmono. lra.
Defined.

(** X2.  [normDeg] returns the angle of [[0, 360)] that differs from its
    argument by whole turns, for negative arguments too; angles that
    differ by whole turns have the same normal form. *)
Theorem normDeg_canonical :
  (forall deg, 0 <= normDeg deg < 360) /\
  (forall deg, exists k : Z, normDeg deg = deg + 360 * IZR k) /\
  (forall deg (n : Z), normDeg (deg + 360 * IZR n) = normDeg deg).
Proof.
  assert (Hrange : forall deg, 0 <= normDeg deg < 360).
  { intros deg. unfold normDeg.
    pose proof (fmod_bounds deg 360 ltac:(lra)).
    destruct (decide _); lra. }
  assert (Hcong : forall deg, exists k : Z, normDeg deg = deg + 360 * IZR k).
  { intros deg. unfold normDeg, fmod. destruct (decide _).
    - exists (1 - Rtrunc (deg / 360))%Z. rewrite minus_IZR. simpl. lra.
    - exists (- Rtrunc (deg / 360))%Z. rewrite opp_IZR. lra. }
  split_and!; [done..|].
  intros deg n.
  destruct (Hcong (deg + 360 * IZR n)) as [k Hk].
  destruct (Hcong deg) as [k' Hk'].
  apply (canonical_unique 360 _ _ (k + n - k')); [lra|done..|].
  rewrite minus_IZR, plus_IZR. lra.
Qed.

(** X3.  [rotateVec] composes by adding the angles, the angle 0 is the
    identity, and a rotation keeps the distance between two points. *)
Theorem rotateVec_isometry :
  (forall v a b, rotateVec (rotateVec v a) b = rotateVec v (a + b)) /\
  (forall v, rotateVec v 0 = v) /\
  (forall p q a,
     distance (x (rotateVec p a)) (y (rotateVec p a))
              (x (rotateVec q a)) (y (rotateVec q a))
     = distance (x p) (y p) (x q) (y q)).
Proof.
  split_and!.
  - intros [vx vy] a b. unfold rotateVec. simpl.
    rewrite cos_plus, sin_plus. f_equal; ring.
  - intros [vx vy]. unfold rotateVec. simpl.
    rewrite cos_0, sin_0. f_equal; ring.
  - intros [px py] [qx qy] a. unfold rotateVec, distance. simpl. f_equal.
    pose proof (sin2_cos2 a) as H. unfold Rsqr in H.
    set (c := Rtrigo_def.cos a) in *. set (s := Rtrigo_def.sin a) in *.
    transitivity (((qx - px) * (qx - px) + (qy - py) * (qy - py)) * (s * s + c * c));
      [ring | rewrite H; ring].
Qed.

Lemma sqrt_sum_squares_zero a b : sqrt (a * a + b * b) = 0 -> a = 0 /\ b = 0.
Proof.
  intros H. apply sqrt_eq_0 in H; [|nra]. split; nra.
Qed.

(** X4.  [distance] is a metric on the plane: it is not negative, it is
    0 for equal points only, it is symmetric, and it satisfies the
    triangle inequality. *)
Theorem distance_metric :
  (forall x1 y1 x2 y2, 0 <= distance x1 y1 x2 y2) /\
  (forall x1 y1 x2 y2, distance x1 y1 x2 y2 = 0 <-> x1 = x2 /\ y1 = y2) /\
  (forall x1 y1 x2 y2, distance x1 y1 x2 y2 = distance x2 y2 x1 y1) /\
  (forall x1 y1 x2 y2 x3 y3,
     distance x1 y1 x3 y3 <= distance x1 y1 x2 y2 + distance x2 y2 x3 y3).
Proof.
  split_and!.
  - intros. unfold distance. apply sqrt_pos.
  - intros x1 y1 x2 y2. unfold distance. simpl. split.
    + intros H. apply sqrt_sum_squares_zero in H. lra.
    + intros [-> ->]. replace ((x2 - x2) * (x2 - x2) + (y2 - y2) * (y2 - y2)) with 0 by ring.
      apply sqrt_0.
  - intros. unfold distance. simpl. f_equal. ring.
  - intros x1 y1 x2 y2 x3 y3. unfold distance. simpl.
    set (a := x2 - x1). set (b := y2 - y1). set (c := x3 - x2). set (d := y3 - y2).
    replace (x3 - x1) with (a + c) by (unfold a, c; ring).
    replace (y3 - y1) with (b + d) by (unfold b, d; ring).
    clearbody a b c d.
    assert (Hab : 0 <= a * a + b * b) by nra.
    assert (Hcd : 0 <= c * c + d * d) by nra.
    pose proof (sqrt_pos (a * a + b * b)) as Hsab.
    pose proof (sqrt_pos (c * c + d * d)) as Hscd.
    pose proof (sqrt_sqrt _ Hab) as Esab.
    pose proof (sqrt_sqrt _ Hcd) as Escd.
    set (u := sqrt (a * a + b * b)) in *. set (w := sqrt (c * c + d * d)) in *.
    assert (Hcs : a * c + b * d <= u * w).
    { destruct (Rle_dec (a * c + b * d) 0) as [Hneg|Hpos]; [nra|].
      apply Rnot_le_lt in Hpos.
      apply Rsqr_incr_0_var; [|nra]. unfold Rsqr.
      replace (u * w * (u * w)) with ((u * u) * (w * w)) by ring.
      rewrite Esab, Escd.
      pose proof (Rle_0_sqr (a * d - b * c)) as Hsq. unfold Rsqr in Hsq. nra. }
    clearbody u w.
    apply Rsqr_incr_0_var; [|lra].
    pose proof (Rle_0_sqr (a + c)) as Hac. pose proof (Rle_0_sqr (b + d)) as Hbd.
    unfold Rsqr in Hac, Hbd.
    rewrite Rsqr_sqrt by lra. unfold Rsqr.
    replace ((u + w) * (u + w)) with (u * u + 2 * (u * w) + w * w) by ring.
    rewrite Esab, Escd.
    replace ((a + c) * (a + c) + (b + d) * (b + d))
      with (a * a + b * b + 2 * (a * c + b * d) + (c * c + d * d)) by ring.
    lra.
Qed.

End MathFacts.

(** ** Angles and positions on a circle *)

Section PolarFacts.
Import CoreMath Utils Orbit.

Lemma distance_hypot x1 y1 x2 y2 : distance x1 y1 x2 y2 = hypot (x2 - x1) (y2 - y1).
Proof. done. Qed.

Lemma hypot_factor dx dy :
  dx <> 0 -> hypot dx dy = Rabs dx * sqrt (1 + (dy / dx)²).
Proof.
  intros Hdx. unfold hypot.
  assert (Hs : 0 < 1 + (dy / dx)²) by (pose proof (Rle_0_sqr (dy / dx)); lra).
  apply sqrt_lem_1.
  - nra.
  - apply Rmult_le_pos; [apply Rabs_pos | apply sqrt_pos].
  - transitivity ((Rabs dx * Rabs dx) * (sqrt (1 + (dy / dx)²) * sqrt (1 + (dy / dx)²)));
      [ring|].
    rewrite sqrt_sqrt by lra.
    replace (Rabs dx * Rabs dx) with (dx * dx)
      by (unfold Rabs; destruct (Rcase_abs dx); ring).
    unfold Rsqr. field. done.
Qed.

(** The point at distance [hypot dx dy] in the direction
    [atan2(dy, dx)] is [(dx, dy)]. *)
Lemma Ratan2_polar dx dy :
  dx <> 0 \/ dy <> 0 ->
  hypot dx dy * Rtrigo_def.cos (Ratan2 dy dx) = dx /\
  hypot dx dy * Rtrigo_def.sin (Ratan2 dy dx) = dy.
Proof.
  intros Hd. unfold Ratan2.
  assert (Hs : 0 < sqrt (1 + (dy / dx)²)).
  { apply sqrt_lt_R0. pose proof (Rle_0_sqr (dy / dx)). lra. }
  destruct (decide (0 < dx)) as [Hpos|Hnpos].
  - rewrite hypot_factor, cos_atan, sin_atan by lra.
    rewrite Rabs_pos_eq by lra. split; field; lra.
  - destruct (decide (dx < 0)) as [Hneg|Hnneg].
    + rewrite hypot_factor by lra.
      rewrite Rabs_left by lra.
      destruct (decide (0 <= dy)).
      * rewrite neg_cos, neg_sin, cos_atan, sin_atan. split; field; lra.
      * replace (atan (dy / dx) - PI) with (- (- atan (dy / dx) + PI)) by ring.
        rewrite cos_neg, sin_neg, neg_cos, neg_sin, cos_neg, sin_neg, cos_atan, sin_atan.
        split; field; lra.
    + assert (dx = 0) as -> by lra.
      rewrite hypot_vertical.
      destruct (decide (0 < dy)); [|destruct (decide (dy < 0))].
      * rewrite cos_PI2, sin_PI2, Rabs_pos_eq by lra. lra.
      * rewrite cos_neg, sin_neg, cos_PI2, sin_PI2, Rabs_left by lra. lra.
      * destruct Hd; lra.
Qed.

Lemma Ratan2_range y0 x0 : - PI < Ratan2 y0 x0 <= PI.
Proof.
  pose proof PI_RGT_0 as Hpi. unfold Ratan2.
  pose proof (atan_bound (y0 / x0)) as [Hlo Hhi].
  destruct (decide (0 < x0)); [lra|].
  destruct (decide (x0 < 0)) as [Hneg|].
  - destruct (decide (0 <= y0)) as [Hy|Hy].
    + assert (Hz : y0 / x0 <= 0).
      { apply (Rmult_le_reg_r (- x0)); [lra|].
        replace (y0 / x0 * - x0) with (- y0) by (field; lra). lra. }
      assert (atan (y0 / x0) <= 0).
      { destruct Hz as [Hz| ->]; [|rewrite atan_0; lra].
        apply atan_increasing in Hz. rewrite atan_0 in Hz. lra. }
      lra.
    + assert (Hz : 0 < y0 / x0).
      { apply (Rmult_lt_reg_r (- x0)); [lra|].
        replace (y0 / x0 * - x0) with (- y0) by (field; lra). lra. }
      apply atan_increasing in Hz. rewrite atan_0 in Hz. lra.
  - destruct (decide (0 < y0)); [lra|]. destruct (decide (y0 < 0)); lra.
Qed.

(** Two angles of [(-PI, PI]] with the same cosine and sine are equal. *)
Lemma angle_unique a b :
  - PI < a <= PI -> - PI < b <= PI ->
  Rtrigo_def.cos a = Rtrigo_def.cos b -> Rtrigo_def.sin a = Rtrigo_def.sin b -> a = b.
Proof.
  intros Ha Hb Hc Hs. pose proof PI_RGT_0 as Hpi.
  assert (Hsin : Rtrigo_def.sin (a - b) = 0) by (rewrite sin_minus, Hc, Hs; ring).
  assert (Hcos : Rtrigo_def.cos (a - b) = 1).
  { rewrite cos_minus, Hc, Hs. pose proof (sin2_cos2 b) as H. unfold Rsqr in H. lra. }
  destruct (sin_eq_0_0 _ Hsin) as [k Hk].
  assert (Hrange : (-2 < k < 2)%Z).
  { split; apply lt_IZR; simpl; nra. }
  assert (Hcases : k = (-1)%Z \/ k = 0%Z \/ k = 1%Z) by lia.
  destruct Hcases as [-> | [-> | ->]]; simpl in Hk.
  - rewrite Hk in Hcos. replace (-1 * PI) with (- PI) in Hcos by ring.
    rewrite cos_neg, cos_PI in Hcos. lra.
  - lra.
  - rewrite Hk in Hcos. replace (1 * PI) with PI in Hcos by ring.
    rewrite cos_PI in Hcos. lra.
Qed.

Lemma hypot_scaled r a : r > 0 -> hypot (r * Rtrigo_def.cos a) (r * Rtrigo_def.sin a) = r.
Proof.
  intros Hr. unfold hypot. apply sqrt_lem_1; [nra | lra |].
  pose proof (sin2_cos2 a) as H. unfold Rsqr in H. nra.
Qed.

Lemma Ratan2_of_polar r a :
  r > 0 -> - PI < a <= PI -> Ratan2 (r * Rtrigo_def.sin a) (r * Rtrigo_def.cos a) = a.
Proof.
  intros Hr Ha.
  assert (Hd : r * Rtrigo_def.cos a <> 0 \/ r * Rtrigo_def.sin a <> 0).
  { pose proof (sin2_cos2 a) as H. unfold Rsqr in H.
    destruct (Req_dec (Rtrigo_def.cos a) 0) as [Hc|Hc].
    - right. rewrite Hc in H. nra.
    - left. nra. }
  destruct (Ratan2_polar _ _ Hd) as [Hc Hs]. rewrite hypot_scaled in Hc, Hs by done.
  apply angle_unique; [apply Ratan2_range | done | nra | nra].
Qed.

(** X5.  [getAngleBetweenPoints] and [getOrbitPosition] are inverse to
    each other: the position at the distance and the angle of a point,
    seen from a center, is the point; and the angle of the position at a
    positive radius and an angle of [(-PI, PI]] is that angle.  The angle
    between two points is in [(-PI, PI]], and a position on an orbit is at
    the distance of the radius from the center. *)
Theorem angle_position_round_trip :
  (forall x1 y1 x2 y2,
     x2 <> x1 \/ y2 <> y1 ->
     getOrbitPosition x1 y1 (distance x1 y1 x2 y2) (getAngleBetweenPoints x1 y1 x2 y2)
     = {| x := x2; y := y2 |}) /\
  (forall cx cy r a,
     r > 0 -> - PI < a <= PI ->
     getAngleBetweenPoints cx cy (x (getOrbitPosition cx cy r a)) (y (getOrbitPosition cx cy r a))
     = a) /\
  (forall x1 y1 x2 y2, - PI < getAngleBetweenPoints x1 y1 x2 y2 <= PI) /\
  (forall cx cy r a,
     distance cx cy (x (getOrbitPosition cx cy r a)) (y (getOrbitPosition cx cy r a))
     = Rabs r).
Proof.
  split_and!.
  - intros x1 y1 x2 y2 Hd. unfold getOrbitPosition, getAngleBetweenPoints.
    rewrite distance_hypot.
    destruct (Ratan2_polar (x2 - x1) (y2 - y1)) as [Hc Hs]; [destruct Hd; [left|right]; lra|].
    rewrite Hc, Hs. f_equal; ring.
  - intros cx cy r a Hr Ha. unfold getOrbitPosition, getAngleBetweenPoints. simpl.
    replace (cy + r * Rtrigo_def.sin a - cy) with (r * Rtrigo_def.sin a) by ring.
    replace (cx + r * Rtrigo_def.cos a - cx) with (r * Rtrigo_def.cos a) by ring.
    by apply Ratan2_of_polar.
  - intros. apply Ratan2_range.
  - intros cx cy r a. unfold getOrbitPosition, distance. simpl.
    replace (cx + r * Rtrigo_def.cos a - cx) with (r * Rtrigo_def.cos a) by ring.
    replace (cy + r * Rtrigo_def.sin a - cy) with (r * Rtrigo_def.sin a) by ring.
    pose proof (sin2_cos2 a) as H. unfold Rsqr in H.
    replace (r * Rtrigo_def.cos a * (r * Rtrigo_def.cos a)
             + r * Rtrigo_def.sin a * (r * Rtrigo_def.sin a)) with (Rsqr r)
      by (unfold Rsqr; nra).
    apply sqrt_Rsqr_abs.
Qed.

(** The point (3, 4) seen from the origin. *)
Lemma angle_position_round_trip_witness :
  getOrbitPosition 0 0 (distance 0 0 3 4) (getAngleBetweenPoints 0 0 3 4)
  = {| x := 3; y := 4 |}.
Proof.
  destruct angle_position_round_trip as (Hpos & _).
  apply Hpos. left. lra.
Defined.

End PolarFacts.

(** ** SpinLUtils and OrbitUtils *)

Section UtilsFacts.
Import CoreMath Utils.

Lemma PI2_pos : 0 < PI * 2.
Proof. pose proof PI_RGT_0. lra. Qed.

Lemma normalizeRotation_range r : 0 <= SpinL.normalizeRotation r < PI * 2.
Proof.
  pose proof PI2_pos as HT. unfold SpinL.normalizeRotation.
  apply fmod_nonneg; [|done].
  pose proof (fmod_bounds r (PI * 2) HT). lra.
Qed.

Lemma normalizeRotation_congruent r :
  exists k : Z, SpinL.normalizeRotation r = r + PI * 2 * IZR k.
Proof.
  unfold SpinL.normalizeRotation, fmod.
  exists (1 - Rtrunc (r / (PI * 2))
          - Rtrunc ((r - PI * 2 * IZR (Rtrunc (r / (PI * 2))) + PI * 2) / (PI * 2)))%Z.
  rewrite !minus_IZR. simpl. lra.
Qed.

Lemma normalizeRotation_turns r (n : Z) :
  SpinL.normalizeRotation (r + PI * 2 * IZR n) = SpinL.normalizeRotation r.
Proof.
  destruct (normalizeRotation_congruent (r + PI * 2 * IZR n)) as [k Hk].
  destruct (normalizeRotation_congruent r) as [k' Hk'].
  apply (canonical_unique (PI * 2) _ _ (k + n - k'));
    [apply PI2_pos | apply normalizeRotation_range..|].
  rewrite minus_IZR, plus_IZR. lra.
Qed.

(** X6.  [normalizeRotation] returns the angle of [[0, 2 PI)] that
    differs from its argument by whole turns, for negative rotations
    too.  At a positive RPM the rotation of the spin formula returns to
    the same normalized angle after [60 / rpm] seconds, in either
    direction. *)
Theorem normalizeRotation_canonical :
  (forall r, 0 <= SpinL.normalizeRotation r < PI * 2) /\
  (forall r, exists k : Z, SpinL.normalizeRotation r = r + PI * 2 * IZR k) /\
  (forall r (n : Z), SpinL.normalizeRotation (r + PI * 2 * IZR n) = SpinL.normalizeRotation r) /\
  (forall base d rpm t,
     rpm > 0 ->
     SpinL.normalizeRotation
       (base + sgn d * SpinL.rpmToRadPerSecond rpm * (t + Orbit.calculatePeriod rpm))
     = SpinL.normalizeRotation (base + sgn d * SpinL.rpmToRadPerSecond rpm * t)).
Proof.
  split_and!.
  - apply normalizeRotation_range.
  - apply normalizeRotation_congruent.
  - apply normalizeRotation_turns.
  - intros base d rpm t Hrpm.
    unfold SpinL.rpmToRadPerSecond, Orbit.calculatePeriod. rewrite decide_True by done.
    destruct d; simpl.
    + rewrite <- (normalizeRotation_turns (base + 1 * (rpm * PI / 30) * t) 1).
      f_equal. simpl. field. lra.
    + rewrite <- (normalizeRotation_turns (base + -1 * (rpm * PI / 30) * t) (-1)).
      f_equal. simpl. field. lra.
Qed.

(** Twelve RPM, counter-clockwise: a turn takes five seconds. *)
Lemma normalizeRotation_canonical_witness :
  SpinL.normalizeRotation (1 + sgn Minus * SpinL.rpmToRadPerSecond 12 * (2 + Orbit.calculatePeriod 12))
  = SpinL.normalizeRotation (1 + sgn Minus * SpinL.rpmToRadPerSecond 12 * 2).
Proof.
  destruct normalizeRotation_canonical as (_ & _ & _ & Hperiod).
  apply Hperiod. lra.
Defined.

(** X7.  For a positive duration, the RPM transition gives the starting
    RPM up to time 0, the final RPM from the duration on, their mean at
    half the duration, and a value between the two at every time. *)
Theorem getValueAt_transition fromRPM toRPM duration :
  duration > 0 ->
  (forall time, time <= 0 -> SpinL.getValueAt fromRPM toRPM duration time = fromRPM) /\
  (forall time, duration <= time -> SpinL.getValueAt fromRPM toRPM duration time = toRPM) /\
  SpinL.getValueAt fromRPM toRPM duration (duration / 2) = (fromRPM + toRPM) / 2 /\
  (forall time,
     Rmin fromRPM toRPM <= SpinL.getValueAt fromRPM toRPM duration time
     <= Rmax fromRPM toRPM).
Proof.
  intros Hd.
  assert (Hq : forall time, time = time / duration * duration) by (intros; field; lra).
  split_and!.
  - intros time Ht. unfold SpinL.getValueAt.
    assert (time / duration <= 0) by (pose proof (Hq time); nra).
    replace (Rmin 1 (Rmax 0 (time / duration))) with 0; [lra|].
    unfold Rmin, Rmax. repeat destruct (Rle_dec _ _); lra.
  - intros time Ht. unfold SpinL.getValueAt.
    assert (1 <= time / duration) by (pose proof (Hq time); nra).
    replace (Rmin 1 (Rmax 0 (time / duration))) with 1; [lra|].
    unfold Rmin, Rmax. repeat destruct (Rle_dec _ _); lra.
  - unfold SpinL.getValueAt.
    replace (duration / 2 / duration) with (1 / 2) by (field; lra).
    replace (Rmin 1 (Rmax 0 (1 / 2))) with (1 / 2); [lra|].
    unfold Rmin, Rmax. repeat destruct (Rle_dec _ _); lra.
  - intros time. unfold SpinL.getValueAt.
    set (q := time / duration).
    assert (Ht : 0 <= Rmin 1 (Rmax 0 q) <= 1)
      by (unfold Rmin, Rmax; repeat destruct (Rle_dec _ _); lra).
    set (u := Rmin 1 (Rmax 0 q)) in *. clearbody u.
    unfold Rmin, Rmax. repeat destruct (Rle_dec _ _); nra.
Qed.

(** From 10 RPM to 30 RPM in two seconds. *)
Lemma getValueAt_transition_witness :
  SpinL.getValueAt 10 30 2 (2 / 2) = (10 + 30) / 2.
Proof.
  destruct (getValueAt_transition 10 30 2) as (_ & _ & Hhalf & _); [lra|].
  exact Hhalf.
Defined.

Lemma cos_turn a : Rtrigo_def.cos (a + 2 * PI) = Rtrigo_def.cos a.
Proof. replace (a + 2 * PI) with (a + PI + PI) by ring. rewrite !neg_cos. ring. Qed.

Lemma sin_turn a : Rtrigo_def.sin (a + 2 * PI) = Rtrigo_def.sin a.
Proof. replace (a + 2 * PI) with (a + PI + PI) by ring. rewrite !neg_sin. ring. Qed.

(** X8.  At a positive RPM, an orbit of the per-frame formula is closed:
    after [calculatePeriod rpm] seconds the position is the same, in
    either direction, and the speed times the period is the
    circumference.  The period of an RPM that is not positive is 0. *)
Theorem orbit_period :
  (forall rpm, rpm <= 0 -> Orbit.calculatePeriod rpm = 0) /\
  (forall radius rpm,
     rpm > 0 ->
     Orbit.calculateSpeed radius rpm * Orbit.calculatePeriod rpm = 2 * PI * radius) /\
  (forall cx cy radius phase d rpm t,
     rpm > 0 ->
     Orbit.getOrbitPosition cx cy radius
       (phase + sgn d * (rpm * PI / 30) * (t + Orbit.calculatePeriod rpm))
     = Orbit.getOrbitPosition cx cy radius (phase + sgn d * (rpm * PI / 30) * t)).
Proof.
  split_and!.
  - intros rpm Hrpm. unfold Orbit.calculatePeriod. by rewrite decide_False by lra.
  - intros radius rpm Hrpm. unfold Orbit.calculateSpeed, Orbit.calculatePeriod.
    rewrite decide_True by done. field. lra.
  - intros cx cy radius phase d rpm t Hrpm.
    unfold Orbit.getOrbitPosition, Orbit.calculatePeriod. rewrite decide_True by done.
    destruct d; simpl.
    + replace (phase + 1 * (rpm * PI / 30) * (t + 60 / rpm))
        with (phase + 1 * (rpm * PI / 30) * t + 2 * PI) by (field; lra).
      by rewrite cos_turn, sin_turn.
    + rewrite <- (cos_turn (phase + -1 * (rpm * PI / 30) * (t + 60 / rpm))).
      rewrite <- (sin_turn (phase + -1 * (rpm * PI / 30) * (t + 60 / rpm))).
      replace (phase + -1 * (rpm * PI / 30) * (t + 60 / rpm) + 2 * PI)
        with (phase + -1 * (rpm * PI / 30) * t) by (field; lra).
      done.
Qed.

(** An orbit of radius 100 at 10 RPM. *)
Lemma orbit_period_witness :
  Orbit.calculateSpeed 100 10 * Orbit.calculatePeriod 10 = 2 * PI * 100.
Proof.
  destruct orbit_period as (_ & Hspeed & _).
  apply Hspeed. lra.
Defined.

Lemma hypot_le a b A B : Rabs a <= A -> Rabs b <= B -> hypot a b <= hypot A B.
Proof.
  intros Ha Hb. unfold hypot. apply sqrt_le_1_alt.
  pose proof (Rabs_pos a). pose proof (Rabs_pos b).
  replace (a * a) with (Rabs a * Rabs a)
    by (unfold Rabs; destruct (Rcase_abs a); ring).
  replace (b * b) with (Rabs b * Rabs b)
    by (unfold Rabs; destruct (Rcase_abs b); ring).
  nra.
Qed.

(** X9.  [normalizeRadius] never enlarges a radius, and leaves it as it
    is when it does not exceed the bound; for a center on the stage the
    bound is at least the distance to each corner of the stage, so a
    normalized orbit can still pass through the farthest corner. *)
Theorem normalizeRadius_bound :
  (forall cx cy r, Orbit.normalizeRadius cx cy r <= r) /\
  (forall cx cy r,
     r <= hypot (Rmax cx (STAGE_WIDTH - cx)) (Rmax cy (STAGE_HEIGHT - cy)) ->
     Orbit.normalizeRadius cx cy r = r) /\
  (forall cx cy r,
     Orbit.normalizeRadius cx cy (Orbit.normalizeRadius cx cy r) = Orbit.normalizeRadius cx cy r) /\
  (forall cx cy r cornerX cornerY,
     0 <= cx <= STAGE_WIDTH -> 0 <= cy <= STAGE_HEIGHT ->
     cornerX = 0 \/ cornerX = STAGE_WIDTH ->
     cornerY = 0 \/ cornerY = STAGE_HEIGHT ->
     distance cx cy cornerX cornerY <= r ->
     distance cx cy cornerX cornerY <= Orbit.normalizeRadius cx cy r).
Proof.
  split_and!.
  - intros. unfold Orbit.normalizeRadius. apply Rmin_l.
  - intros cx cy r Hr. unfold Orbit.normalizeRadius. by apply Rmin_left.
  - intros cx cy r. unfold Orbit.normalizeRadius, Rmin.
    repeat destruct (Rle_dec _ _); lra.
  - intros cx cy r cornerX cornerY Hx Hy HcX HcY Hr.
    unfold Orbit.normalizeRadius. apply Rmin_glb; [done|].
    rewrite distance_hypot. unfold STAGE_WIDTH, STAGE_HEIGHT in *.
    apply hypot_le.
    + destruct HcX as [-> | ->]; unfold Rabs, Rmax;
        destruct (Rcase_abs _); destruct (Rle_dec _ _); lra.
    + destruct HcY as [-> | ->]; unfold Rabs, Rmax;
        destruct (Rcase_abs _); destruct (Rle_dec _ _); lra.
Qed.

(** A center at (300, 400) and the corner (1024, 1024). *)
Lemma normalizeRadius_bound_witness :
  distance 300 400 1024 1024 <= Orbit.normalizeRadius 300 400 (distance 300 400 1024 1024).
Proof.
  destruct normalizeRadius_bound as (_ & _ & _ & Hcorner).
  apply Hcorner; unfold STAGE_WIDTH, STAGE_HEIGHT; try lra; by right.
Defined.

End UtilsFacts.

(** ** The geometry of created orbit items *)

Section OrbitGeometry.
Import CoreMath Utils Orbit BorderSpec.

Lemma normDeg_range deg : 0 <= normDeg deg < 360.
Proof.
  unfold normDeg. pose proof (fmod_bounds deg 360 ltac:(lra)).
  destruct (decide _); lra.
Qed.

Lemma toRad_normDeg_range deg : 0 <= toRad (normDeg deg) < 2 * PI.
Proof.
  pose proof (normDeg_range deg). pose proof PI_RGT_0. unfold toRad. nra.
Qed.

Lemma clamped_on_border px py w h :
  0 <= w -> 0 <= h -> ~ inside px py w h ->
  x (clamped px py w h) = 0 \/ x (clamped px py w h) = w \/
  y (clamped px py w h) = 0 \/ y (clamped px py w h) = h.
Proof.
  intros Hw Hh. unfold inside, clamped, clamp, Rmax, Rmin. simpl.
  repeat destruct (Rle_dec _ _); lra.
Qed.

Lemma projection_box cx cy px py w h :
  0 <= cx <= w -> 0 <= cy <= h ->
  -1 <= x (projectToRectBorder cx cy px py w h) <= w + 1 /\
  -1 <= y (projectToRectBorder cx cy px py w h) <= h + 1.
Proof.
  intros Hcx Hcy.
  assert (Hdec : inside px py w h \/ ~ inside px py w h) by (unfold inside; lra).
  destruct Hdec as [Hin | Hout].
  - rewrite projectToRectBorder_inside by (unfold inside in Hin; lra).
    simpl. unfold inside in Hin. lra.
  - rewrite (projectToRectBorder_outside cx cy px py w h)
      by (done || unfold inside in Hout; lra).
    destruct (sort_by_t (candidates_of cx cy px py w h)) as [|first rest] eqn:Hs.
    + pose proof (clamp_range px 0 w ltac:(lra)).
      pose proof (clamp_range py 0 h ltac:(lra)).
      simpl. lra.
    + apply sort_by_t_first in Hs as [Hfirst _].
      apply candidates_valid in Hfirst as [Hhit _]. simpl.
      destruct Hhit as [Hhit|[Hhit|[Hhit|Hhit]]];
        destruct Hhit as (_ & _ & Hq & Hlo & Hhi); simpl in Hlo, Hhi;
        injection Hq as Hx Hy.
      * clear Hy. lra.
      * clear Hy. lra.
      * clear Hx. lra.
      * clear Hx. lra.
Qed.

(** X10.  For a center on the stage, [projectToRectBorder] returns a
    point within one pixel of the stage, and for a point off the stage a
    point on one of the four lines that carry the edges. *)
Theorem projection_on_stage cx cy px py w h :
  0 <= cx <= w -> 0 <= cy <= h ->
  (-1 <= x (projectToRectBorder cx cy px py w h) <= w + 1 /\
   -1 <= y (projectToRectBorder cx cy px py w h) <= h + 1) /\
  (~ inside px py w h ->
   x (projectToRectBorder cx cy px py w h) = 0 \/
   x (projectToRectBorder cx cy px py w h) = w \/
   y (projectToRectBorder cx cy px py w h) = 0 \/
   y (projectToRectBorder cx cy px py w h) = h).
Proof.
  intros Hcx Hcy. split; [by apply projection_box|].
  intros Hout.
  rewrite (projectToRectBorder_outside cx cy px py w h)
    by (done || unfold inside in Hout; lra).
  destruct (sort_by_t (candidates_of cx cy px py w h)) as [|first rest] eqn:Hs.
  - apply clamped_on_border; (lra || done).
  - apply sort_by_t_first in Hs as [Hfirst _].
    apply candidates_valid in Hfirst as [Hhit _]. simpl.
    destruct Hhit as [Hhit|[Hhit|[Hhit|Hhit]]];
      destruct Hhit as (_ & _ & Hq & _); injection Hq as Hx Hy.
    + by left.
    + right. by left.
    + right. right. by left.
    + right. right. by right.
Qed.

(** A center in the middle of the stage and a point above the stage. *)
Lemma projection_on_stage_witness :
  -1 <= x (projectToRectBorder 512 512 512 (-100) 1024 1024) <= 1024 + 1 /\
  -1 <= y (projectToRectBorder 512 512 512 (-100) 1024 1024) <= 1024 + 1.
Proof.
  apply (projection_on_stage 512 512 512 (-100) 1024 1024); lra.
Defined.

Lemma createOrbitConfig_center cfg0 :
  0 <= x (cfg_centerPercent (createOrbitConfig cfg0)) <= 100 /\
  0 <= y (cfg_centerPercent (createOrbitConfig cfg0)) <= 100.
Proof.
  unfold createOrbitConfig. simpl. split; apply clamp_range; lra.
Qed.

Lemma createOrbitConfig_rpm cfg0 :
  cfg_enabled (createOrbitConfig cfg0) = true ->
  0 < cfg_rpm (createOrbitConfig cfg0) <= 60.
Proof.
  unfold createOrbitConfig. simpl. rewrite bool_decide_eq_true.
  pose proof (clampRpm60_range (orbitRPM cfg0)). lra.
Qed.

Lemma centerCoords_on_stage layer :
  0 <= x (centerCoords layer) <= STAGE_WIDTH /\ 0 <= y (centerCoords layer) <= STAGE_HEIGHT.
Proof.
  destruct (createOrbitConfig_center (layer_cfg layer)) as [Hx Hy].
  unfold centerCoords, percentToStageCoords, STAGE_WIDTH, STAGE_HEIGHT. cbn [x y]. lra.
Qed.

(** The fields of a created item. *)
Lemma createOrbitItem_fields layer m item :
  createOrbitItem layer m = Some item ->
  cfg_enabled (createOrbitConfig (layer_cfg layer)) = true /\
  centerPercent item = cfg_centerPercent (createOrbitConfig (layer_cfg layer)) /\
  centerPixels item = object_of (centerCoords layer) /\
  radius item = hypot (x (startPoint layer) - x (centerCoords layer))
                      (y (startPoint layer) - y (centerCoords layer)) /\
  radius item > 0 /\
  radPerSecond item = cfg_rpm (createOrbitConfig (layer_cfg layer)) * PI / 30 /\
  orientRadians item
  = toRad (normDeg (finite_or (cfg_orientDegrees (createOrbitConfig (layer_cfg layer))) 0)) /\
  basePhase item
  = Fin match cfg_phaseDegrees (createOrbitConfig (layer_cfg layer)) with
        | Some (Fin phaseDegrees) => toRad (normDeg phaseDegrees)
        | _ => Ratan2 (y (startPoint layer) - y (centerCoords layer))
                 (x (startPoint layer) - x (centerCoords layer))
        end.
Proof.
  unfold createOrbitItem.
  destruct (cfg_enabled (createOrbitConfig (layer_cfg layer))) eqn:He; [|done].
  simpl negb. cbv iota.
  case_bool_decide as Hr; [done|].
  intros [= <-]. simpl. split_and!; try done.
  apply Rnot_le_gt. exact Hr.
Qed.

(** X11.  An item that [createOrbitItem] returns is active; its center
    is on the stage, its radius is positive and at most the diagonal of
    the stage enlarged by one pixel, its angular speed is positive and
    at most one turn per second, its orientation offset is an angle of
    [[0, 2 PI)], and its base phase is a finite angle. *)
Theorem created_orbit_item_bounds layer m item :
  createOrbitItem layer m = Some item ->
  active item = true /\
  (0 <= x (centerPercent item) <= 100 /\ 0 <= y (centerPercent item) <= 100) /\
  0 < radius item <= hypot (STAGE_WIDTH + 1) (STAGE_HEIGHT + 1) /\
  0 < radPerSecond item <= 2 * PI /\
  0 <= orientRadians item < 2 * PI /\
  exists phase, basePhase item = Fin phase /\ - PI < phase < 2 * PI.
Proof.
  intros Hc. pose proof PI_RGT_0 as Hpi.
  destruct (createOrbitItem_Some _ _ _ Hc) as (_ & _ & _ & _ & Hactive & _).
  destruct (createOrbitItem_fields _ _ _ Hc)
    as (Hen & Hcenter & _ & Hradius & Hpos & Hspeed & Horient & Hphase).
  pose proof (createOrbitConfig_center (layer_cfg layer)) as Hpct.
  pose proof (createOrbitConfig_rpm _ Hen) as Hrpm.
  destruct (centerCoords_on_stage layer) as [Hcx Hcy].
  split_and!; try done.
  - rewrite Hcenter. apply Hpct.
  - rewrite Hcenter. apply Hpct.
  - rewrite Hcenter. apply Hpct.
  - rewrite Hcenter. apply Hpct.
  - rewrite Hradius.
    destruct (projection_box _ _ (x (spriteCoords layer)) (y (spriteCoords layer))
                _ _ Hcx Hcy) as [Hqx Hqy].
    fold (startPoint layer) in Hqx, Hqy.
    unfold STAGE_WIDTH, STAGE_HEIGHT in *.
    apply hypot_le; unfold Rabs; destruct (Rcase_abs _); lra.
  - rewrite Hspeed. nra.
  - rewrite Hspeed. nra.
  - rewrite Horient. apply toRad_normDeg_range.
  - rewrite Horient. apply toRad_normDeg_range.
  - eexists. split; [exact Hphase|].
    pose proof (Ratan2_range (y (startPoint layer) - y (centerCoords layer))
                  (x (startPoint layer) - x (centerCoords layer))).
    destruct (cfg_phaseDegrees _) as [[d| | |]|]; try lra.
    pose proof (toRad_normDeg_range d). lra.
Qed.

(** The orbit item of the sample layer. *)
Lemma created_orbit_item_bounds_witness :
  match createOrbitItem Samples.planet ∅ with
  | Some item => 0 < radius item <= hypot (STAGE_WIDTH + 1) (STAGE_HEIGHT + 1)
  | None => False
  end.
Proof.
  destruct (createOrbitItem Samples.planet ∅) as [item|] eqn:Hc.
  - by destruct (created_orbit_item_bounds Samples.planet ∅ item Hc) as (_ & _ & Hr & _).
  - destruct planet_created as [item Hitem]. congruence.
Defined.

(** X12.  Without a finite [orbitPhaseDeg], the base phase of a created
    item is the direction of the start point: the position of the
    per-frame formula at time 0, taken about the center in pixels, is
    the projection of the layer position onto the stage border, and the
    layer position itself when that is on the stage. *)
Theorem created_orbit_item_starts_at_projection layer m item :
  createOrbitItem layer m = Some item ->
  (forall d, orbitPhaseDeg (layer_cfg layer) <> Some (Fin d)) ->
  exists phase,
    angle_at item 0 = Fin phase /\
    getOrbitPosition (x (centerCoords layer)) (y (centerCoords layer)) (radius item) phase
    = startPoint layer /\
    (inside (x (spriteCoords layer)) (y (spriteCoords layer)) STAGE_WIDTH STAGE_HEIGHT ->
     startPoint layer = spriteCoords layer).
Proof.
  intros Hc Hno.
  destruct (createOrbitItem_fields _ _ _ Hc)
    as (_ & _ & _ & Hradius & Hpos & _ & _ & Hphase).
  exists (Ratan2 (y (startPoint layer) - y (centerCoords layer))
            (x (startPoint layer) - x (centerCoords layer))).
  assert (Hbase : basePhase item
                  = Fin (Ratan2 (y (startPoint layer) - y (centerCoords layer))
                           (x (startPoint layer) - x (centerCoords layer)))).
  { rewrite Hphase. unfold createOrbitConfig. simpl.
    destruct (orbitPhaseDeg (layer_cfg layer)) as [[d| | |]|]; try done.
    by destruct (Hno d). }
  split_and!.
  - unfold angle_at. rewrite Hbase. simpl. f_equal. ring.
  - assert (Hdir : x (startPoint layer) - x (centerCoords layer) <> 0 \/
                   y (startPoint layer) - y (centerCoords layer) <> 0).
    { destruct (Req_dec (x (startPoint layer) - x (centerCoords layer)) 0) as [Hx|]; [|by left].
      destruct (Req_dec (y (startPoint layer) - y (centerCoords layer)) 0) as [Hy|]; [|by right].
      exfalso. rewrite Hradius, Hx, Hy in Hpos. unfold hypot in Hpos.
      replace (0 * 0 + 0 * 0) with 0 in Hpos by ring. rewrite sqrt_0 in Hpos. lra. }
    destruct (Ratan2_polar _ _ Hdir) as [Hcos Hsin].
    unfold getOrbitPosition. rewrite Hradius, Hcos, Hsin.
    destruct (startPoint layer) as [sx sy]. simpl. f_equal; ring.
  - intros [Hx Hy]. unfold startPoint.
    rewrite projectToRectBorder_inside by lra. by destruct (spriteCoords layer).
Qed.

(** The orbit item of the sample layer starts at (716.8, 512). *)
Lemma created_orbit_item_starts_at_projection_witness :
  match createOrbitItem Samples.planet ∅ with
  | Some item =>
      exists phase,
        angle_at item 0 = Fin phase /\
        getOrbitPosition (x (centerCoords Samples.planet)) (y (centerCoords Samples.planet))
          (radius item) phase
        = startPoint Samples.planet
  | None => False
  end.
Proof.
  destruct (createOrbitItem Samples.planet ∅) as [item|] eqn:Hc.
  - destruct (created_orbit_item_starts_at_projection Samples.planet ∅ item Hc)
      as (phase & Hangle & Hposition & _); [done|].
    by exists phase.
  - destruct planet_created as [item Hitem]. congruence.
Defined.

End OrbitGeometry.

(** ** The Spin processor *)

Section SpinProcessorFacts.
Import CoreMath SpinL.

Lemma buildSpinLoop_lookup_other h (layers : list BuiltLayer) acc m r :
  r ∉ layer_sprite <$> layers ->
  (buildSpinLoop h layers acc m).2 !! r = m !! r.
Proof.
  revert acc m. induction layers as [|layer layers IH]; intros acc m Hr; [done|].
  rewrite fmap_cons, not_elem_of_cons in Hr. destruct Hr as [Hne Hr].
  simpl. rewrite IH by done. by rewrite lookup_insert_ne.
Qed.

Lemma buildSpinLoop_lookup h (layers : list BuiltLayer) acc m layer :
  NoDup (layer_sprite <$> layers) ->
  layer ∈ layers ->
  (buildSpinLoop h layers acc m).2 !! layer_sprite layer
  = Some (clampRpm60 (spinRPM (layer_cfg layer))).
Proof.
  revert acc m. induction layers as [|first layers IH]; intros acc m Hnd Hin.
  - by apply elem_of_nil in Hin.
  - rewrite fmap_cons in Hnd. apply NoDup_cons in Hnd as [Hfirst Hnd].
    simpl. apply elem_of_cons in Hin as [-> | Hin].
    + rewrite buildSpinLoop_lookup_other by done. by rewrite lookup_insert_eq.
    + by apply IH.
Qed.

Lemma with_item_rpmBySprite id0 f p : rpmBySprite (with_item id0 f p) = rpmBySprite p.
Proof. unfold with_item. by destruct (list_find _ _) as [[k item]|]. Qed.

(** X13.  After [init], [getRPM] of the sprite of a layer is the clamped
    [spinRPM] of that layer, in a scene whose layers have sprites of
    their own, and 0 for a sprite of no layer.  The value is the one
    recorded by [init]: [updateRPM] does not change what [getRPM]
    returns. *)
Theorem getRPM_recorded_at_init :
  (forall h (layers : list BuiltLayer) layer,
     NoDup (layer_sprite <$> layers) ->
     layer ∈ layers ->
     getRPM (init h layers) (layer_sprite layer) = clampRpm60 (spinRPM (layer_cfg layer))) /\
  (forall h (layers : list BuiltLayer) r,
     r ∉ layer_sprite <$> layers -> getRPM (init h layers) r = 0) /\
  (forall id0 rpm0 p r, getRPM (updateRPM id0 rpm0 p) r = getRPM p r).
Proof.
  split_and!.
  - intros h layers layer Hnd Hin. unfold getRPM, init, buildSpinSystem. simpl.
    by rewrite (buildSpinLoop_lookup h layers [] ∅ layer Hnd Hin).
  - intros h layers r Hr. unfold getRPM, init, buildSpinSystem. simpl.
    by rewrite buildSpinLoop_lookup_other, lookup_empty.
  - intros id0 rpm0 p r. unfold getRPM, updateRPM. by rewrite with_item_rpmBySprite.
Qed.

(** The sample layer spins at 30 RPM; setting it to 45 RPM later is not
    seen by [getRPM]. *)
Lemma getRPM_recorded_at_init_witness :
  getRPM (updateRPM "planet1" (Fin 45) (init Samples.blank [Samples.planet])) 0%nat
  = clampRpm60 (spinRPM Samples.planet_cfg).
Proof.
  destruct getRPM_recorded_at_init as (Hinit & _ & Hstale).
  rewrite Hstale.
  apply (Hinit Samples.blank [Samples.planet] Samples.planet).
  - simpl. apply NoDup_singleton.
  - by apply list_elem_of_singleton.
Defined.

Lemma createSpinItem_enabled h layer :
  clampRpm60 (spinRPM (layer_cfg layer)) > 0 ->
  exists item, createSpinItem h layer = Some item.
Proof.
  intros Hrpm. unfold createSpinItem, createSpinConfig. simpl.
  rewrite bool_decide_eq_true_2 by done. simpl. eauto.
Qed.

Lemma createSpinItem_disabled h layer :
  ~ clampRpm60 (spinRPM (layer_cfg layer)) > 0 ->
  createSpinItem h layer = None.
Proof.
  intros Hrpm. unfold createSpinItem, createSpinConfig. simpl.
  by rewrite bool_decide_eq_false_2 by done.
Qed.

Lemma spin_item_ids h (layers : list BuiltLayer) :
  layerId <$> omap (createSpinItem h) layers
  = layer_id <$> filter (fun layer => clampRpm60 (spinRPM (layer_cfg layer)) > 0) layers.
Proof.
  induction layers as [|layer layers IH]; [done|].
  csimpl. rewrite filter_cons. destruct (decide _) as [Hrpm|Hrpm].
  - destruct (createSpinItem_enabled h layer Hrpm) as [item Hc]. rewrite Hc.
    apply createSpinItem_Some in Hc as (_ & Hid & _).
    csimpl. by rewrite Hid, IH.
  - by rewrite (createSpinItem_disabled h layer Hrpm).
Qed.

(** X14.  [init] builds one spin item for each layer whose clamped
    [spinRPM] is positive, in the order of the layers, and none for the
    others.  Each item is active, with an RPM in [(0, 60]] and an
    angular speed of at most one turn per second, so [getActiveItems]
    returns all of them. *)
Theorem spin_items_of_layers h (layers : list BuiltLayer) :
  layerId <$> items (init h layers)
  = layer_id <$> filter (fun layer => clampRpm60 (spinRPM (layer_cfg layer)) > 0) layers /\
  Forall (fun item => active item = true /\ 0 < rpm item <= 60 /\
                      0 < radPerSecond item <= 2 * PI) (items (init h layers)) /\
  getActiveItems (init h layers) = items (init h layers).
Proof.
  assert (Hall : Forall (fun item => active item = true /\ 0 < rpm item <= 60 /\
                           0 < radPerSecond item <= 2 * PI) (items (init h layers))).
  { rewrite init_items. apply Forall_forall. intros item Hin.
    apply list_elem_of_omap in Hin as (layer & _ & Hc).
    assert (Hen : clampRpm60 (spinRPM (layer_cfg layer)) > 0).
    { destruct (decide (clampRpm60 (spinRPM (layer_cfg layer)) > 0)) as [|Hno]; [done|].
      by rewrite (createSpinItem_disabled h layer Hno) in Hc. }
    apply createSpinItem_Some in Hc as (_ & _ & _ & Hrpm & Hrad & _ & Hactive).
    pose proof (clampRpm60_range (spinRPM (layer_cfg layer))) as Hrange.
    pose proof PI_RGT_0.
    rewrite Hrpm, Hrad. split_and!; (done || lra || nra). }
  split_and!; [|done|].
  - rewrite init_items. apply spin_item_ids.
  - unfold getActiveItems.
    induction Hall as [|item l (Ha & _) _ IH]; [done|].
    rewrite filter_cons, decide_True by done. by rewrite IH.
Qed.

Lemma set_rotation_twice v w s :
  Pixi.set_rotation v (Pixi.set_rotation w s) = Pixi.set_rotation v s.
Proof. done. Qed.

Lemma set_rotation_same s s' :
  (forall v, Pixi.set_rotation v s' = Pixi.set_rotation v s) ->
  Pixi.set_rotation (Pixi.rotation s) s' = s.
Proof. intros H. rewrite H. by destruct s. Qed.

(** The frames of the Spin processor write rotations only. *)
Lemma updateSpinItem_frame item t h h0 :
  (forall r v, Pixi.set_rotation v (h r) = Pixi.set_rotation v (h0 r)) ->
  forall r v, Pixi.set_rotation v (updateSpinItem item t h r) = Pixi.set_rotation v (h0 r).
Proof.
  intros Hh r v. unfold updateSpinItem. destruct (active item); simpl; [|done].
  unfold Pixi.write. destruct (decide (r = sprite item)) as [->|]; [|done].
  by rewrite set_rotation_twice.
Qed.

Lemma tickSpinSystem_frame l t h h0 :
  (forall r v, Pixi.set_rotation v (h r) = Pixi.set_rotation v (h0 r)) ->
  forall r v, Pixi.set_rotation v (tickSpinSystem l t h r) = Pixi.set_rotation v (h0 r).
Proof.
  revert h. induction l as [|item l IH]; intros h Hh; [done|].
  simpl. apply IH. by apply updateSpinItem_frame.
Qed.

Lemma run_frame ds p h h0 :
  (forall r v, Pixi.set_rotation v (h r) = Pixi.set_rotation v (h0 r)) ->
  forall r v, Pixi.set_rotation v ((run ds p h).2 r) = Pixi.set_rotation v (h0 r).
Proof.
  revert p h. induction ds as [|d ds IH]; intros p h Hh; [done|].
  rewrite run_cons. apply IH.
  destruct (decide (items p = [])) as [E|E].
  - unfold tick. by rewrite E.
  - rewrite tick_heap by done. by apply tickSpinSystem_frame.
Qed.

Lemma resetLoop_other l h r :
  r ∉ sprite <$> l -> resetLoop l h r = h r.
Proof.
  revert h. induction l as [|item l IH]; intros h Hr; [done|].
  rewrite fmap_cons, not_elem_of_cons in Hr. destruct Hr as [Hne Hr].
  simpl. rewrite IH by done. by apply write_ne.
Qed.

Lemma resetLoop_at l h r :
  r ∈ sprite <$> l ->
  exists item, item ∈ l /\ sprite item = r /\
    resetLoop l h r = Pixi.set_rotation (baseRotation item) (h r).
Proof.
  revert h. induction l as [|item l IH]; intros h Hr.
  - by apply elem_of_nil in Hr.
  - simpl. destruct (decide (r ∈ sprite <$> l)) as [Hin|Hout].
    + destruct (IH (Pixi.write (sprite item) (Pixi.set_rotation (baseRotation item)) h) Hin)
        as (other & Hother & Hs & Heq).
      exists other. split_and!; [by right | done |].
      rewrite Heq. unfold Pixi.write.
      destruct (decide (r = sprite item)) as [->|]; [|done].
      by rewrite set_rotation_twice.
    + rewrite fmap_cons in Hr. apply elem_of_cons in Hr as [-> | Hr]; [|done].
      exists item. split_and!; [by left | done |].
      rewrite resetLoop_other by done. by rewrite write_eq.
Qed.

(** X15.  The Spin processor writes rotations only, and [reset] undoes
    them: after [init], any number of frames and a [reset], every
    sprite is as it was when [init] ran, the elapsed time is 0, and the
    items are those of [init]. *)
Theorem spin_reset_restores h (layers : list BuiltLayer) (deltas : list R) :
  let after := run deltas (init h layers) h in
  let back := reset after.1 after.2 in
  (forall r, back.2 r = h r) /\
  elapsedTime back.1 = 0 /\
  items back.1 = items (init h layers).
Proof.
  simpl. split_and!; [|done|by rewrite run_items].
  intros r. rewrite run_items.
  pose proof (run_frame deltas (init h layers) h h ltac:(done)) as Hframe.
  destruct (decide (r ∈ sprite <$> items (init h layers))) as [Hin|Hout].
  - destruct (resetLoop_at _ (run deltas (init h layers) h).2 r Hin)
      as (item & Hitem & Hs & ->).
    rewrite init_items in Hitem.
    apply list_elem_of_omap in Hitem as (layer & _ & Hc).
    apply createSpinItem_Some in Hc as (Hsprite & _ & Hbase & _).
    rewrite Hbase, <- Hsprite, Hs. by apply set_rotation_same.
  - rewrite resetLoop_other by done.
    apply run_untouched. intros other Hother _ Heq. apply Hout.
    apply list_elem_of_fmap. eauto.
Qed.

End SpinProcessorFacts.

(** ** The frames of the Orbit processor *)

Section OrbitFrames.
Import CoreMath Utils Orbit.

Lemma updateOrbitItem_position item t h :
  active item = true -> radius item > 0 ->
  prop (centerPixels item) "cx" = NaN -> prop (centerPixels item) "cy" = NaN ->
  Pixi.x (updateOrbitItem item t h (sprite item)) = NaN /\
  Pixi.y (updateOrbitItem item t h (sprite item)) = NaN.
Proof.
  intros Ha Hr Hcx Hcy. unfold updateOrbitItem.
  rewrite Ha, bool_decide_eq_false_2 by lra. simpl.
  rewrite Hcx, Hcy, !add_NaN_l.
  destruct (orients item); repeat (rewrite write_eq; simpl); done.
Qed.

Lemma updateOrbitItem_position_kept item t h r :
  prop (centerPixels item) "cx" = NaN -> prop (centerPixels item) "cy" = NaN ->
  Pixi.x (h r) = NaN /\ Pixi.y (h r) = NaN ->
  Pixi.x (updateOrbitItem item t h r) = NaN /\ Pixi.y (updateOrbitItem item t h r) = NaN.
Proof.
  intros Hcx Hcy Hh.
  destruct (decide (r = sprite item)) as [->|Hne]; [|by rewrite updateOrbitItem_other].
  destruct (active item) eqn:Ha; [|by rewrite updateOrbitItem_guard by by left].
  destruct (Rle_dec (radius item) 0) as [Hr|Hr];
    [by rewrite updateOrbitItem_guard by by right|].
  apply updateOrbitItem_position; (done || lra).
Qed.

Lemma updateAll_position_kept l t h r :
  Forall (fun item => prop (centerPixels item) "cx" = NaN /\
                      prop (centerPixels item) "cy" = NaN) l ->
  Pixi.x (h r) = NaN /\ Pixi.y (h r) = NaN ->
  Pixi.x (updateAll l t h r) = NaN /\ Pixi.y (updateAll l t h r) = NaN.
Proof.
  intros Hl. revert h. induction Hl as [|item l [Hcx Hcy] _ IH]; intros h Hh; [done|].
  simpl. apply IH. by apply updateOrbitItem_position_kept.
Qed.

Lemma updateAll_position l t h item :
  Forall (fun item => prop (centerPixels item) "cx" = NaN /\
                      prop (centerPixels item) "cy" = NaN) l ->
  item ∈ l -> active item = true -> radius item > 0 ->
  Pixi.x (updateAll l t h (sprite item)) = NaN /\
  Pixi.y (updateAll l t h (sprite item)) = NaN.
Proof.
  intros Hl Hin Ha Hr. revert h.
  induction Hl as [|first l [Hcx Hcy] Hl IH]; intros h.
  - by apply elem_of_nil in Hin.
  - simpl. apply elem_of_cons in Hin as [-> | Hin].
    + apply updateAll_position_kept; [done|]. by apply updateOrbitItem_position.
    + by apply IH.
Qed.

Lemma orbit_run_position_kept ds p h r :
  Forall (fun item => prop (centerPixels item) "cx" = NaN /\
                      prop (centerPixels item) "cy" = NaN) (items p) ->
  Pixi.x (h r) = NaN /\ Pixi.y (h r) = NaN ->
  Pixi.x ((run ds p h).2 r) = NaN /\ Pixi.y ((run ds p h).2 r) = NaN.
Proof.
  revert p h. induction ds as [|d ds IH]; intros p h Hl Hh; [done|].
  rewrite orbit_run_cons. apply IH; [by rewrite orbit_tick_items|].
  destruct (decide (items p = [])) as [E|E].
  - unfold tick. by rewrite E.
  - rewrite orbit_tick_heap by done. by apply updateAll_position_kept.
Qed.

Lemma orbit_init_centers (layers : list BuiltLayer) :
  Forall (fun item => prop (centerPixels item) "cx" = NaN /\
                      prop (centerPixels item) "cy" = NaN) (items (init layers)).
Proof.
  rewrite orbit_init_items. apply Forall_forall. intros item Hin.
  apply list_elem_of_omap in Hin as (layer & _ & Hc).
  apply createOrbitItem_center in Hc as [v ->].
  split; [apply object_of_cx | apply object_of_cy].
Qed.

(** X16.  The per-frame update reads the center under the names [cx]
    and [cy], and [createOrbitItem] stores it under [x] and [y]: from
    the first frame on, the position of the sprite of every item built
    by [init] is NaN in both coordinates. *)
Theorem orbit_frames_lose_position (layers : list BuiltLayer) (deltas : list R) h item :
  deltas <> [] ->
  item ∈ items (init layers) ->
  Pixi.x ((run deltas (init layers) h).2 (sprite item)) = NaN /\
  Pixi.y ((run deltas (init layers) h).2 (sprite item)) = NaN.
Proof.
  intros Hds Hin. destruct deltas as [|d ds]; [done|].
  pose proof (orbit_init_centers layers) as Hcenters.
  assert (Hne : items (init layers) <> []) by (intros E; rewrite E in Hin; by apply elem_of_nil in Hin).
  rewrite orbit_run_cons.
  apply orbit_run_position_kept; [by rewrite orbit_tick_items|].
  rewrite orbit_tick_heap by done.
  pose proof Hin as Hcreated. rewrite orbit_init_items in Hcreated.
  apply list_elem_of_omap in Hcreated as (layer & _ & Hc).
  apply createOrbitItem_Some in Hc as (_ & _ & _ & _ & Ha & Hr).
  by apply updateAll_position.
Qed.

(** The sample layer after one frame of 16 ms. *)
Lemma orbit_frames_lose_position_witness :
  match createOrbitItem Samples.planet ∅ with
  | Some item =>
      Pixi.x ((run [16 / 1000] (init [Samples.planet]) Samples.blank).2 (sprite item)) = NaN /\
      Pixi.y ((run [16 / 1000] (init [Samples.planet]) Samples.blank).2 (sprite item)) = NaN
  | None => False
  end.
Proof.
  destruct (createOrbitItem Samples.planet ∅) as [item|] eqn:Hc.
  - apply (orbit_frames_lose_position [Samples.planet] [16 / 1000] Samples.blank item); [done|].
    rewrite orbit_init_items. simpl. rewrite Hc. by left.
  - destruct planet_created as [item Hitem]. congruence.
Defined.

End OrbitFrames.

(** ** The basic effects *)

Section BasicEffectFacts.
Import CoreMath Effect.

Lemma cos_full_turn : Rtrigo_def.cos (PI * 2) = 1.
Proof. replace (PI * 2) with (2 * PI) by ring. apply cos_2PI. Qed.

(** X17.  The easing [sineInOut] is not monotone: it maps every
    progress into [[0, 1]], is 0 at both ends of the unit interval and
    1 in its middle, and is symmetric and periodic, so an eased fade is
    back at its starting alpha when the progress reaches 1.  The
    closure of the basic tick and [applyEasing] use the same formula;
    [linear] is the identity. *)
Theorem applyEasing_shape :
  (forall t, applyEasing t linear = t) /\
  (forall t, applyEasing t sineInOut = easeSineInOut t) /\
  (forall t, 0 <= applyEasing t sineInOut <= 1) /\
  (applyEasing 0 sineInOut = 0 /\ applyEasing (1 / 2) sineInOut = 1 /\
   applyEasing 1 sineInOut = 0) /\
  (forall t, applyEasing (1 - t) sineInOut = applyEasing t sineInOut) /\
  (forall t, applyEasing (t + 1) sineInOut = applyEasing t sineInOut).
Proof.
  split_and!; try done.
  - intros t. simpl. pose proof (COS_bound (PI * 2 * t)). lra.
  - simpl. rewrite Rmult_0_r, cos_0. lra.
  - simpl. replace (PI * 2 * (1 / 2)) with PI by lra. rewrite cos_PI. lra.
  - simpl. rewrite Rmult_1_r, cos_full_turn. lra.
  - intros t. simpl. do 2 f_equal.
    replace (PI * 2 * (1 - t)) with (- (PI * 2 * t) + 2 * PI) by ring.
    by rewrite cos_turn, cos_neg.
  - intros t. simpl. do 2 f_equal.
    replace (PI * 2 * (t + 1)) with (PI * 2 * t + 2 * PI) by ring.
    apply cos_turn.
Qed.

Lemma positive_or_pos v d : d > 0 -> positive_or v d > 0.
Proof.
  intros Hd. unfold positive_or. destruct v as [r|]; [|done].
  by case_bool_decide.
Qed.

Lemma phase_unit elapsed T : 0 <= elapsed -> 0 < T -> 0 <= fmod elapsed T / T < 1.
Proof.
  intros He HT. destruct (fmod_nonneg elapsed T He HT) as [Hlo Hhi].
  split; [by apply div_nonneg | by apply div_lt_1].
Qed.

Lemma pingpong_unit phase : 0 <= phase <= 1 -> 0 <= pingpong phase <= 1.
Proof. intros Hp. unfold pingpong. destruct (decide _); lra. Qed.

Lemma between_ends from to t :
  0 <= t <= 1 -> Rmin from to <= from + (to - from) * t <= Rmax from to.
Proof.
  intros Ht. unfold Rmin, Rmax. destruct (Rle_dec from to); nra.
Qed.

(** X18.  A fade entry always normalizes to a fade of positive
    duration, and from time 0 on the alpha the fade branch computes lies
    between the two ends of the fade, for either easing and looped or
    not; the fade leaves the scale and the tilt of the frame alone. *)
Theorem fade_alpha_between (from to durationMs : option R) (loop : option bool)
    (easing : option Easing) elapsed pointerX pointerY a :
  0 <= elapsed ->
  exists spec,
    normalize (CfgFade from to durationMs loop easing) = Some spec /\
    Rmin (default 1 from) (default 1 to)
    <= acc_alpha (applyEffect elapsed pointerX pointerY a spec)
    <= Rmax (default 1 from) (default 1 to) /\
    acc_scaleMul (applyEffect elapsed pointerX pointerY a spec) = acc_scaleMul a /\
    acc_tiltRad (applyEffect elapsed pointerX pointerY a spec) = acc_tiltRad a.
Proof.
  intros He. eexists. split; [reflexivity|].
  pose proof (positive_or_pos durationMs 1000 ltac:(lra)) as Hd.
  set (d := positive_or durationMs 1000) in *. clearbody d.
  unfold applyEffect. rewrite decide_False by lra. simpl.
  split; [|done].
  apply between_ends.
  pose proof (phase_unit elapsed (d / 1000) He ltac:(lra)) as Hphase.
  set (phase := fmod elapsed (d / 1000) / (d / 1000)) in *. clearbody phase.
  assert (Hshaped : 0 <= (if match loop with Some false => false | _ => true end
                          then pingpong phase else phase) <= 1).
  { destruct (match loop with Some false => false | _ => true end);
      [apply pingpong_unit|]; lra. }
  destruct (match easing with Some sineInOut => sineInOut | _ => linear end).
  - exact Hshaped.
  - unfold easeSineInOut.
    match goal with |- context [Rtrigo_def.cos ?u] => pose proof (COS_bound u) end. lra.
Qed.

(** A fade from 0.2 to 0.8 with the defaults, after 1.3 seconds. *)
Lemma fade_alpha_between_witness :
  exists spec,
    normalize (CfgFade (Some (2 / 10)) (Some (8 / 10)) None None None) = Some spec /\
    Rmin (2 / 10) (8 / 10)
    <= acc_alpha (applyEffect (13 / 10) 0 0 {| acc_alpha := 1; acc_scaleMul := 1; acc_tiltRad := 0 |} spec)
    <= Rmax (2 / 10) (8 / 10).
Proof.
  destruct (fade_alpha_between (Some (2 / 10)) (Some (8 / 10)) None None None (13 / 10) 0 0
              {| acc_alpha := 1; acc_scaleMul := 1; acc_tiltRad := 0 |})
    as (spec & Hspec & Hrange & _); [lra|].
  by exists spec.
Defined.

Lemma sin_turn_scaled T elapsed phase :
  T > 0 ->
  Rtrigo_def.sin (2 * PI / T * (elapsed + T) + phase)
  = Rtrigo_def.sin (2 * PI / T * elapsed + phase).
Proof.
  intros HT.
  replace (2 * PI / T * (elapsed + T) + phase)
    with (2 * PI / T * elapsed + phase + 2 * PI) by (field; lra).
  apply sin_turn.
Qed.

(** X19.  A pulse entry always normalizes to a pulse of positive
    period.  The pulse repeats with that period; on the scale it
    multiplies by a factor within the amplitude of 1, and on the alpha
    by a factor of [[0, 1]], so it never raises the alpha of the
    frame. *)
Theorem pulse_bounded_and_periodic (property : option PulseProperty)
    (amp periodMs phaseDeg : option R) :
  exists p amp0 periodMs0 phaseDeg0,
    normalize (CfgPulse property amp periodMs phaseDeg) = Some (Pulse p amp0 periodMs0 phaseDeg0) /\
    periodMs0 > 0 /\
    (forall elapsed pointerX pointerY a,
       applyEffect (elapsed + periodMs0 / 1000) pointerX pointerY a (Pulse p amp0 periodMs0 phaseDeg0)
       = applyEffect elapsed pointerX pointerY a (Pulse p amp0 periodMs0 phaseDeg0)) /\
    (forall elapsed pointerX pointerY a,
       p = scale ->
       exists s,
         acc_scaleMul (applyEffect elapsed pointerX pointerY a (Pulse p amp0 periodMs0 phaseDeg0))
         = acc_scaleMul a * s /\
         1 - Rabs amp0 <= s <= 1 + Rabs amp0 /\
         acc_alpha (applyEffect elapsed pointerX pointerY a (Pulse p amp0 periodMs0 phaseDeg0))
         = acc_alpha a) /\
    (forall elapsed pointerX pointerY a,
       p = alpha -> 0 <= acc_alpha a ->
       0 <= acc_alpha (applyEffect elapsed pointerX pointerY a (Pulse p amp0 periodMs0 phaseDeg0))
       <= acc_alpha a /\
       acc_scaleMul (applyEffect elapsed pointerX pointerY a (Pulse p amp0 periodMs0 phaseDeg0))
       = acc_scaleMul a).
Proof.
  eexists _, _, _, _. split; [reflexivity|].
  pose proof (positive_or_pos periodMs 1000 ltac:(lra)) as Hd.
  set (d := positive_or periodMs 1000) in *. clearbody d.
  split_and!; [done|..].
  - intros elapsed pointerX pointerY a. unfold applyEffect.
    rewrite !decide_False by lra.
    replace (2 * PI / (d / 1000) * (elapsed + d / 1000) + default 0 phaseDeg * PI / 180)
      with (2 * PI / (d / 1000) * elapsed + default 0 phaseDeg * PI / 180 + 2 * PI)
      by (field; lra).
    by rewrite sin_turn.
  - intros elapsed pointerX pointerY a Hp. unfold applyEffect.
    rewrite decide_False by lra. rewrite Hp. simpl.
    eexists. split; [reflexivity|]. split; [|done].
    match goal with |- context [Rtrigo_def.sin ?u] => pose proof (SIN_bound u) as Hs;
      set (s := Rtrigo_def.sin u) in * end. clearbody s.
    unfold Rabs. destruct (Rcase_abs _); nra.
  - intros elapsed pointerX pointerY a Hp Ha. unfold applyEffect.
    rewrite decide_False by lra. rewrite Hp. simpl. split; [|done].
    match goal with |- context [Rmax 0 (Rmin 1 ?u)] =>
      assert (Hc : 0 <= Rmax 0 (Rmin 1 u) <= 1)
        by (unfold Rmax, Rmin; repeat destruct (Rle_dec _ _); lra);
      set (c := Rmax 0 (Rmin 1 u)) in * end. clearbody c.
    nra.
Qed.

(** A scale pulse of amplitude 0.1 with the default period, after one
    second. *)
Lemma pulse_bounded_and_periodic_witness :
  exists s,
    acc_scaleMul
      (applyEffect 1 0 0 {| acc_alpha := 1; acc_scaleMul := 1; acc_tiltRad := 0 |}
         (Pulse scale (1 / 10) (positive_or None 1000) (default 0 None)))
    = 1 * s /\
    1 - Rabs (1 / 10) <= s <= 1 + Rabs (1 / 10).
Proof.
  destruct (pulse_bounded_and_periodic (Some scale) (Some (1 / 10)) None None)
    as (p & amp0 & periodMs0 & phaseDeg0 & Hnormal & _ & _ & Hscale & _).
  simpl in Hnormal. injection Hnormal as <- <- <- <-.
  destruct (Hscale 1 0 0 {| acc_alpha := 1; acc_scaleMul := 1; acc_tiltRad := 0 |} eq_refl)
    as (s & Hs & Hrange & _).
  by exists s.
Defined.

Lemma clamp_sym_abs m v : Rabs (Rmax (- m) (Rmin m v)) <= Rabs m.
Proof.
  unfold Rmax, Rmin, Rabs.
  repeat destruct (Rle_dec _ _); repeat destruct (Rcase_abs _); lra.
Qed.

Lemma scaled_abs d m : Rabs d <= Rabs m -> Rabs (d * PI / 180) <= Rabs m * PI / 180.
Proof.
  intros Hd. pose proof PI_RGT_0.
  replace (d * PI / 180) with (d * (PI / 180)) by lra.
  rewrite Rabs_mult, (Rabs_pos_eq (PI / 180)) by lra. nra.
Qed.

(** X20.  A tilt entry always normalizes to a tilt with a positive
    period.  Whatever its mode and axis, a tilt changes the tilt of the
    frame by at most [maxDeg] degrees in absolute value and leaves the
    alpha and the scale alone; in the [time] mode it repeats with its
    period, and in the other modes it does not depend on the time. *)
Theorem tilt_bounded :
  (forall mode axis maxDeg periodMs,
     exists m ax p,
       normalize (CfgTilt mode axis maxDeg periodMs) = Some (Tilt m ax (default 8 maxDeg) (Some p)) /\
       p > 0 /\
       forall elapsed pointerX pointerY a,
         (m = time ->
          applyEffect (elapsed + p / 1000) pointerX pointerY a
            (Tilt m ax (default 8 maxDeg) (Some p))
          = applyEffect elapsed pointerX pointerY a (Tilt m ax (default 8 maxDeg) (Some p))) /\
         (m <> time ->
          forall elapsed',
            applyEffect elapsed' pointerX pointerY a (Tilt m ax (default 8 maxDeg) (Some p))
            = applyEffect elapsed pointerX pointerY a (Tilt m ax (default 8 maxDeg) (Some p)))) /\
  (forall mode axis maxDeg periodMs elapsed pointerX pointerY a,
     Rabs (acc_tiltRad (applyEffect elapsed pointerX pointerY a (Tilt mode axis maxDeg periodMs))
           - acc_tiltRad a)
     <= Rabs maxDeg * PI / 180 /\
     acc_alpha (applyEffect elapsed pointerX pointerY a (Tilt mode axis maxDeg periodMs))
     = acc_alpha a /\
     acc_scaleMul (applyEffect elapsed pointerX pointerY a (Tilt mode axis maxDeg periodMs))
     = acc_scaleMul a).
Proof.
  split.
  - intros mode axis maxDeg periodMs. eexists _, _, _. split; [reflexivity|].
    pose proof (positive_or_pos periodMs 4000 ltac:(lra)) as Hp.
    set (p := positive_or periodMs 4000) in *. clearbody p.
    split; [done|]. intros elapsed pointerX pointerY a.
    destruct mode as [[| |]|]; simpl; (split; [|done]); try done.
    intros _. rewrite !decide_True by lra.
    replace (2 * PI / (p / 1000) * (elapsed + p / 1000))
      with (2 * PI / (p / 1000) * elapsed + 2 * PI) by (field; lra).
    by rewrite sin_turn.
  - intros mode axis maxDeg periodMs elapsed pointerX pointerY a.
    pose proof PI_RGT_0 as Hpi.
    assert (Hzero : Rabs (acc_tiltRad a - acc_tiltRad a) <= Rabs maxDeg * PI / 180).
    { replace (acc_tiltRad a - acc_tiltRad a) with 0 by ring. rewrite Rabs_R0.
      pose proof (Rabs_pos maxDeg). nra. }
    assert (Hstep : forall deg, Rabs deg <= Rabs maxDeg ->
              Rabs (acc_tiltRad a + deg * PI / 180 - acc_tiltRad a) <= Rabs maxDeg * PI / 180).
    { intros deg Hdeg.
      replace (acc_tiltRad a + deg * PI / 180 - acc_tiltRad a) with (deg * PI / 180) by ring.
      by apply scaled_abs. }
    destruct mode; simpl.
    + split; [|done]. apply Hstep, clamp_sym_abs.
    + split; [|done]. apply Hstep, clamp_sym_abs.
    + destruct (decide _); simpl; (split; [|done]); [|exact Hzero].
      apply Hstep. rewrite Rabs_mult.
      match goal with |- context [Rtrigo_def.sin ?u] => pose proof (SIN_bound u) as Hs end.
      pose proof (Rabs_pos maxDeg).
      assert (Rabs (Rtrigo_def.sin (2 * PI / (default 4000 periodMs / 1000) * elapsed)) <= 1)
        by (unfold Rabs at 1; destruct (Rcase_abs _); lra).
      nra.
Qed.

(** A tilt in the time mode with the defaults repeats after four
    seconds. *)
Lemma tilt_bounded_witness :
  applyEffect (1 + positive_or None 4000 / 1000) 0 0
    {| acc_alpha := 1; acc_scaleMul := 1; acc_tiltRad := 0 |}
    (Tilt time both (default 8 None) (Some (positive_or None 4000)))
  = applyEffect 1 0 0 {| acc_alpha := 1; acc_scaleMul := 1; acc_tiltRad := 0 |}
      (Tilt time both (default 8 None) (Some (positive_or None 4000))).
Proof.
  destruct tilt_bounded as [Hnormal _].
  destruct (Hnormal (Some time) None None None) as (m & ax & p & Hspec & _ & Hperiod).
  simpl in Hspec. injection Hspec as <- <- <-.
  destruct (Hperiod 1 0 0 {| acc_alpha := 1; acc_scaleMul := 1; acc_tiltRad := 0 |})
    as [Htime _].
  by apply Htime.
Defined.

Lemma foldEffects_set_prevTiltRad elapsed pointerX pointerY item v :
  foldEffects elapsed pointerX pointerY (set_prevTiltRad item v)
  = foldEffects elapsed pointerX pointerY item.
Proof. done. Qed.

(** One frame keeps the rotation at the base plus the tilt recorded in
    the item. *)
Lemma basicTickItem_rotation elapsed pointerX pointerY item r h r0 :
  Pixi.rotation (h r) = Fin (r0 + default 0 (prevTiltRad item)) ->
  Pixi.rotation ((basicTickItem elapsed pointerX pointerY item r h).2 r)
  = Fin (r0 + acc_tiltRad (foldEffects elapsed pointerX pointerY item)) /\
  default 0 (prevTiltRad (basicTickItem elapsed pointerX pointerY item r h).1)
  = acc_tiltRad (foldEffects elapsed pointerX pointerY item) /\
  (forall e px py,
     foldEffects e px py (basicTickItem elapsed pointerX pointerY item r h).1
     = foldEffects e px py item).
Proof.
  intros Hrot. unfold basicTickItem.
  destruct (decide _) as [Heq|Hne]; simpl.
  - rewrite !write_eq. simpl. rewrite Hrot, Heq. done.
  - rewrite !write_eq. simpl. rewrite Hrot. simpl. split_and!; [|done..].
    f_equal. ring.
Qed.

Lemma basicFrames_rotation frames item r h r0 :
  Pixi.rotation (h r) = Fin (r0 + default 0 (prevTiltRad item)) ->
  Pixi.rotation ((basicFrames frames item r h).2 r)
  = Fin (r0 + default 0 (prevTiltRad (basicFrames frames item r h).1)) /\
  (forall e px py,
     foldEffects e px py (basicFrames frames item r h).1 = foldEffects e px py item).
Proof.
  revert item h. induction frames as [|[[elapsed pointerX] pointerY] frames IH];
    intros item h Hrot; [done|].
  simpl. destruct (basicTickItem elapsed pointerX pointerY item r h) as [item' h'] eqn:Htick.
  destruct (basicTickItem_rotation elapsed pointerX pointerY item r h r0 Hrot)
    as (Hrot' & Hprev & Hfold).
  rewrite Htick in Hrot', Hprev, Hfold. simpl in Hrot', Hprev, Hfold.
  destruct (IH item' h') as [Hfinal Hfold']; [by rewrite Hprev|].
  split; [done|]. intros e px py. by rewrite Hfold', Hfold.
Qed.

(** X21.  The tilt is applied relative to the rotation the sprite had
    before the first frame, not accumulated: for an item as
    [buildBasicEffects] creates it, after any number of frames the
    rotation is that base rotation plus the tilt of the last frame. *)
Theorem tilt_relative_to_base frames elapsed pointerX pointerY item r h r0 :
  prevTiltRad item = None ->
  Pixi.rotation (h r) = Fin r0 ->
  Pixi.rotation ((basicFrames (frames ++ [(elapsed, pointerX, pointerY)]) item r h).2 r)
  = Fin (r0 + acc_tiltRad (foldEffects elapsed pointerX pointerY item)).
Proof.
  intros Hprev Hrot.
  assert (Hsplit : forall l1 l2 it h0,
            basicFrames (l1 ++ l2) it r h0
            = basicFrames l2 (basicFrames l1 it r h0).1 r (basicFrames l1 it r h0).2).
  { induction l1 as [|[[e px] py] l1 IH]; intros l2 it h0; [done|].
    simpl. destruct (basicTickItem e px py it r h0) as [it' h']. apply IH. }
  rewrite Hsplit.
  destruct (basicFrames_rotation frames item r h r0) as [Hmid Hfold].
  { rewrite Hprev. simpl. rewrite Hrot. f_equal. ring. }
  simpl.
  destruct (basicTickItem_rotation elapsed pointerX pointerY
              (basicFrames frames item r h).1 r (basicFrames frames item r h).2 r0 Hmid)
    as (Hlast & _ & _).
  destruct (basicTickItem elapsed pointerX pointerY
              (basicFrames frames item r h).1 r (basicFrames frames item r h).2)
    as [item' h'] eqn:Htick.
  simpl in *. by rewrite Hlast, Hfold.
Qed.

(** A pointer tilt of 8 degrees about both axes, on a sprite rotated by
    1 radian, after three frames. *)
Lemma tilt_relative_to_base_witness :
  Pixi.rotation
    ((basicFrames ([(1, 0, 0); (2, 1, 1)] ++ [(3, 1, 0)])
        {| spriteIdx := 0; specs := [Tilt pointer both 8 (Some 4000)];
           baseAlpha := 1; baseScale := 1; prevTiltRad := None |}
        0%nat (fun _ => Pixi.set_rotation (Fin 1) Pixi.fresh)).2 0%nat)
  = Fin (1 + acc_tiltRad
               (foldEffects 3 1 0
                  {| spriteIdx := 0; specs := [Tilt pointer both 8 (Some 4000)];
                     baseAlpha := 1; baseScale := 1; prevTiltRad := None |})).
Proof.
  by apply tilt_relative_to_base.
Defined.

End BasicEffectFacts.

(** ** The advanced effects *)

Section AdvancedEffectFacts.
Import CoreMath Effect.

(** X22.  No aura is created.  The creation of an aura throws, so the
    processor is initialised exactly for the layers without a glow and
    without a bloom: with the capability switched on, [init] throws if
    and only if some layer has a glow or a bloom among its effects.
    When [init] returns, the scene is the one it was given, the basic
    items are those of [buildBasicEffects], and no advanced item has an
    aura.  With the capability switched off nothing advanced is built,
    and [init] returns for every list of layers. *)
Theorem aura_creation_throws :
  (forall owner auraInit st, addAura owner auraInit st = None) /\
  (forall (layers : list BuiltLayer) st,
     init false layers st
     = Some ({| basicItems := buildBasicItems layers; advancedItems := [];
                elapsedTime := 0 |}, st)) /\
  (forall (layers : list BuiltLayer) st,
     init true layers st = None <->
     exists layer effect,
       layer ∈ layers /\ effect ∈ parseEffects (layer_cfg layer) /\
       creates_aura effect = true) /\
  (forall (layers : list BuiltLayer) st p st',
     init true layers st = Some (p, st') ->
     st' = st /\
     basicItems p = buildBasicItems layers /\
     elapsedTime p = 0 /\
     Forall (fun item => auras item = []) (advancedItems p)).
Proof.
  split_and!.
  - done.
  - done.
  - intros layers st. unfold init, buildAdvancedItems. simpl.
    pose proof (buildAdvancedLoop_result 0 layers st) as Hloop.
    destruct (buildAdvancedLoop 0 layers st) as [[items st1]|].
    + destruct Hloop as (_ & _ & Hnone). split; [done|].
      intros (layer & effect & Hl & He & Hc). by rewrite (Hnone layer effect Hl He) in Hc.
    + done.
  - intros layers st p st'. unfold init, buildAdvancedItems. simpl.
    pose proof (buildAdvancedLoop_result 0 layers st) as Hloop.
    destruct (buildAdvancedLoop 0 layers st) as [[items st1]|]; [|done].
    destruct Hloop as (-> & Hauras & _). by intros [= <- <-].
Qed.

(** The layer with a bloom: [init] throws at its aura. *)
Lemma aura_creation_throws_witness : init true [Samples.dim] Samples.stage = None.
Proof.
  destruct aura_creation_throws as (_ & _ & Hthrows & _).
  apply Hthrows. exists Samples.dim, (Bloom (-10) (Some (5 / 10))).
  split_and!; [by apply list_elem_of_singleton | by apply list_elem_of_singleton | done].
Defined.

Lemma updateAuras_owner elapsed owner l h :
  Forall (fun aura => aura_sprite aura <> owner) l ->
  updateAuras elapsed owner l h owner = h owner.
Proof.
  intros Hl. revert h. induction Hl as [|aura l Hne _ IH]; intros h; [done|].
  simpl. rewrite IH. by rewrite !write_ne.
Qed.

Lemma updateAuras_follow elapsed owner l h r :
  Forall (fun aura => aura_sprite aura <> owner) l ->
  r ∈ aura_sprite <$> l \/
  (Pixi.x (h r) = Pixi.x (h owner) /\ Pixi.y (h r) = Pixi.y (h owner) /\
   Pixi.rotation (h r) = Pixi.rotation (h owner)) ->
  Pixi.x (updateAuras elapsed owner l h r) = Pixi.x (h owner) /\
  Pixi.y (updateAuras elapsed owner l h r) = Pixi.y (h owner) /\
  Pixi.rotation (updateAuras elapsed owner l h r) = Pixi.rotation (h owner).
Proof.
  intros Hl. revert h. induction Hl as [|aura l Hne _ IH]; intros h Hr.
  - destruct Hr as [Hr|Hr]; [by apply elem_of_nil in Hr | done].
  - simpl.
    match goal with |- context [updateAuras elapsed owner l ?h4] => set (h' := h4) end.
    assert (Howner : h' owner = h owner) by (unfold h'; by rewrite !write_ne).
    rewrite <- Howner. apply IH.
    destruct (decide (r = aura_sprite aura)) as [->|Hother].
    + right. unfold h'. rewrite !write_eq. simpl. by rewrite !write_ne by done.
    + rewrite fmap_cons in Hr. destruct Hr as [Hr|Hr].
      * apply elem_of_cons in Hr as [Hr|Hr]; [done | by left].
      * right. rewrite Howner. unfold h'. by rewrite !write_ne.
Qed.

(** X23.  In a frame the auras of an item are moved onto their owner:
    each aura gets the position and the rotation the owner has at that
    moment, and the owner is not changed by this.  A distortion of the
    same frame is added to the owner afterwards, so the auras then
    trail the owner by that offset. *)
Theorem auras_follow_owner elapsed owner l h aura :
  Forall (fun aura => aura_sprite aura <> owner) l ->
  aura ∈ l ->
  Pixi.x (updateAuras elapsed owner l h (aura_sprite aura)) = Pixi.x (h owner) /\
  Pixi.y (updateAuras elapsed owner l h (aura_sprite aura)) = Pixi.y (h owner) /\
  Pixi.rotation (updateAuras elapsed owner l h (aura_sprite aura)) = Pixi.rotation (h owner) /\
  updateAuras elapsed owner l h owner = h owner /\
  (forall idx d,
     Pixi.x (advancedTickItem elapsed
               {| adv_spriteIdx := idx; auras := l; distort := Some d; shock := None |}
               owner h owner)
     = JS.add (Pixi.x (h owner))
         (Fin (ampPx d * Rtrigo_def.sin (elapsed * speed d * 2 * PI))) /\
     Pixi.x (advancedTickItem elapsed
               {| adv_spriteIdx := idx; auras := l; distort := Some d; shock := None |}
               owner h (aura_sprite aura))
     = Pixi.x (h owner)).
Proof.
  intros Hl Hin.
  assert (Hmem : aura_sprite aura ∈ aura_sprite <$> l) by (apply list_elem_of_fmap; eauto).
  assert (Hne : aura_sprite aura <> owner) by (rewrite Forall_forall in Hl; by apply Hl).
  destruct (updateAuras_follow elapsed owner l h (aura_sprite aura) Hl (or_introl Hmem))
    as (Hx & Hy & Hrot).
  split; [exact Hx|]. split; [exact Hy|]. split; [exact Hrot|].
  split; [by apply updateAuras_owner|].
  intros idx d. unfold advancedTickItem. simpl. split.
  - repeat (rewrite write_eq; simpl). by rewrite updateAuras_owner.
  - by rewrite !write_ne.
Qed.

(** The glow of the sample layer after its owner has moved to (3, 4). *)
Lemma auras_follow_owner_witness :
  Pixi.x (updateAuras 1 0%nat
            [ {| aura_sprite := 1%nat; aura_baseScale := 1; aura_strength := 1;
                 aura_pulseMs := None; aura_color := None; aura_alpha := Fin 1 |} ]
            (fun _ => Pixi.set_x (Fin 3) Pixi.fresh) 1%nat)
  = Fin 3.
Proof.
  destruct (auras_follow_owner 1 0%nat
              [ {| aura_sprite := 1%nat; aura_baseScale := 1; aura_strength := 1;
                   aura_pulseMs := None; aura_color := None; aura_alpha := Fin 1 |} ]
              (fun _ => Pixi.set_x (Fin 3) Pixi.fresh)
              {| aura_sprite := 1%nat; aura_baseScale := 1; aura_strength := 1;
                 aura_pulseMs := None; aura_color := None; aura_alpha := Fin 1 |})
    as (Hx & _).
  - apply Forall_singleton. simpl. lia.
  - by apply list_elem_of_singleton.
  - exact Hx.
Defined.

(** X24.  A shockwave of positive period sets the scale of its layer
    to the base scale times a factor between 1 and [maxScale], whatever
    the basic effects wrote before it in the same frame; with [fade] it
    also replaces the alpha by a value of [[0.6, 1]], and without it
    leaves the alpha alone.  A shockwave whose period is not positive
    does nothing. *)
Theorem shockwave_bounds idx sh elapsed r h :
  0 <= elapsed ->
  (period sh > 0 ->
   exists mul,
     Pixi.scaleX (advancedTickItem elapsed
                    {| adv_spriteIdx := idx; auras := []; distort := None; shock := Some sh |} r h r)
     = Fin (shock_baseScale sh * mul) /\
     Pixi.scaleY (advancedTickItem elapsed
                    {| adv_spriteIdx := idx; auras := []; distort := None; shock := Some sh |} r h r)
     = Fin (shock_baseScale sh * mul) /\
     Rmin 1 (maxScale sh) <= mul <= Rmax 1 (maxScale sh) /\
     (shock_fade sh = true ->
      exists a,
        Pixi.alpha (advancedTickItem elapsed
                      {| adv_spriteIdx := idx; auras := []; distort := None; shock := Some sh |} r h r)
        = Fin a /\ 6 / 10 <= a <= 1) /\
     (shock_fade sh = false ->
      Pixi.alpha (advancedTickItem elapsed
                    {| adv_spriteIdx := idx; auras := []; distort := None; shock := Some sh |} r h r)
      = Pixi.alpha (h r))) /\
  (period sh <= 0 ->
   advancedTickItem elapsed
     {| adv_spriteIdx := idx; auras := []; distort := None; shock := Some sh |} r h = h).
Proof.
  intros He. split.
  - intros Hp. unfold advancedTickItem. simpl. rewrite decide_True by lra.
    destruct (phase_unit elapsed (period sh / 1000) He ltac:(lra)) as [Hlo Hhi].
    set (phase := fmod elapsed (period sh / 1000) / (period sh / 1000)) in *.
    exists (1 + (maxScale sh - 1) * Rtrigo_def.sin (PI * phase)).
    assert (Hsin : 0 <= Rtrigo_def.sin (PI * phase) <= 1).
    { pose proof PI_RGT_0. split; [|apply SIN_bound].
      apply sin_ge_0; nra. }
    assert (Hmul : Rmin 1 (maxScale sh) <= 1 + (maxScale sh - 1) * Rtrigo_def.sin (PI * phase)
                   <= Rmax 1 (maxScale sh)).
    { unfold Rmin, Rmax. destruct (Rle_dec _ _); nra. }
    destruct (shock_fade sh) eqn:Hfade; repeat (rewrite write_eq; simpl).
    + split; [done|]. split; [done|]. split; [exact Hmul|]. split; [|done].
      intros _. eexists. split; [reflexivity|]. apply shockAlpha_range.
    + split; [done|]. split; [done|]. split; [exact Hmul|]. split; done.
  - intros Hp. unfold advancedTickItem. simpl. by rewrite decide_False by lra.
Qed.

(** The default shockwave after 0.3 seconds. *)
Lemma shockwave_bounds_witness :
  exists mul,
    Pixi.scaleX (advancedTickItem (3 / 10)
                   {| adv_spriteIdx := 0; auras := []; distort := None;
                      shock := Some {| period := 1200; maxScale := 13 / 10; shock_fade := true;
                                       shock_baseScale := 1 |} |} 0%nat Samples.blank 0%nat)
    = Fin (1 * mul) /\
    Rmin 1 (13 / 10) <= mul <= Rmax 1 (13 / 10).
Proof.
  destruct (shockwave_bounds 0
              {| period := 1200; maxScale := 13 / 10; shock_fade := true; shock_baseScale := 1 |}
              (3 / 10) 0%nat Samples.blank) as [Hon _]; [lra|].
  destruct Hon as (mul & Hx & _ & Hmul & _); [simpl; lra|].
  by exists mul.
Defined.

Lemma buildBasicLoop_items idx (layers : list BuiltLayer) item :
  item ∈ buildBasicLoop idx layers ->
  exists layer,
    (idx <= spriteIdx item)%nat /\
    layers !! (spriteIdx item - idx)%nat = Some layer /\
    specs item = List.filter is_basic (parseEffects (layer_cfg layer)) /\
    specs item <> [] /\
    baseAlpha item = 1 /\
    baseScale item = layer_baseScale layer /\
    prevTiltRad item = None.
Proof.
  revert idx. induction layers as [|layer layers IH]; intros idx Hin.
  - by apply elem_of_nil in Hin.
  - simpl in Hin.
    assert (Hrest : item ∈ buildBasicLoop (S idx) layers ->
              exists layer0,
                (idx <= spriteIdx item)%nat /\
                (layer :: layers) !! (spriteIdx item - idx)%nat = Some layer0 /\
                specs item = List.filter is_basic (parseEffects (layer_cfg layer0)) /\
                specs item <> [] /\ baseAlpha item = 1 /\
                baseScale item = layer_baseScale layer0 /\ prevTiltRad item = None).
    { intros Hr. destruct (IH _ Hr) as (layer0 & Hle & Hl & Hrest).
      exists layer0. split; [lia|]. split; [|done].
      replace (spriteIdx item - idx)%nat with (S (spriteIdx item - S idx)) by lia. done. }
    destruct (List.filter is_basic (parseEffects (layer_cfg layer))) as [|e es] eqn:Hf;
      [by apply Hrest|].
    apply elem_of_cons in Hin as [-> | Hin]; [|by apply Hrest].
    exists layer. simpl. rewrite Nat.sub_diag. by rewrite Hf.
Qed.

Lemma buildBasicLoop_increasing idx (layers : list BuiltLayer) :
  forall i j a b,
    buildBasicLoop idx layers !! i = Some a ->
    buildBasicLoop idx layers !! j = Some b ->
    (i < j)%nat -> (spriteIdx a < spriteIdx b)%nat.
Proof.
  revert idx. induction layers as [|layer layers IH]; intros idx i j a b Ha Hb Hij; [done|].
  simpl in Ha, Hb.
  destruct (List.filter is_basic (parseEffects (layer_cfg layer))) as [|e es];
    [by eapply IH|].
  destruct i as [|i], j as [|j]; try lia.
  - simpl in Ha, Hb. injection Ha as <-. simpl.
    apply list_elem_of_lookup_2 in Hb.
    destruct (buildBasicLoop_items _ _ _ Hb) as (_ & Hle & _). lia.
  - simpl in Ha, Hb. eapply IH; [done..|lia].
Qed.

(** X25.  The basic items index the layers they were built from: each
    item holds the index of a layer that has at least one fade, pulse
    or tilt, with exactly those effects of the layer in their order,
    the base alpha 1, the base scale of the layer and no tilt recorded;
    the indices increase along the list, so a layer has at most one
    item; and with the same layers no item is skipped by the tick. *)
Theorem basic_items_index_layers (layers : list BuiltLayer) :
  Forall (fun item =>
            exists layer,
              layers !! spriteIdx item = Some layer /\
              specs item = List.filter is_basic (parseEffects (layer_cfg layer)) /\
              specs item <> [] /\
              Forall (fun e => is_basic e = true) (specs item) /\
              baseAlpha item = 1 /\
              baseScale item = layer_baseScale layer /\
              prevTiltRad item = None)
         (buildBasicItems layers) /\
  (forall i j a b,
     buildBasicItems layers !! i = Some a ->
     buildBasicItems layers !! j = Some b ->
     (i < j)%nat -> (spriteIdx a < spriteIdx b)%nat) /\
  (length (buildBasicItems layers) <= length layers)%nat.
Proof.
  split_and!.
  - apply Forall_forall. intros item Hin.
    destruct (buildBasicLoop_items 0 layers item Hin)
      as (layer & _ & Hl & Hspecs & Hne & Ha & Hs & Hp).
    rewrite Nat.sub_0_r in Hl. exists layer. split_and!; try done.
    rewrite Hspecs. apply Forall_forall. intros e He.
    apply list_elem_of_In, filter_In in He. tauto.
  - apply buildBasicLoop_increasing.
  - unfold buildBasicItems. generalize 0%nat.
    induction layers as [|layer layers IH]; intros idx; [done|].
    simpl. destruct (List.filter _ _); simpl; [specialize (IH (S idx)); lia|].
    specialize (IH (S idx)). lia.
Qed.

End AdvancedEffectFacts.

(** ** The ticker *)

Section TickerFacts.
Import Ticker.

Lemma deltasOf_app c l1 l2 : deltasOf c (l1 ++ l2) = deltasOf c l1 ++ deltasOf c l2.
Proof. unfold deltasOf. apply omap_app. Qed.

Lemma total_app l1 l2 : total (l1 ++ l2) = total l1 + total l2.
Proof. induction l1 as [|d l1 IH]; simpl; [lra|]. rewrite IH. lra. Qed.

Lemma deltasOf_absent c d (l : list TickerCallback) :
  c ∉ l -> deltasOf c ((fun callback => (callback, d)) <$> l) = [].
Proof.
  induction l as [|c' l IH]; intros Hc; [done|].
  apply not_elem_of_cons in Hc as [Hne Hc].
  unfold deltasOf in *. csimpl. rewrite decide_False by done. by apply IH.
Qed.

Lemma deltasOf_once c d (l : list TickerCallback) :
  NoDup l -> c ∈ l -> deltasOf c ((fun callback => (callback, d)) <$> l) = [d].
Proof.
  induction l as [|c' l IH]; intros Hnd Hc; [by apply elem_of_nil in Hc|].
  apply NoDup_cons in Hnd as [Hnotin Hnd].
  unfold deltasOf in *. csimpl.
  apply elem_of_cons in Hc as [<- | Hc].
  - rewrite decide_True by done. f_equal. by apply deltasOf_absent.
  - rewrite decide_False by (intros <-; done). by apply IH.
Qed.

Lemma last_nonempty (a : R) l d d' : List.last (a :: l) d = List.last (a :: l) d'.
Proof.
  revert a. induction l as [|b l IH]; intros a; [done|].
  change (List.last (b :: l) d = List.last (b :: l) d'). apply IH.
Qed.

Lemma frames_cons t ts s :
  frames (t :: ts) s
  = ((frames ts (frame t s).1).1, (frame t s).2 ++ (frames ts (frame t s).1).2).
Proof.
  cbn [frames]. destruct (frame t s) as [s' calls]. cbn [fst snd].
  by destruct (frames ts s').
Qed.

(** While a frame is requested, the deltas handed to a callback add up
    to the time between the last frame before and the last frame. *)
Lemma frames_total c times s :
  rafId s = true -> NoDup (callbacks s) -> c ∈ callbacks s ->
  lastTime s <> 0 -> Forall (fun t => t <> 0) times ->
  total (deltasOf c (frames times s).2) = (List.last times (lastTime s) - lastTime s) / 1000 /\
  lastTime (frames times s).1 = List.last times (lastTime s) /\
  callbacks (frames times s).1 = callbacks s.
Proof.
  intros Hraf Hnd Hc Hlast Htimes. revert s Hraf Hnd Hc Hlast.
  induction Htimes as [|t times Ht _ IH]; intros s Hraf Hnd Hc Hlast.
  - simpl. split_and!; [lra|done..].
  - rewrite frames_cons.
    assert (Hframe : frame t s = tick t s) by (unfold frame; by rewrite Hraf).
    rewrite Hframe. cbn [fst snd].
    destruct (IH (tick t s).1) as (Htotal & Hl & Hcb);
      [done | exact Hnd | exact Hc | exact Ht |].
    rewrite deltasOf_app, total_app, Htotal, Hl, Hcb.
    change (lastTime (tick t s).1) with t.
    change (callbacks (tick t s).1) with (callbacks s).
    change ((tick t s).2)
      with ((fun callback =>
               (callback, if decide (lastTime s = 0) then 0 else (t - lastTime s) / 1000))
              <$> callbacks s).
    rewrite deltasOf_once by done.
    rewrite decide_False by done. simpl total.
    assert (Hsame : List.last times t = List.last (t :: times) (lastTime s))
      by (destruct times as [|t' times'];
          [done | exact (last_nonempty t' times' t (lastTime s))]).
    rewrite <- Hsame. split_and!; [lra | done | done].
Qed.

(** X26.  [start] and [stop] do nothing when repeated, and a stopped
    ticker calls nothing whatever frames the host delivers.  After a
    [start], every frame calls each registered callback once, in the
    order of registration; the first frame hands over the delta 0, and
    for time stamps other than 0 the deltas handed to a callback add up
    to the time between the first and the last frame, in seconds, which
    is the time the clock of a Spin processor driven by them advances. *)
Theorem ticker_deltas :
  (forall s, start (start s) = start s /\ stop (stop s) = stop s /\
             isRunning (start s) = true /\ isRunning (stop s) = false) /\
  (forall s times,
     isRunning s = rafId s -> (frames times (stop s)).2 = []) /\
  (forall s t,
     isRunning s = false ->
     (frame t (start s)).2 = (fun callback => (callback, 0)) <$> callbacks s) /\
  (forall s c t times,
     isRunning s = false -> NoDup (callbacks s) -> c ∈ callbacks s ->
     Forall (fun t => t <> 0) (t :: times) ->
     total (deltasOf c (frames (t :: times) (start s)).2) = (List.last times t - t) / 1000 /\
     forall p h,
       SpinL.items p <> [] ->
       SpinL.elapsedTime (SpinL.run (deltasOf c (frames (t :: times) (start s)).2) p h).1
       = SpinL.elapsedTime p + (List.last times t - t) / 1000).
Proof.
  split_and!.
  - intros s. unfold start, stop.
    destruct (isRunning s) eqn:Hr; simpl; by rewrite ?Hr.
  - intros s times Hinv.
    assert (Hoff : rafId (stop s) = false).
    { unfold stop. destruct (isRunning s) eqn:Hr; simpl; [done | by rewrite <- Hinv]. }
    revert Hoff. generalize (stop s). clear.
    induction times as [|t times IH]; intros s Hoff; [done|].
    assert (Hframe : frame t s = (s, [])) by (unfold frame; by rewrite Hoff).
    rewrite frames_cons, Hframe. cbn [fst snd app]. by apply IH.
  - intros s t Hoff. unfold start. rewrite Hoff. unfold frame, tick. simpl.
    by rewrite decide_True by done.
  - intros s c t times Hoff Hnd Hc Htimes.
    apply Forall_cons in Htimes as [Ht Htimes].
    assert (Htotal : total (deltasOf c (frames (t :: times) (start s)).2)
                     = (List.last times t - t) / 1000).
    { unfold start. rewrite Hoff. rewrite frames_cons.
      match goal with |- context [frame t ?s0] =>
        assert (Hframe : frame t s0
                         = ({| callbacks := callbacks s; isRunning := true; rafId := true;
                               lastTime := t |},
                            (fun callback => (callback, 0)) <$> callbacks s))
          by (unfold frame, tick; simpl; by rewrite decide_True by done)
      end.
      rewrite Hframe. cbn [fst snd].
      rewrite deltasOf_app, total_app, deltasOf_once by done.
      destruct (frames_total c times
                  {| callbacks := callbacks s; isRunning := true; rafId := true; lastTime := t |})
        as (Hsum & _); [done..|].
      rewrite Hsum. simpl. lra. }
    split; [done|].
    intros p h Hp. rewrite run_elapsed by done. by rewrite Htotal.
Qed.

(** One callback, and frames at 100 ms, 116 ms and 133 ms. *)
Lemma ticker_deltas_witness :
  total (deltasOf 7%nat (frames [100; 116; 133] (start (add 7%nat createTicker))).2)
  = (133 - 100) / 1000.
Proof.
  destruct ticker_deltas as (_ & _ & _ & Hsum).
  destruct (Hsum (add 7%nat createTicker) 7%nat 100 [116; 133]) as [Htotal _].
  - done.
  - simpl. apply NoDup_singleton.
  - simpl. by left.
  - repeat constructor; lra.
  - exact Htotal.
Defined.

End TickerFacts.

(** ** The z-index of a layer and the order of the layers *)

Section ZIndexFacts.
Import Stdlib.Strings.Ascii Utils LayerUtils.

Lemma first_digits_skip (prefix s : string) :
  (forall c, c ∈ String.list_ascii_of_string prefix -> is_digit c = false) ->
  first_digits (prefix +:+ s) = first_digits s.
Proof.
  induction prefix as [|c prefix IH]; intros Hp; [done|].
  simpl. rewrite (Hp c) by (simpl; by left).
  apply IH. intros c' Hc'. apply Hp. simpl. by right.
Qed.

Lemma leading_digits_run (digits : list Ascii.ascii) (rest : string) :
  Forall (fun c => is_digit c = true) digits ->
  leading_digits (String.string_of_list_ascii digits +:+ rest)
  = digits ++ leading_digits rest.
Proof.
  induction 1 as [|c digits Hc _ IH]; [done|].
  simpl. by rewrite Hc, IH.
Qed.

Lemma parseInt10_from (n : N) (digits : list Ascii.ascii) :
  Forall (fun c => is_digit c = true) digits ->
  (foldl (fun n c => 10 * n + (Ascii.N_of_ascii c - 48)) n digits
   < (n + 1) * 10 ^ N.of_nat (length digits))%N.
Proof.
  intros Hd. revert n. induction Hd as [|c digits Hc _ IH]; intros n.
  - simpl. lia.
  - cbn [foldl length]. specialize (IH (10 * n + (Ascii.N_of_ascii c - 48))%N).
    unfold is_digit in Hc. apply andb_prop in Hc as [Hlo Hhi].
    apply N.leb_le in Hlo, Hhi.
    rewrite Nat2N.inj_succ, N.pow_succ_r'.
    eapply N.lt_le_trans; [exact IH|].
    replace ((n + 1) * (10 * 10 ^ N.of_nat (length digits)))%N
      with ((10 * n + 10) * 10 ^ N.of_nat (length digits))%N by lia.
    apply N.mul_le_mono_r. lia.
Qed.

(** X27.  [extractZIndex] reads the first run of digits of a layer id
    and nothing after it: an id without a digit has the z-index 0, and
    an id made of a prefix without digits, a run of digits and a rest
    that does not start with a digit has the value of that run, whatever
    digits the rest holds further on.  The value of a run is positional
    in base 10, zeros in front do not change it, and a run of [n]
    digits is below [10 ^ n]. *)
Theorem extractZIndex_first_run :
  (forall layerId,
     (forall c, c ∈ String.list_ascii_of_string layerId -> is_digit c = false) ->
     extractZIndex layerId = 0%N) /\
  (forall prefix digits rest,
     (forall c, c ∈ String.list_ascii_of_string prefix -> is_digit c = false) ->
     digits <> [] -> Forall (fun c => is_digit c = true) digits ->
     leading_digits rest = [] ->
     extractZIndex (prefix +:+ String.string_of_list_ascii digits +:+ rest)
     = parseInt10 digits) /\
  (forall digits c,
     parseInt10 (digits ++ [c]) = (10 * parseInt10 digits + (Ascii.N_of_ascii c - 48))%N) /\
  (forall digits, parseInt10 ("0"%char :: digits) = parseInt10 digits) /\
  (forall digits,
     Forall (fun c => is_digit c = true) digits ->
     (parseInt10 digits < 10 ^ N.of_nat (length digits))%N).
Proof.
  split_and!.
  - intros layerId Hno. unfold extractZIndex.
    assert (Hempty : layerId +:+ "" = layerId).
    { clear Hno. induction layerId as [|c s IH]; [done|].
      change (String c (s +:+ "") = String c s). by rewrite IH. }
    rewrite <- Hempty. by rewrite first_digits_skip.
  - intros prefix digits rest Hp Hne Hd Hrest. unfold extractZIndex.
    rewrite first_digits_skip by done.
    destruct Hd as [|c digits Hc Hd]; [done|].
    simpl. rewrite Hc, leading_digits_run, Hrest, app_nil_r by done. done.
  - intros digits c. unfold parseInt10. by rewrite foldl_app.
  - done.
  - intros digits Hd. unfold parseInt10.
    pose proof (parseInt10_from 0 digits Hd). lia.
Qed.

(** The id [bg2_copy10] has the z-index 2. *)
Lemma extractZIndex_first_run_witness : extractZIndex "bg2_copy10" = parseInt10 ["2"%char].
Proof.
  destruct extractZIndex_first_run as (_ & Hrun & _).
  apply (Hrun "bg" ["2"%char] "_copy10").
  - intros c Hc. simpl in Hc.
    apply elem_of_cons in Hc as [-> | Hc]; [done|].
    by apply list_elem_of_singleton in Hc as ->.
  - done.
  - by repeat constructor.
  - done.
Defined.

Lemma insertLayer_perm compare a l : insertLayer compare a l ≡ₚ a :: l.
Proof.
  induction l as [|b l IH]; [done|].
  simpl. destruct (decide _); [done|].
  rewrite IH. apply Permutation_swap.
Qed.

Lemma compareLayers_le localeCompare a b :
  (compareLayers localeCompare a b <= 0)%Z ->
  (extractZIndex (id a) <= extractZIndex (id b))%N.
Proof. unfold compareLayers. destruct (decide _); lia. Qed.

Lemma compareLayers_gt localeCompare a b :
  ~ (compareLayers localeCompare a b <= 0)%Z ->
  (extractZIndex (id b) <= extractZIndex (id a))%N.
Proof. unfold compareLayers. destruct (decide _); lia. Qed.

Lemma insertLayer_sorted localeCompare a l :
  StronglySorted (fun a b => (extractZIndex (id a) <= extractZIndex (id b))%N) l ->
  StronglySorted (fun a b => (extractZIndex (id a) <= extractZIndex (id b))%N)
    (insertLayer (compareLayers localeCompare) a l).
Proof.
  induction 1 as [|b l Hsorted IH Hb]; simpl.
  - repeat constructor.
  - destruct (decide _) as [Hle|Hgt].
    + apply compareLayers_le in Hle.
      constructor; [by constructor|].
      constructor; [done|]. eapply Forall_impl; [exact Hb|]. simpl. lia.
    + apply compareLayers_gt in Hgt.
      constructor; [done|].
      rewrite insertLayer_perm. by constructor.
Qed.

(** X28.  [sortLayersByZIndex] returns the layers it was given, each as
    often as it occurs, in an order in which the z-index never
    decreases, so layers whose id has no digit come first; layers that
    are already in strictly increasing order of z-index are returned as
    they are.  None of this depends on the comparison of the host. *)
Theorem sortLayersByZIndex_sorted localeCompare (layers : list LayerConfig) :
  sortLayersByZIndex localeCompare layers ≡ₚ layers /\
  StronglySorted (fun a b => (extractZIndex (id a) <= extractZIndex (id b))%N)
    (sortLayersByZIndex localeCompare layers) /\
  (StronglySorted (fun a b => (extractZIndex (id a) < extractZIndex (id b))%N) layers ->
   sortLayersByZIndex localeCompare layers = layers).
Proof.
  split_and!.
  - induction layers as [|a layers IH]; [done|].
    simpl. by rewrite insertLayer_perm, IH.
  - induction layers as [|a layers IH]; [constructor|].
    simpl. by apply insertLayer_sorted.
  - induction 1 as [|a layers Hsorted IH Ha]; [done|].
    simpl. rewrite IH. destruct layers as [|b layers]; [done|].
    simpl. rewrite decide_True; [done|].
    apply Forall_cons in Ha as [Hab _].
    unfold compareLayers. rewrite decide_True by lia. lia.
Qed.

(** The sample layer [planet1] and a layer [moon2] are in order. *)
Lemma sortLayersByZIndex_sorted_witness :
  sortLayersByZIndex (fun _ _ => 0%Z)
    [ Samples.planet_cfg;
      {| id := "moon2"; position := None; scalePct := None; angleDeg := None;
         spinRPM := UNullish; spinDir := None; orbitRPM := UNullish; orbitDir := None;
         orbitCenter := None; orbitPhaseDeg := None; orbitOrientPolicy := None;
         orbitOrientDeg := None; effects := [] |} ]
  = [ Samples.planet_cfg;
      {| id := "moon2"; position := None; scalePct := None; angleDeg := None;
         spinRPM := UNullish; spinDir := None; orbitRPM := UNullish; orbitDir := None;
         orbitCenter := None; orbitPhaseDeg := None; orbitOrientPolicy := None;
         orbitOrientDeg := None; effects := [] |} ].
Proof.
  destruct (sortLayersByZIndex_sorted (fun _ _ => 0%Z)
              [ Samples.planet_cfg;
                {| id := "moon2"; position := None; scalePct := None; angleDeg := None;
                   spinRPM := UNullish; spinDir := None; orbitRPM := UNullish; orbitDir := None;
                   orbitCenter := None; orbitPhaseDeg := None; orbitOrientPolicy := None;
                   orbitOrientDeg := None; effects := [] |} ])
    as (_ & _ & Hsame).
  apply Hsame. repeat constructor.
Defined.

End ZIndexFacts.

(** ** The Basic processor *)

Section BasicFacts.
Import CoreMath Utils Basic.

Lemma applyTransformToSprite_at r transform sc :
  sprites (applyTransformToSprite r transform sc) r
  = Pixi.set_rotation (Fin (rotation transform))
      (Pixi.set_scale (Fin (scaleX transform)) (Fin (scaleY transform))
         (Pixi.set_y (Fin (y transform)) (Pixi.set_x (Fin (x transform)) (sprites sc r)))).
Proof. unfold applyTransformToSprite. simpl. by rewrite !write_eq. Qed.

Lemma applyTransformToSprite_other r r' transform sc :
  r' <> r ->
  sprites (applyTransformToSprite r transform sc) r' = sprites sc r' /\
  zIndexOf (applyTransformToSprite r transform sc) r' = zIndexOf sc r'.
Proof.
  intros Hne. unfold applyTransformToSprite, set_zIndex. simpl.
  rewrite !write_ne by done. by rewrite decide_False.
Qed.

Lemma applyAll_other (layers : list BuiltLayer) p sc p' sc' r :
  applyAll layers p sc = Some (p', sc') ->
  r ∉ layer_sprite <$> layers ->
  sprites sc' r = sprites sc r /\ zIndexOf sc' r = zIndexOf sc r.
Proof.
  revert p sc. induction layers as [|layer layers IH]; intros p sc Hall Hr.
  - by injection Hall as <- <-.
  - simpl in Hall. destruct (getBasicTransform (layer_cfg layer)) as [transform|]; [|done].
    rewrite fmap_cons in Hr. apply not_elem_of_cons in Hr as [Hne Hr].
    destruct (IH _ _ Hall Hr) as [Hs Hz].
    destruct (applyTransformToSprite_other (layer_sprite layer) r transform sc Hne) as [Hs' Hz'].
    by rewrite Hs, Hz, Hs', Hz'.
Qed.

Lemma applyAll_at (layers : list BuiltLayer) p sc p' sc' layer :
  applyAll layers p sc = Some (p', sc') ->
  NoDup (layer_sprite <$> layers) ->
  layer ∈ layers ->
  exists transform,
    getBasicTransform (layer_cfg layer) = Some transform /\
    sprites sc' (layer_sprite layer)
    = Pixi.set_rotation (Fin (rotation transform))
        (Pixi.set_scale (Fin (scaleX transform)) (Fin (scaleY transform))
           (Pixi.set_y (Fin (y transform))
              (Pixi.set_x (Fin (x transform)) (sprites sc (layer_sprite layer))))) /\
    zIndexOf sc' (layer_sprite layer) = zIndex transform.
Proof.
  revert p sc. induction layers as [|first layers IH]; intros p sc Hall Hnd Hin.
  - by apply elem_of_nil in Hin.
  - simpl in Hall. destruct (getBasicTransform (layer_cfg first)) as [transform|] eqn:Hget;
      [|done].
    rewrite fmap_cons in Hnd. apply NoDup_cons in Hnd as [Hfirst Hnd].
    apply elem_of_cons in Hin as [-> | Hin].
    + exists transform. split; [done|].
      destruct (applyAll_other _ _ _ _ _ _ Hall Hfirst) as [-> ->].
      rewrite applyTransformToSprite_at. split; [done|].
      unfold applyTransformToSprite, set_zIndex. simpl. by rewrite decide_True.
    + destruct (IH _ _ Hall Hnd Hin) as (t & Ht & Hs & Hz).
      exists t. split; [done|]. rewrite Hs, Hz. split; [|done].
      assert (Hne : layer_sprite layer <> layer_sprite first).
      { intros Heq. apply Hfirst. rewrite <- Heq. apply list_elem_of_fmap. eauto. }
      by destruct (applyTransformToSprite_other (layer_sprite first) _ transform sc Hne)
        as [-> _].
Qed.

Lemma applyAll_missing_position (layers : list BuiltLayer) p sc layer :
  layer ∈ layers -> position (layer_cfg layer) = None -> applyAll layers p sc = None.
Proof.
  revert p sc. induction layers as [|first layers IH]; intros p sc Hin Hpos.
  - by apply elem_of_nil in Hin.
  - simpl. apply elem_of_cons in Hin as [<- | Hin].
    + unfold getBasicTransform. by rewrite Hpos.
    + destruct (getBasicTransform (layer_cfg first)); [by apply IH | done].
Qed.

Lemma applyAll_transforms (layers : list BuiltLayer) p q sc :
  (forall k, k ∉ layer_id <$> layers -> p !! k = q !! k) ->
  applyAll layers p sc = applyAll layers q sc.
Proof.
  revert p q sc. induction layers as [|layer layers IH]; intros p q sc Hpq.
  - simpl. do 2 f_equal. apply map_eq. intros k. apply Hpq. apply not_elem_of_nil.
  - simpl. destruct (getBasicTransform (layer_cfg layer)) as [transform|]; [|done].
    apply IH. intros k Hk. unfold BasicProcessor in *.
    destruct (decide (k = layer_id layer)) as [->|Hne].
    + by rewrite !lookup_insert_eq.
    + rewrite !lookup_insert_ne by done. apply Hpq.
      rewrite fmap_cons. by apply not_elem_of_cons.
Qed.

(** X29.  [applyBasicTransform] and [getBasicTransform] followed by
    [applyTransformToSprite] are the same assignment, and both throw
    exactly for a layer without a position.  After [init] on layers
    with sprites of their own, the sprite of a layer has the rotation
    [toRad(angleDeg ?? 0)], which is the base rotation the Spin
    processor then reads for it, and its alpha is as before.  [init]
    throws when a layer has no position.  A transform stored by
    [updateTransform] for one of the layers is replaced by the next
    [onResize]. *)
Theorem basic_transform_applied :
  (forall r cfg sc,
     applyBasicTransform r cfg sc
     = (fun transform => applyTransformToSprite r transform sc) <$> getBasicTransform cfg) /\
  (forall cfg, getBasicTransform cfg = None <-> position cfg = None) /\
  (forall (layers : list BuiltLayer) p sc p' sc' layer,
     init layers p sc = Some (p', sc') ->
     NoDup (layer_sprite <$> layers) ->
     layer ∈ layers ->
     Pixi.rotation (sprites sc' (layer_sprite layer))
     = Fin (toRad (default 0 (angleDeg (layer_cfg layer)))) /\
     Pixi.alpha (sprites sc' (layer_sprite layer)) = Pixi.alpha (sprites sc (layer_sprite layer)) /\
     zIndexOf sc' (layer_sprite layer) = IZR (Z.of_N (extractZIndex (id (layer_cfg layer)))) /\
     forall item,
       SpinL.createSpinItem (sprites sc') layer = Some item ->
       SpinL.baseRotation item = Fin (toRad (default 0 (angleDeg (layer_cfg layer))))) /\
  (forall (layers : list BuiltLayer) p sc layer,
     layer ∈ layers -> position (layer_cfg layer) = None -> init layers p sc = None) /\
  (forall (layers : list BuiltLayer) p sc layerId transform,
     layerId ∈ layer_id <$> layers ->
     onResize layers (updateTransform layerId transform p) sc = onResize layers p sc).
Proof.
  split_and!.
  - intros r cfg sc. unfold applyBasicTransform, getBasicTransform.
    by destruct (position cfg).
  - intros cfg. unfold getBasicTransform. by destruct (position cfg).
  - intros layers p sc p' sc' layer Hinit Hnd Hin.
    destruct (applyAll_at layers p sc p' sc' layer Hinit Hnd Hin) as (t & Ht & Hs & Hz).
    assert (Hrot : rotation t = toRad (default 0 (angleDeg (layer_cfg layer))) /\
                   zIndex t = IZR (Z.of_N (extractZIndex (id (layer_cfg layer))))).
    { unfold getBasicTransform in Ht. destruct (position (layer_cfg layer)); [|done].
      by injection Ht as <-. }
    destruct Hrot as [Hrot Hzi].
    split_and!.
    + by rewrite Hs, <- Hrot.
    + by rewrite Hs.
    + by rewrite Hz.
    + intros item Hitem. apply createSpinItem_Some in Hitem as (_ & _ & Hbase & _).
      by rewrite Hbase, Hs, <- Hrot.
  - intros layers p sc layer Hin Hpos. by eapply applyAll_missing_position.
  - intros layers p sc layerId transform Hid. unfold onResize.
    apply applyAll_transforms. intros k Hk. unfold updateTransform, BasicProcessor in *.
    destruct (p !! layerId); [|done].
    rewrite lookup_insert_ne; [done|]. intros ->. by apply Hk.
Qed.

(** The sample layer: [updateTransform] before a resize changes
    nothing. *)
Lemma basic_transform_applied_witness :
  onResize [Samples.planet]
    (updateTransform "planet1"
       {| px := Some 1; py := None; pscaleX := None; pscaleY := None;
          protation := None; pzIndex := None |} ∅)
    {| sprites := Samples.blank; zIndexOf := fun _ => 0 |}
  = onResize [Samples.planet] ∅ {| sprites := Samples.blank; zIndexOf := fun _ => 0 |}.
Proof.
  destruct basic_transform_applied as (_ & _ & _ & _ & Hresize).
  apply Hresize. simpl. by apply list_elem_of_singleton.
Defined.

End BasicFacts.

(** ** The engine *)

Section EngineFacts.
Import CoreMath Engine.

Lemma clampRpm60_gt0 v : clampRpm60 v > 0 -> gt0 v = true.
Proof.
  unfold clampRpm60, gt0, numberOf.
  destruct v as [[r| | |]| |[r| | |]]; simpl; try lra.
  - case_bool_decide; simpl; [lra|]. intros _. apply bool_decide_eq_true_2. lra.
  - rewrite bool_decide_eq_true_2 by lra. simpl. lra.
  - case_bool_decide; simpl; [lra|]. intros _. apply bool_decide_eq_true_2. lra.
Qed.

Lemma parseEffects_nonempty cfg f :
  List.filter f (Effect.parseEffects cfg) <> [] -> (0 < length (effects cfg))%nat.
Proof.
  unfold Effect.parseEffects. destruct (effects cfg); [done | simpl; lia].
Qed.

Lemma buildAdvancedLoop_items i (layers : list BuiltLayer) st items st' item :
  Effect.buildAdvancedLoop i layers st = Some (items, st') ->
  item ∈ items ->
  exists layer,
    layer ∈ layers /\
    List.filter Effect.is_advanced (Effect.parseEffects (layer_cfg layer)) <> [].
Proof.
  revert i st items st'.
  induction layers as [|layer layers IH]; intros i st items st' Hloop Hin.
  - simpl in Hloop. injection Hloop as <- <-. by apply elem_of_nil in Hin.
  - cbn [Effect.buildAdvancedLoop] in Hloop.
    destruct (List.filter Effect.is_advanced (Effect.parseEffects (layer_cfg layer)))
      as [|e es] eqn:Hf.
    + destruct (IH _ _ _ _ Hloop Hin) as (l & Hl & Hne). exists l. split; [by right | done].
    + destruct (Effect.addAllAdvanced _ _ _ _) as [[item0 st0]|]; [|done].
      destruct (Effect.buildAdvancedLoop (S i) layers st0) as [[items1 st1]|] eqn:Hrest; [|done].
      assert (Hcases : item = item0 \/ item ∈ items1).
      { destruct (Effect.auras item0), (Effect.distort item0), (Effect.shock item0);
          injection Hloop as <- <-; try (apply elem_of_cons in Hin; tauto); by right. }
      destruct Hcases as [_ | Hitems].
      * exists layer. split; [by left | by rewrite Hf].
      * destruct (IH _ _ _ _ Hrest Hitems) as (l & Hl & Hne). exists l. split; [by right | done].
Qed.

Lemma hasAnimatedLayers_intro (layers : list BuiltLayer) layer :
  layer ∈ layers ->
  gt0 (spinRPM (layer_cfg layer)) = true \/
  gt0 (orbitRPM (layer_cfg layer)) = true \/
  (0 < length (effects (layer_cfg layer)))%nat ->
  hasAnimatedLayers layers = true.
Proof.
  intros Hin Hany. unfold hasAnimatedLayers. apply existsb_exists.
  exists layer. split; [by apply list_elem_of_In|].
  destruct Hany as [-> | [-> | Hlen]]; [done | by rewrite orb_true_r |].
  rewrite (bool_decide_eq_true_2 _ Hlen). by rewrite orb_true_r.
Qed.

(** X30.  [hasAnimatedLayers] is true whenever one of the processors
    has built something to animate: a spin item, an orbit item, or a
    basic or advanced effect item; it is true as well whenever the
    initialisation of the effects throws.  The converse does not hold:
    for a layer whose [spinRPM] is infinite the answer is true, so the
    ticker is started, although every processor is initialised and none
    has an item. *)
Theorem hasAnimatedLayers_covers_processors :
  (forall h (layers : list BuiltLayer) st canUseAdvancedEffects,
     SpinL.items (SpinL.init h layers) <> [] \/
     Orbit.items (Orbit.init layers) <> [] \/
     match Effect.init canUseAdvancedEffects layers st with
     | Some (p, _) => Effect.basicItems p <> [] \/ Effect.advancedItems p <> []
     | None => True
     end ->
     hasAnimatedLayers layers = true) /\
  (forall h layer st canUseAdvancedEffects,
     spinRPM (layer_cfg layer) = UNum PInf ->
     orbitRPM (layer_cfg layer) = UNullish ->
     effects (layer_cfg layer) = [] ->
     hasAnimatedLayers [layer] = true /\
     SpinL.items (SpinL.init h [layer]) = [] /\
     Orbit.items (Orbit.init [layer]) = [] /\
     Effect.init canUseAdvancedEffects [layer] st
     = Some ({| Effect.basicItems := []; Effect.advancedItems := [];
                Effect.elapsedTime := 0 |}, st)).
Proof.
  split.
  - intros h layers st can Hany.
    destruct Hany as [Hspin | [Horbit | Heffect]].
    + rewrite init_items in Hspin.
      destruct (omap (SpinL.createSpinItem h) layers) as [|item items] eqn:Hitems; [done|].
      assert (Hin : item ∈ omap (SpinL.createSpinItem h) layers) by (rewrite Hitems; by left).
      apply list_elem_of_omap in Hin as (layer & Hlayer & Hc).
      apply (hasAnimatedLayers_intro layers layer Hlayer). left.
      apply clampRpm60_gt0.
      destruct (decide (clampRpm60 (spinRPM (layer_cfg layer)) > 0)) as [|Hno]; [done|].
      by rewrite (createSpinItem_disabled h layer Hno) in Hc.
    + rewrite orbit_init_items in Horbit.
      destruct (omap _ layers) as [|item items] eqn:Hitems; [done|].
      assert (Hin : item ∈ omap (fun layer => Orbit.createOrbitItem layer ∅) layers)
        by (rewrite Hitems; by left).
      apply list_elem_of_omap in Hin as (layer & Hlayer & Hc).
      apply (hasAnimatedLayers_intro layers layer Hlayer). right. left.
      apply clampRpm60_gt0.
      destruct (createOrbitItem_fields _ _ _ Hc) as (Hen & _).
      apply createOrbitConfig_rpm in Hen. unfold Orbit.createOrbitConfig in Hen.
      simpl in Hen. lra.
    + unfold Effect.init, Effect.buildAdvancedItems in Heffect.
      assert (Hbasic : Effect.buildBasicItems layers <> [] -> hasAnimatedLayers layers = true).
      { intros Hbasic.
        destruct (Effect.buildBasicItems layers) as [|item items] eqn:Hb; [done|].
        assert (Hin : item ∈ Effect.buildBasicLoop 0 layers)
          by (unfold Effect.buildBasicItems in Hb; rewrite Hb; by left).
        destruct (buildBasicLoop_items 0 layers item Hin)
          as (layer & _ & Hl & Hspecs & Hne & _).
        apply list_elem_of_lookup_2 in Hl.
        apply (hasAnimatedLayers_intro layers layer Hl). right. right.
        apply (parseEffects_nonempty _ Effect.is_basic). by rewrite <- Hspecs. }
      destruct can; simpl in Heffect; [|destruct Heffect as [Hb | Ha]; [by apply Hbasic | done]].
      pose proof (buildAdvancedLoop_result 0 layers st) as Hresult.
      destruct (Effect.buildAdvancedLoop 0 layers st) as [[items st1]|] eqn:Hloop.
      * simpl in Heffect. destruct Heffect as [Hb | Ha]; [by apply Hbasic|].
        destruct items as [|item items]; [done|].
        destruct (buildAdvancedLoop_items 0 layers st (item :: items) st1 item Hloop)
          as (layer & Hl & Hne); [by left|].
        apply (hasAnimatedLayers_intro layers layer Hl). right. right.
        by apply (parseEffects_nonempty _ Effect.is_advanced).
      * destruct Hresult as (layer & effect & Hl & He & Hc).
        apply (hasAnimatedLayers_intro layers layer Hl). right. right.
        apply (parseEffects_nonempty _ Effect.is_advanced).
        intros Hnil.
        assert (Hin : effect ∈ List.filter Effect.is_advanced
                                 (Effect.parseEffects (layer_cfg layer)))
          by (apply advanced_of_layer; split; [done | by apply creates_aura_advanced]).
        rewrite Hnil in Hin. by apply elem_of_nil in Hin.
  - intros h layer st can Hspin Horbit Heffects. split_and!.
    + unfold hasAnimatedLayers. simpl. by rewrite Hspin.
    + rewrite init_items. simpl. rewrite createSpinItem_disabled; [done|].
      rewrite Hspin. unfold clampRpm60. simpl. lra.
    + rewrite orbit_init_items. simpl.
      unfold Orbit.createOrbitItem, Orbit.createOrbitConfig. rewrite Horbit.
      rewrite clampRpm60_null. cbn [Orbit.cfg_enabled].
      by rewrite bool_decide_eq_false_2 by lra.
    + unfold Effect.init, Effect.buildAdvancedItems, Effect.buildBasicItems.
      cbn [Effect.buildBasicLoop Effect.buildAdvancedLoop].
      unfold Effect.parseEffects. rewrite Heffects. by destruct can.
Qed.

(** The sample layer spins, and it is found animated. *)
Lemma hasAnimatedLayers_covers_processors_witness :
  hasAnimatedLayers [Samples.planet] = true.
Proof.
  destruct hasAnimatedLayers_covers_processors as [Hcovers _].
  apply (Hcovers Samples.blank [Samples.planet] Samples.stage true).
  left. rewrite init_items. simpl.
  destruct (createSpinItem_enabled Samples.blank Samples.planet) as [item ->]; [|done].
  simpl. rewrite clampRpm60_30. lra.
Defined.

End EngineFacts.
